(** * chargedrift: recurring-charge detection, price drift, merchant
    resolution and CSV ingestion, embedded from the TypeScript sources.

    Modelling conventions, used throughout:
    - a JavaScript [number] that the code keeps finite is an exact rational
      ([Q]); rounding of IEEE doubles and the sign of zero are not modelled.
      Where the code divides by a value it has not guarded, the quotient is a
      [JS.number], which adds the infinities and NaN;
    - the one-percent test of [detectPriceChanges] is decided by rounding at
      its threshold, so [PriceDriftBinary64] embeds that function a second
      time, in the binary64 numbers of the kernel ([PrimFloat]), each
      operation rounded to nearest as in JavaScript;
    - a calendar date ([Date] at midnight, or the ISO string of a [DATE]
      column) is its day number, an integer; [getTime] order is the order of
      day numbers and [differenceInDays] is their difference;
    - strings are Rocq strings over ASCII;
    - [Array.prototype.sort] is the stable sort. *)

From Stdlib Require Import String Ascii DecimalString.
From Stdlib Require Import List ZArith QArith Qabs Qminmax Bool Lia Lqa.
From Stdlib Require Import Arith PeanoNat Permutation Sorted.
From Stdlib Require Floats Uint63.
Import ListNotations.

(** ** JavaScript numbers *)

Module JS.

Inductive number : Type :=
| Fin (q : Q)
| PosInfinity
| NegInfinity
| NaN.

Definition Qleb (x y : Q) : bool := Qle_bool x y.
Definition Qltb (x y : Q) : bool := negb (Qle_bool y x).

(** [x / y] on finite operands. *)
Definition div (x y : Q) : number :=
  if Qeq_bool y 0 then
    if Qeq_bool x 0 then NaN
    else if Qltb 0 x then PosInfinity else NegInfinity
  else Fin (x / y).

(** [n <= c] for a finite [c]; every comparison with NaN is false. *)
Definition le (n : number) (c : Q) : bool :=
  match n with
  | Fin q => Qleb q c
  | NegInfinity => true
  | PosInfinity | NaN => false
  end.

Definition sub (n : number) (c : Q) : number :=
  match n with
  | Fin q => Fin (q - c)
  | other => other
  end.


(** [-n] *)
Definition neg (n : number) : number :=
  match n with
  | Fin q => Fin (- q)
  | PosInfinity => NegInfinity
  | NegInfinity => PosInfinity
  | NaN => NaN
  end.

(** [Math.abs(n)] *)
Definition abs (n : number) : number :=
  match n with
  | Fin q => Fin (Qabs q)
  | PosInfinity | NegInfinity => PosInfinity
  | NaN => NaN
  end.

(** [n > 0] *)
Definition gt0 (n : number) : bool :=
  match n with
  | Fin q => Qltb 0 q
  | PosInfinity => true
  | NegInfinity | NaN => false
  end.

(** [n === 0] *)
Definition is_zero (n : number) : bool :=
  match n with
  | Fin q => Qeq_bool q 0
  | _ => false
  end.

(** The number that a decimal literal of exact value [q] is read as, as far
    as the range of a double goes: a magnitude of at least [2^1024 - 2^970]
    (half a step above the largest double) is an infinity, one of at most
    [2^-1075] (half the smallest double) is 0; in between the value stands
    for its double. *)
Definition overflow_bound : Q := inject_Z (2 ^ 1024 - 2 ^ 970).
Definition underflow_bound : Q := / inject_Z (2 ^ 1075).

Definition literal (q : Q) : number :=
  if Qleb overflow_bound (Qabs q) then
    if Qltb 0 q then PosInfinity else NegInfinity
  else if Qleb (Qabs q) underflow_bound then Fin 0
  else Fin q.

(** [arr.reduce((a, b) => a + b, 0)] *)
Definition sum (l : list Q) : Q := fold_left Qplus l 0%Q.

Definition of_nat (n : nat) : Q := inject_Z (Z.of_nat n).

(** [[...l].sort((a, b) => key(a) - key(b))]: insertion keeps the earlier of
    two elements with equal keys first. *)
Fixpoint insert_by {A} (key : A -> Z) (x : A) (l : list A) : list A :=
  match l with
  | [] => [x]
  | y :: l' => if (key x <=? key y)%Z then x :: l else y :: insert_by key x l'
  end.

Fixpoint sort_by {A} (key : A -> Z) (l : list A) : list A :=
  match l with
  | [] => []
  | x :: l' => insert_by key x (sort_by key l')
  end.

(** The order the comparator [(a, b) => key(a) - key(b)] sorts into. *)
Definition key_le {A} (key : A -> Z) (x y : A) : Prop := (key x <= key y)%Z.

End JS.

(** ** src/lib/services/recurring-detector.ts *)

Module RecurringDetector.
Import JS.

Inductive RecurringFrequency : Type :=
| weekly | biweekly | monthly | quarterly | yearly.

(** The fields of [Transaction] (types/index.ts) the services read. *)
Record Transaction : Type := {
  id : string;
  merchant_id : option string;
  amount : Q;
  date : Z;
  pending : bool
}.

Record TransactionGroup : Type := {
  merchantId : string;
  transactions : list Transaction;
  amounts : list Q;
  dates : list Z
}.

Record FrequencyPattern : Type := {
  frequency : RecurringFrequency;
  minDays : Z;
  maxDays : Z;
  weight : Q
}.

Definition FREQUENCY_PATTERNS : list FrequencyPattern :=
  [ {| frequency := weekly; minDays := 5; maxDays := 9; weight := 1 |};
    {| frequency := biweekly; minDays := 12; maxDays := 16; weight := 1 |};
    {| frequency := monthly; minDays := 27; maxDays := 35; weight := 1.2 |};
    {| frequency := quarterly; minDays := 85; maxDays := 100; weight := 0.8 |};
    {| frequency := yearly; minDays := 355; maxDays := 375; weight := 0.6 |} ].

Definition MIN_TRANSACTIONS : nat := 2.
Definition MIN_CONFIDENCE : Q := 0.5.
Definition AMOUNT_TOLERANCE : Q := 0.15.

(** The loop [for (let i = 1; i < sortedDates.length; i++)] pushing
    [differenceInDays(sortedDates[i], sortedDates[i - 1])]. *)
Fixpoint intervals_of (sortedDates : list Z) : list Z :=
  match sortedDates with
  | d0 :: ((d1 :: _) as rest) => (d1 - d0)%Z :: intervals_of rest
  | _ => []
  end.

Definition in_range (p : FrequencyPattern) (i : Z) : bool :=
  ((minDays p <=? i) && (i <=? maxDays p))%Z.

Definition avg_in_range (p : FrequencyPattern) (avg : Q) : bool :=
  Qleb (inject_Z (minDays p)) avg && Qleb avg (inject_Z (maxDays p)).

Definition pattern_score (p : FrequencyPattern) (intervals : list Z) : Q :=
  (of_nat (length (filter (in_range p) intervals))
   / of_nat (length intervals)) * weight p.

(** One turn of [for (const pattern of FREQUENCY_PATTERNS)] on the pair
    [(bestMatch, bestScore)]. *)
Definition match_step (intervals : list Z) (avgInterval : Q)
    (best : option FrequencyPattern * Q) (pattern : FrequencyPattern)
    : option FrequencyPattern * Q :=
  if avg_in_range pattern avgInterval then
    let score := pattern_score pattern intervals in
    if Qltb (snd best) score then (Some pattern, score) else best
  else best.

(** [intervals.reduce((a, b) => a + b, 0) / intervals.length] *)
Definition avg_interval (intervals : list Z) : Q :=
  inject_Z (fold_left Z.add intervals 0%Z) / of_nat (length intervals).

Definition detectFrequency (dates : list Z) : option (RecurringFrequency * Q) :=
  if (length dates <? MIN_TRANSACTIONS)%nat then None
  else
    let sortedDates := sort_by (fun d => d) dates in
    let intervals := intervals_of sortedDates in
    if (length intervals =? 0)%nat then None
    else
      let avgInterval := avg_interval intervals in
      let best :=
        fold_left (match_step intervals avgInterval) FREQUENCY_PATTERNS (None, 0%Q) in
      match fst best with
      | None => None
      | Some bestMatch =>
          if Qltb (snd best) MIN_CONFIDENCE then None
          else Some (frequency bestMatch, Qmin (snd best) 1)
      end.

Record AmountCheck : Type := {
  consistent : bool;
  confidenceBoost : Q
}.

Definition within_tolerance (avgAmount amount : Q) : bool :=
  JS.le (JS.div (Qabs (amount - avgAmount)) avgAmount) AMOUNT_TOLERANCE.

(** [amounts.reduce((a, b) => a + b, 0) / amounts.length] *)
Definition avg_amount (amounts : list Q) : Q :=
  sum amounts / of_nat (length amounts).

(** [consistentCount / amounts.length] *)
Definition consistency_ratio (amounts : list Q) : Q :=
  of_nat (length (filter (within_tolerance (avg_amount amounts)) amounts))
  / of_nat (length amounts).

Definition checkAmountConsistency (amounts : list Q) : AmountCheck :=
  if (length amounts <? 2)%nat then {| consistent := false; confidenceBoost := 0 |}
  else
    let ratio := consistency_ratio amounts in
    {| consistent := Qleb 0.7 ratio; confidenceBoost := (ratio * 0.2)%Q |}.

(** [groups.set(tx.merchant_id, { merchantId, transactions: [tx], ... })] *)
Definition new_group (key : string) (tx : Transaction) : TransactionGroup :=
  {| merchantId := key; transactions := [tx];
     amounts := [amount tx]; dates := [date tx] |}.

(** The three [push]es on an existing group. *)
Definition push_group (g : TransactionGroup) (tx : Transaction) : TransactionGroup :=
  {| merchantId := merchantId g;
     transactions := transactions g ++ [tx];
     amounts := amounts g ++ [amount tx];
     dates := dates g ++ [date tx] |}.

(** [groups.get(key)] then the pushes, or [groups.set] of a fresh group at the
    end of the insertion-ordered [Map]. *)
Fixpoint group_add (key : string) (tx : Transaction)
    (groups : list (string * TransactionGroup)) : list (string * TransactionGroup) :=
  match groups with
  | [] => [ (key, new_group key tx) ]
  | (k, g) :: rest =>
      if String.eqb k key then (k, push_group g tx) :: rest
      else (k, g) :: group_add key tx rest
  end.

(** [!tx.merchant_id || tx.pending]: [null] and the empty string are falsy. *)
Definition skipped (tx : Transaction) : bool :=
  match merchant_id tx with
  | None => true
  | Some m => String.eqb m EmptyString || pending tx
  end.

(** One turn of [for (const tx of transactions)]. *)
Definition group_step (groups : list (string * TransactionGroup)) (tx : Transaction)
    : list (string * TransactionGroup) :=
  match merchant_id tx with
  | Some m => if skipped tx then groups else group_add m tx groups
  | None => groups
  end.

Definition groupByMerchant (txs : list Transaction)
    : list (string * TransactionGroup) :=
  fold_left group_step txs [].

Record DetectedRecurring : Type := {
  dr_merchantId : string;
  dr_frequency : RecurringFrequency;
  dr_confidence : Q;
  dr_firstAmount : Q;
  dr_currentAmount : Q;
  dr_firstDate : Z;
  dr_lastDate : Z;
  dr_transactionCount : nat
}.

(** The body of [for (const [merchantId, group] of groups.entries())]; the
    result is what the turn pushes on [recurring].  The group holds a
    transaction whenever the body reaches the reads of [sortedTx[0]] and
    [sortedDates[0]], so their defaults are never used. *)
Definition detect_group (merchantId : string) (group : TransactionGroup)
    : list DetectedRecurring :=
  if (length (transactions group) <? MIN_TRANSACTIONS)%nat then []
  else
    match detectFrequency (dates group) with
    | None => []
    | Some (freq, conf) =>
        let amountCheck := checkAmountConsistency (amounts group) in
        if negb (consistent amountCheck) then []
        else
          let sortedDates := sort_by (fun d => d) (dates group) in
          let sortedTx := sort_by date (transactions group) in
          [ {| dr_merchantId := merchantId;
               dr_frequency := freq;
               dr_confidence := Qmin (conf + confidenceBoost amountCheck) 1;
               dr_firstAmount := hd 0%Q (map amount sortedTx);
               dr_currentAmount := last (map amount sortedTx) 0%Q;
               dr_firstDate := hd 0%Z sortedDates;
               dr_lastDate := last sortedDates 0%Z;
               dr_transactionCount := length (transactions group) |} ]
    end.

Definition detectRecurringCharges (txs : list Transaction) : list DetectedRecurring :=
  fold_left
    (fun recurring '(merchantId, group) => recurring ++ detect_group merchantId group)
    (groupByMerchant txs) [].

(** *** Vocabulary of the statements *)

(** [t] is a transaction the detector keeps for merchant [m]: not pending,
    and its [merchant_id] is [m] (which is then not empty). *)
Definition of_merchant (m : string) (t : Transaction) : bool :=
  negb (skipped t) &&
  match merchant_id t with Some k => String.eqb k m | None => false end.

(** The merchant group of [m]: its non-pending transactions, in input order. *)
Definition merchant_group (txs : list Transaction) (m : string) : list Transaction :=
  filter (of_merchant m) txs.

(** What [groupByMerchant] keeps true of each group after reading [txs]. *)
Record group_ok (txs : list Transaction) (k : string) (g : TransactionGroup) : Prop := {
  ok_id : merchantId g = k;
  ok_transactions : transactions g = merchant_group txs k;
  ok_amounts : amounts g = map amount (transactions g);
  ok_dates : dates g = map date (transactions g)
}.

Definition groups_inv (txs : list Transaction)
    (acc : list (string * TransactionGroup)) : Prop :=
  NoDup (map fst acc) /\
  (forall k g, In (k, g) acc -> group_ok txs k g) /\
  (forall k, ~ In k (map fst acc) -> merchant_group txs k = []).

(** [a] is within 15% relative deviation of [mean]. *)
Definition within_15_percent (mean a : Q) : bool :=
  Qleb (Qabs (a - mean)) (0.15 * Qabs mean).

(** The share of the amounts that are within 15% of their mean. *)
Definition share_within_15_percent (amounts : list Q) : Q :=
  of_nat (length (filter (within_15_percent (avg_amount amounts)) amounts))
  / of_nat (length amounts).

(** The consecutive-day intervals of a group. *)
Definition group_intervals (group : list Transaction) : list Z :=
  intervals_of (sort_by (fun d => d) (map date group)).

Definition mean_in_no_bucket (intervals : list Z) : Prop :=
  forall p, In p FREQUENCY_PATTERNS ->
            avg_in_range p (avg_interval intervals) = false.

Definition best_score_below_half (intervals : list Z) : Prop :=
  forall p, In p FREQUENCY_PATTERNS ->
            avg_in_range p (avg_interval intervals) = true ->
            (pattern_score p intervals < 0.5)%Q.

(** Four monthly transactions of one merchant with negative amounts,
    alternating -10 and -100. *)
Definition alternating_credits : list Transaction :=
  [ {| id := "c1"; merchant_id := Some "refunds"%string; amount := -10;
       date := 19737; pending := false |};
    {| id := "c2"; merchant_id := Some "refunds"%string; amount := -100;
       date := 19767; pending := false |};
    {| id := "c3"; merchant_id := Some "refunds"%string; amount := -10;
       date := 19797; pending := false |};
    {| id := "c4"; merchant_id := Some "refunds"%string; amount := -100;
       date := 19827; pending := false |} ].

(** Four monthly charges of one merchant, alternating 10 and 100. *)
Definition alternating_charges : list Transaction :=
  [ {| id := "c1"; merchant_id := Some "gym"%string; amount := 10;
       date := 19737; pending := false |};
    {| id := "c2"; merchant_id := Some "gym"%string; amount := 100;
       date := 19767; pending := false |};
    {| id := "c3"; merchant_id := Some "gym"%string; amount := 10;
       date := 19797; pending := false |};
    {| id := "c4"; merchant_id := Some "gym"%string; amount := 100;
       date := 19827; pending := false |} ].

End RecurringDetector.

(** ** src/lib/services/price-drift.ts *)

Module PriceDrift.
Import JS RecurringDetector.


Section DriftMetrics.

(** date-fns's [differenceInMonths(later, earlier)] on two valid dates, and
    [Math.pow] on finite arguments (its result may be NaN or infinite). *)
Variable differenceInMonths : Z -> Z -> Z.
Variable Math_pow : Q -> Q -> JS.number.


End DriftMetrics.

(** The fields of [RecurringCharge] that [detectPriceChanges] reads. *)
Record RecurringCharge : Type := {
  rc_id : string;
  rc_merchant_id : string
}.

Record PriceChangeDetection : Type := {
  recurringChargeId : string;
  pc_merchantId : string;
  previousAmount : Q;
  newAmount : Q;
  changeAmount : Q;
  changePercent : Q;
  detectedAt : Z;
  transactionId : string
}.

(** [tx.merchant_id === recurringCharge.merchant_id && !tx.pending] *)
Definition of_charge (rc : RecurringCharge) (tx : Transaction) : bool :=
  match merchant_id tx with
  | Some m => String.eqb m (rc_merchant_id rc)
  | None => false
  end && negb (pending tx).

Definition sortedTx (txs : list Transaction) (rc : RecurringCharge) : list Transaction :=
  sort_by date (filter (of_charge rc) txs).

(** [prev.amount > 0 ? (change / prev.amount) * 100 : 0] *)
Definition percent_change (prev curr : Transaction) : Q :=
  let change := amount curr - amount prev in
  if Qltb 0 (amount prev) then (change / amount prev) * 100 else 0.

(** [Math.abs(percentChange) > 1] *)
Definition significant (prev curr : Transaction) : bool :=
  Qltb 1 (Qabs (percent_change prev curr)).

Definition price_change (rc : RecurringCharge) (prev curr : Transaction)
    : PriceChangeDetection :=
  {| recurringChargeId := rc_id rc;
     pc_merchantId := rc_merchant_id rc;
     previousAmount := amount prev;
     newAmount := amount curr;
     changeAmount := amount curr - amount prev;
     changePercent := percent_change prev curr;
     detectedAt := date curr;
     transactionId := id curr |}.

(** The loop [for (let i = 1; i < sortedTx.length; i++)]: [prev] is
    [sortedTx[i - 1]], [rest] starts at [sortedTx[i]], and [changes] is what
    has been pushed so far. *)
Fixpoint price_loop (rc : RecurringCharge) (prev : Transaction)
    (rest : list Transaction) (changes : list PriceChangeDetection)
    : list PriceChangeDetection :=
  match rest with
  | [] => changes
  | curr :: rest' =>
      price_loop rc curr rest'
        (if significant prev curr then changes ++ [price_change rc prev curr]
         else changes)
  end.

Definition detectPriceChanges (txs : list Transaction) (rc : RecurringCharge)
    : list PriceChangeDetection :=
  let sorted := sortedTx txs rc in
  if (length sorted <? 2)%nat then []
  else
    match sorted with
    | prev :: rest => price_loop rc prev rest []
    | [] => []
    end.

(** *** Vocabulary of the statements *)

(** The adjacent pairs [(l[i-1], l[i])] of a list, in order. *)
Fixpoint adjacent_pairs (l : list Transaction) : list (Transaction * Transaction) :=
  match l with
  | prev :: ((curr :: _) as rest) => (prev, curr) :: adjacent_pairs rest
  | _ => []
  end.

Definition date_sorted (txs : list Transaction) : Prop :=
  StronglySorted (key_le date) txs.

End PriceDrift.

(** ** src/lib/services/price-drift.ts, in IEEE doubles *)

Module PriceDriftBinary64.
Import JS RecurringDetector PriceDrift PrimFloat.

(** The double of a natural number below [2^63], rounded to nearest
    (exact below [2^53]). *)
Definition of_pos (p : positive) : float := of_uint63 (Uint63.of_Z (Zpos p)).

(** The double that JavaScript reads for the decimal number [q]: the
    quotient of its numerator and denominator, rounded to nearest once.
    Both are below [2^53] for an amount of the [DECIMAL(12, 2)] column. *)
Definition to_double (q : Q) : float :=
  match Qnum q with
  | Z0 => 0%float
  | Zpos n => (of_pos n / of_pos (Qden q))%float
  | Zneg n => (- (of_pos n / of_pos (Qden q)))%float
  end.

(** [tx.amount] *)
Definition amount64 (tx : Transaction) : float := to_double (amount tx).

Record PriceChangeDetection : Type := {
  recurringChargeId : string;
  pc_merchantId : string;
  previousAmount : float;
  newAmount : float;
  changeAmount : float;
  changePercent : float;
  detectedAt : Z;
  transactionId : string
}.

(** [prev.amount > 0 ? (change / prev.amount) * 100 : 0], every operation
    rounded to the nearest double. *)
Definition percent_change (prev curr : Transaction) : float :=
  let change := (amount64 curr - amount64 prev)%float in
  if (0 <? amount64 prev)%float then ((change / amount64 prev) * 100)%float
  else 0%float.

(** [Math.abs(percentChange) > 1] *)
Definition significant (prev curr : Transaction) : bool :=
  (1 <? abs (percent_change prev curr))%float.

Definition price_change (rc : RecurringCharge) (prev curr : Transaction)
    : PriceChangeDetection :=
  {| recurringChargeId := rc_id rc;
     pc_merchantId := rc_merchant_id rc;
     previousAmount := amount64 prev;
     newAmount := amount64 curr;
     changeAmount := (amount64 curr - amount64 prev)%float;
     changePercent := percent_change prev curr;
     detectedAt := date curr;
     transactionId := id curr |}.

(** The loop [for (let i = 1; i < sortedTx.length; i++)], as in
    [PriceDrift.price_loop]. *)
Fixpoint price_loop (rc : RecurringCharge) (prev : Transaction)
    (rest : list Transaction) (changes : list PriceChangeDetection)
    : list PriceChangeDetection :=
  match rest with
  | [] => changes
  | curr :: rest' =>
      price_loop rc curr rest'
        (if significant prev curr then changes ++ [price_change rc prev curr]
         else changes)
  end.

Definition detectPriceChanges (txs : list Transaction) (rc : RecurringCharge)
    : list PriceChangeDetection :=
  let sorted := sortedTx txs rc in
  if (length sorted <? 2)%nat then []
  else
    match sorted with
    | prev :: rest => price_loop rc prev rest []
    | [] => []
    end.

(** *** Vocabulary of the statements *)

(** Two charges of one merchant a month apart, of 1.00 and then 1.01. *)
Definition one_percent_rise : list Transaction :=
  [ {| id := "t1"; merchant_id := Some "netflix"%string; amount := 1;
       date := 19737; pending := false |};
    {| id := "t2"; merchant_id := Some "netflix"%string; amount := 1.01;
       date := 19768; pending := false |} ].

End PriceDriftBinary64.

(** ** Strings and arrays *)

Module Str.

Definition chars (s : string) : list ascii := list_ascii_of_string s.
Definition of_chars (l : list ascii) : string := string_of_list_ascii l.

Definition code (c : ascii) : nat := nat_of_ascii c.

Definition between (lo hi : nat) (c : ascii) : bool :=
  (lo <=? code c)%nat && (code c <=? hi)%nat.

Definition is_upper : ascii -> bool := between 65 90.
Definition is_lower : ascii -> bool := between 97 122.
Definition is_digit : ascii -> bool := between 48 57.

(** The class [\s], which is also what [trim] strips: tab, line feed,
    vertical tab, form feed, carriage return and space. *)
Definition is_space (c : ascii) : bool :=
  between 9 13 c || (code c =? 32)%nat.

Definition lower (c : ascii) : ascii :=
  if is_upper c then ascii_of_nat (code c + 32) else c.

Definition toLowerCase (s : string) : string := of_chars (map lower (chars s)).

(** [s.replace(/[class]/g, '')] for a character class given as a predicate. *)
Definition remove (in_class : ascii -> bool) (s : string) : string :=
  of_chars (filter (fun c => negb (in_class c)) (chars s)).

(** [s.charAt(i)]: [None] stands for the empty string of an index out of range. *)
Definition charAt (s : string) (i : nat) : option ascii := nth_error (chars s) i.

Definition option_ascii_eqb (x y : option ascii) : bool :=
  match x, y with
  | Some c, Some d => Ascii.eqb c d
  | None, None => true
  | _, _ => false
  end.

Fixpoint dropWhile (p : ascii -> bool) (l : list ascii) : list ascii :=
  match l with
  | c :: l' => if p c then dropWhile p l' else l
  | [] => []
  end.

Fixpoint takeWhile (p : ascii -> bool) (l : list ascii) : list ascii :=
  match l with
  | c :: l' => if p c then c :: takeWhile p l' else []
  | [] => []
  end.

Definition trim_chars (l : list ascii) : list ascii :=
  rev (dropWhile is_space (rev (dropWhile is_space l))).

Definition trim (s : string) : string := of_chars (trim_chars (chars s)).

Definition is_empty (s : string) : bool :=
  match s with
  | EmptyString => true
  | String _ _ => false
  end.

Definition is_char (n : nat) (c : ascii) : bool := (code c =? n)%nat.

Definition tab : ascii := ascii_of_nat 9.
Definition comma : ascii := ascii_of_nat 44.
Definition dquote : ascii := ascii_of_nat 34.
Definition squote : ascii := ascii_of_nat 39.

Fixpoint starts_with (prefix l : list ascii) : bool :=
  match prefix, l with
  | [], _ => true
  | p :: prefix', c :: l' => Ascii.eqb p c && starts_with prefix' l'
  | _ :: _, [] => false
  end.

(** [s.includes(sub)] *)
Fixpoint includes_chars (sub l : list ascii) : bool :=
  starts_with sub l ||
  match l with
  | [] => false
  | _ :: l' => includes_chars sub l'
  end.

Definition includes (s sub : string) : bool := includes_chars (chars sub) (chars s).

(** The pieces of [l] between occurrences of [sep]. *)
Fixpoint split_on (sep : ascii -> bool) (l : list ascii) : list (list ascii) :=
  match l with
  | [] => [[]]
  | c :: l' =>
      match split_on sep l' with
      | piece :: pieces => if sep c then [] :: piece :: pieces else (c :: piece) :: pieces
      | [] => [[c]]
      end
  end.

(** The value of a string of decimal digits. *)
Definition digits_value (l : list ascii) : nat :=
  fold_left (fun n c => (10 * n + (code c - 48))%nat) l 0%nat.

(** [String(n)] for a natural number. *)
Definition nat_to_string (n : nat) : string :=
  NilEmpty.string_of_uint (Nat.to_uint n).

(** [s.padStart(2, '0')] *)
Definition padStart2 (l : list ascii) : list ascii :=
  repeat (ascii_of_nat 48) (2 - length l) ++ l.

End Str.

(** A JavaScript array: a hole or an index past the end reads as
    [undefined] ([None]), and a write past the end extends the array. *)
Module JSArray.

Definition t (A : Type) : Type := list (option A).

Definition get {A} (l : t A) (i : nat) : option A :=
  match nth_error l i with
  | Some (Some v) => Some v
  | _ => None
  end.

Fixpoint set {A} (l : t A) (i : nat) (v : A) : t A :=
  match l, i with
  | [], O => [Some v]
  | [], S i' => None :: set [] i' v
  | _ :: l', O => Some v :: l'
  | x :: l', S i' => x :: set l' i' v
  end.

End JSArray.

(** ** src/lib/services/merchant-normalizer.ts *)

Module MerchantNormalizer.
Import JS Str.

(** A step that needs a defined operand: [None] is a read of [undefined]
    (a [TypeError], or a NaN once it enters arithmetic). *)
Definition bind {A B} (x : option A) (f : A -> option B) : option B :=
  match x with
  | Some a => f a
  | None => None
  end.

Notation "x <- e ;; k" := (bind e (fun x => k))
  (at level 61, e at next level, right associativity).

Definition matrix : Type := JSArray.t (JSArray.t nat).

(** [matrix[i][j]] *)
Definition cell (M : matrix) (i j : nat) : option nat :=
  row <- JSArray.get M i ;; JSArray.get row j.

(** [matrix[i][j] = v] *)
Definition set_cell (M : matrix) (i j v : nat) : option matrix :=
  row <- JSArray.get M i ;; Some (JSArray.set M i (JSArray.set row j v)).

(** The body of the two nested loops, at row [i] and column [j]. *)
Definition fill_cell (a b : string) (M : matrix) (i j : nat) : option matrix :=
  if option_ascii_eqb (charAt b (i - 1)) (charAt a (j - 1)) then
    v <- cell M (i - 1) (j - 1) ;; set_cell M i j v
  else
    x <- cell M (i - 1) (j - 1) ;;
    y <- cell M i (j - 1) ;;
    z <- cell M (i - 1) j ;;
    set_cell M i j (Nat.min (x + 1) (Nat.min (y + 1) (z + 1))).

(** [for (let i = 0; i <= b.length; i++) matrix[i] = [i]] *)
Definition init_rows (rows : nat) : matrix :=
  fold_left (fun M i => JSArray.set M i [Some i]) (seq 0 (S rows)) [].

(** [for (let j = 0; j <= a.length; j++) matrix[0][j] = j] *)
Definition init_first_row (cols : nat) (M : matrix) : option matrix :=
  fold_left (fun M j => M' <- M ;; set_cell M' 0 j j) (seq 0 (S cols)) (Some M).

(** [for (let j = 1; j <= a.length; j++)] at row [i] *)
Definition fill_row (a b : string) (cols : nat) (M : option matrix) (i : nat)
    : option matrix :=
  fold_left (fun M j => M' <- M ;; fill_cell a b M' i j) (seq 1 cols) M.

Definition levenshteinDistance (a b : string) : option nat :=
  let rows := String.length b in
  let cols := String.length a in
  M <- fold_left (fill_row a b cols) (seq 1 rows)
         (init_first_row cols (init_rows rows)) ;;
  cell M rows cols.

(** [s.toLowerCase().replace(/[^a-z0-9]/g, '')] *)
Definition reduce (s : string) : string :=
  remove (fun c => negb (is_lower c || is_digit c)) (toLowerCase s).

(** The result is [None] when the distance is not a number. *)
Definition calculateSimilarity (a b : string) : option Q :=
  let normA := reduce a in
  let normB := reduce b in
  if String.eqb normA normB then Some 1%Q
  else if (String.length normA =? 0)%nat || (String.length normB =? 0)%nat then Some 0%Q
  else
    distance <- levenshteinDistance normA normB ;;
    let maxLength := Nat.max (String.length normA) (String.length normB) in
    Some (1 - of_nat distance / of_nat maxLength)%Q.

(** *** The store behind [findOrCreateMerchant] *)

(** Rows of [public.merchants] and [public.merchant_aliases], with the
    columns the function reads or writes. *)
Record Merchant : Type := {
  m_id : string;
  m_user_id : string;
  m_name : string;
  m_raw_names : list string
}.

Record MerchantAlias : Type := {
  a_merchant_id : string;
  a_raw_name : string;
  a_user_id : string
}.

Record Store : Type := {
  merchants : list Merchant;
  merchant_aliases : list MerchantAlias
}.

(** What the [async] function settles to. *)
Inductive outcome : Type :=
| Returned (merchantId : string)
| Thrown (message : string).

(** [.single()]: the row when exactly one matches, [null] otherwise. *)
Definition single {A} (rows : list A) : option A :=
  match rows with
  | [row] => Some row
  | _ => None
  end.

Definition alias_matches (userId rawName : string) (al : MerchantAlias) : bool :=
  String.eqb (a_user_id al) userId && String.eqb (a_raw_name al) rawName.

Definition merchant_named (userId name : string) (m : Merchant) : bool :=
  String.eqb (m_user_id m) userId && String.eqb (m_name m) name.

(** [calculateSimilarity(normalizedName, merchant.name) > 0.8] *)
Definition similar (normalizedName : string) (m : Merchant) : bool :=
  match calculateSimilarity normalizedName (m_name m) with
  | Some q => Qltb 0.8 q
  | None => false
  end.

(** [upsert(..., { onConflict: 'user_id,raw_name' })] *)
Definition upsert_alias (aliases : list MerchantAlias)
    (merchantId rawName userId : string) : list MerchantAlias :=
  if existsb (alias_matches userId rawName) aliases then
    map (fun al =>
           if alias_matches userId rawName al
           then {| a_merchant_id := merchantId; a_raw_name := rawName;
                   a_user_id := userId |}
           else al)
        aliases
  else
    aliases ++ [ {| a_merchant_id := merchantId; a_raw_name := rawName;
                    a_user_id := userId |} ].

Section FindOrCreate.

(** [normalizeMerchantName] (any function of the raw name does); the [id] the
    [uuid_generate_v4()] default gives a new merchant row; and what the store
    makes of the [raw_names] value of the [update]. *)
Variable normalizeMerchantName : string -> string.
Variable new_uuid : Store -> string.
Variable raw_names_update : list string -> string -> list string.

(** [insert({ user_id, name, raw_names: [rawName] }).select('id').single()]:
    [UNIQUE(user_id, name)] refuses a second row of the same name. *)
Definition insert_merchant (db : Store) (userId name rawName : string)
    : option (Store * string) :=
  if existsb (merchant_named userId name) (merchants db) then None
  else
    let newId := new_uuid db in
    Some ({| merchants :=
               merchants db ++
               [ {| m_id := newId; m_user_id := userId; m_name := name;
                    m_raw_names := [rawName] |} ];
             merchant_aliases := merchant_aliases db |},
          newId).

(** [update({ raw_names: ... }).eq('id', merchantId)] *)
Definition update_raw_names (db : Store) (merchantId rawName : string) : Store :=
  {| merchants :=
       map (fun m =>
              if String.eqb (m_id m) merchantId
              then {| m_id := m_id m; m_user_id := m_user_id m; m_name := m_name m;
                      m_raw_names := raw_names_update (m_raw_names m) rawName |}
              else m)
           (merchants db);
     merchant_aliases := merchant_aliases db |}.

Definition create_alias (db : Store) (merchantId rawName userId : string) : Store :=
  {| merchants := merchants db;
     merchant_aliases := upsert_alias (merchant_aliases db) merchantId rawName userId |}.

Definition findOrCreateMerchant (db : Store) (userId rawName : string)
    : Store * outcome :=
  let normalizedName := normalizeMerchantName rawName in
  match single (filter (alias_matches userId rawName) (merchant_aliases db)) with
  | Some existingAlias => (db, Returned (a_merchant_id existingAlias))
  | None =>
      match single (filter (merchant_named userId normalizedName) (merchants db)) with
      | Some existingMerchant =>
          let merchantId := m_id existingMerchant in
          let db1 := update_raw_names db merchantId rawName in
          (create_alias db1 merchantId rawName userId, Returned merchantId)
      | None =>
          let allMerchants :=
            filter (fun m => String.eqb (m_user_id m) userId) (merchants db) in
          match find (similar normalizedName) allMerchants with
          | Some merchant =>
              let merchantId := m_id merchant in
              (create_alias db merchantId rawName userId, Returned merchantId)
          | None =>
              match insert_merchant db userId normalizedName rawName with
              | None => (db, Thrown "Failed to create merchant")
              | Some (db1, merchantId) =>
                  (create_alias db1 merchantId rawName userId, Returned merchantId)
              end
          end
      end
  end.

End FindOrCreate.

(** *** Vocabulary of the statements *)

(** The lowercased alphanumeric-only form of a string, said without the
    regular expression of the code: a letter [a]-[z] or a digit stays, a
    letter [A]-[Z] becomes the letter at its place in [a]-[z], and every
    other character is left out. *)
Definition lower_letters : list ascii := chars "abcdefghijklmnopqrstuvwxyz".
Definition upper_letters : list ascii := chars "ABCDEFGHIJKLMNOPQRSTUVWXYZ".
Definition decimal_digits : list ascii := chars "0123456789".

Fixpoint place (c : ascii) (l : list ascii) : option nat :=
  match l with
  | [] => None
  | x :: l' => if Ascii.eqb c x then Some 0%nat else option_map S (place c l')
  end.

Definition alphanumeric_lowercased_char (c : ascii) : list ascii :=
  if existsb (Ascii.eqb c) (lower_letters ++ decimal_digits) then [c]
  else
    match place c upper_letters with
    | Some i => firstn 1 (skipn i lower_letters)
    | None => []
    end.

Definition alphanumeric_lowercased (s : string) : string :=
  of_chars (flat_map alphanumeric_lowercased_char (chars s)).

(** An edit script from [a] to [b] of [n] single-character insertions,
    deletions and substitutions. *)
Inductive edits : list ascii -> list ascii -> nat -> Prop :=
| edits_nil : edits [] [] 0
| edits_keep x a b n : edits a b n -> edits (x :: a) (x :: b) n
| edits_subst x y a b n : edits a b n -> edits (x :: a) (y :: b) (S n)
| edits_delete x a b n : edits a b n -> edits (x :: a) b (S n)
| edits_insert y a b n : edits a b n -> edits a (y :: b) (S n).

(** The Levenshtein distance, by its defining recursion. *)
Fixpoint lev (a : list ascii) : list ascii -> nat :=
  match a with
  | [] => fun b => length b
  | x :: a' =>
      fix lev_b (b : list ascii) : nat :=
        match b with
        | [] => S (length a')
        | y :: b' =>
            Nat.min (S (lev a' b))
              (Nat.min (S (lev_b b'))
                 ((if Ascii.eqb x y then 0 else 1) + lev a' b'))%nat
        end
  end.

Definition editDistance (a b : string) : nat := lev (chars a) (chars b).

(** What the table holds at row [i] and column [j]: the distance between the
    first [i] characters of [b] and the first [j] of [a]. *)
Definition D (a b : string) (i j : nat) : nat :=
  lev (rev (firstn i (chars b))) (rev (firstn j (chars a))).

Definition filled (a b : string) (i j k c : nat) : Prop :=
  (k <= String.length b /\ c <= String.length a /\
   (k < i \/ (k = i /\ c < j) \/ c = 0))%nat.

Definition table_inv (a b : string) (i j : nat) (M : matrix) : Prop :=
  (forall k, (k <= String.length b)%nat -> JSArray.get M k <> None) /\
  (forall k c, filled a b i j k c -> cell M k c = Some (D a b k c)).

Definition alias_rows (db : Store) (userId rawName : string) : list MerchantAlias :=
  filter (alias_matches userId rawName) (merchant_aliases db).

(** [UNIQUE(user_id, raw_name)] on [merchant_aliases]. *)
Definition aliases_unique (db : Store) : Prop :=
  forall userId rawName, (length (alias_rows db userId rawName) <= 1)%nat.

End MerchantNormalizer.

(** ** src/lib/services/csv-parser.ts *)

Module CsvParser.
Import JS Str.

Record ParsedTransaction : Type := {
  date : string;
  description : string;
  amount : JS.number;
  rawLine : string
}.

Record CSVParseResult : Type := {
  transactions : list ParsedTransaction;
  errors : list string;
  skipped : nat
}.

Definition is_nil {A} (l : list A) : bool :=
  match l with
  | [] => true
  | _ :: _ => false
  end.

(** [\d{lo,hi}] for a whole piece. *)
Definition digits_between (lo hi : nat) (piece : list ascii) : bool :=
  forallb is_digit piece && (lo <=? length piece)%nat && (length piece <=? hi)%nat.

(** [^\d{l1,h1}S\d{l2,h2}S\d{l3,h3}$] for the separator [S] of code [sep];
    the three pieces when the string has that shape. *)
Definition date_pieces (sep l1 h1 l2 h2 l3 h3 : nat) (cs : list ascii)
    : option (list ascii * list ascii * list ascii) :=
  match split_on (is_char sep) cs with
  | [p1; p2; p3] =>
      if digits_between l1 h1 p1 && digits_between l2 h2 p2 && digits_between l3 h3 p3
      then Some (p1, p2, p3)
      else None
  | _ => None
  end.

Definition date_shape (sep l1 h1 l2 h2 l3 h3 : nat) (cs : list ascii) : bool :=
  match date_pieces sep l1 h1 l2 h2 l3 h3 cs with
  | Some _ => true
  | None => false
  end.

Definition slash : nat := 47.
Definition hyphen : nat := 45.

(** The class of the double and the single quote. *)
Definition is_quote (c : ascii) : bool := is_char 34 c || is_char 39 c.

Definition iso_date (year month day : list ascii) : string :=
  of_chars (year ++ [ascii_of_nat hyphen] ++ padStart2 month ++
            [ascii_of_nat hyphen] ++ padStart2 day).

(** [s.slice(1, -1)] *)
Definition slice_1_m1 (cs : list ascii) : list ascii := removelast (tl cs).

Definition first_is (n : nat) (cs : list ascii) : bool :=
  match cs with
  | c :: _ => is_char n c
  | [] => false
  end.

Definition last_is (n : nat) (cs : list ascii) : bool := first_is n (rev cs).

Definition pow10 (k : nat) : Q := inject_Z (10 ^ Z.of_nat k).

(** An optional sign: whether it is a minus, and what follows it. *)
Definition take_sign (cs : list ascii) : bool * list ascii :=
  match cs with
  | c :: rest =>
      if is_char 45 c then (true, rest)
      else if is_char 43 c then (false, rest)
      else (false, cs)
  | [] => (false, cs)
  end.

(** [e] or [E], an optional sign and digits, when [cs] starts with one. *)
Definition exponent_part (cs : list ascii) : option (bool * nat) :=
  match cs with
  | e :: rest =>
      if is_char 101 e || is_char 69 e then
        let '(negative, rest') := take_sign rest in
        let ds := takeWhile is_digit rest' in
        if is_nil ds then None else Some (negative, digits_value ds)
      else None
  | [] => None
  end.

(** [parseFloat]: the value of the longest prefix that is a decimal literal
    (sign, [Infinity] or digits with an optional fraction and exponent), NaN
    when there is none; a literal beyond the range of a double is an
    infinity, and one below it is 0. *)
Definition parseFloat (cs : list ascii) : JS.number :=
  let '(negative, body) := take_sign (dropWhile is_space cs) in
  if starts_with (chars "Infinity") body then
    if negative then NegInfinity else PosInfinity
  else
    let intPart := takeWhile is_digit body in
    let afterInt := dropWhile is_digit body in
    let '(fracPart, afterFrac) :=
      if first_is 46 afterInt
      then (takeWhile is_digit (tl afterInt), dropWhile is_digit (tl afterInt))
      else ([], afterInt) in
    if is_nil intPart && is_nil fracPart then NaN
    else
      let mantissa :=
        (JS.of_nat (digits_value (intPart ++ fracPart)) / pow10 (length fracPart))%Q in
      let value :=
        match exponent_part afterFrac with
        | Some (true, e) => (mantissa / pow10 e)%Q
        | Some (false, e) => (mantissa * pow10 e)%Q
        | None => mantissa
        end in
      JS.literal (if negative then - value else value)%Q.

Definition parseAmount (amountStr : string) : option JS.number :=
  let cleaned :=
    chars (remove is_space
             (remove (fun c => is_quote c || is_char 36 c) (trim amountStr))) in
  let isNegative := first_is 40 cleaned && last_is 41 cleaned in
  let cleaned := if isNegative then slice_1_m1 cleaned else cleaned in
  let hasNegativeSign := first_is 45 cleaned in
  let cleaned := if hasNegativeSign then tl cleaned else cleaned in
  let cleaned := filter (fun c => negb (is_char 44 c)) cleaned in
  match parseFloat cleaned with
  | NaN => None
  | amount => Some (if isNegative || hasNegativeSign then JS.neg amount else amount)
  end.

(** The loop of [splitCSVLine]: [cs] is what is left of the line from
    index [i]. *)
Fixpoint split_loop (delimiter : ascii) (cs : list ascii) (current : list ascii)
    (inQuotes : bool) (result : list string) : list string :=
  match cs with
  | [] => result ++ [of_chars (trim_chars current)]
  | char :: rest =>
      if is_char 34 char then
        match rest with
        | next :: rest' =>
            if inQuotes && is_char 34 next
            then split_loop delimiter rest' (current ++ [dquote]) inQuotes result
            else split_loop delimiter rest current (negb inQuotes) result
        | [] => split_loop delimiter rest current (negb inQuotes) result
        end
      else if Ascii.eqb char delimiter && negb inQuotes then
        split_loop delimiter rest [] inQuotes
          (result ++ [of_chars (trim_chars current)])
      else split_loop delimiter rest (current ++ [char]) inQuotes result
  end.

Definition splitCSVLine (line : string) (delimiter : ascii) : list string :=
  split_loop delimiter (chars line) [] false [].

(** [(line.match(/c/g) || []).length] *)
Definition count_char (c : ascii) (line : string) : nat :=
  length (filter (Ascii.eqb c) (chars line)).

Definition sampleLines (lines : list string) : list string := firstn 5 lines.

Definition tabCount (lines : list string) : nat :=
  fold_left (fun n line => (n + count_char tab line)%nat) (sampleLines lines) 0%nat.

Definition commaCount (lines : list string) : nat :=
  fold_left (fun n line => (n + count_char comma line)%nat) (sampleLines lines) 0%nat.

Definition detectDelimiter (lines : list string) : ascii :=
  if (commaCount lines <? tabCount lines)%nat
     && (length (sampleLines lines) <=? tabCount lines)%nat
  then tab
  else comma.

Definition looksLikeDate (value : string) : bool :=
  date_shape slash 1 2 1 2 2 4 (chars value)
  || date_shape hyphen 4 4 2 2 2 2 (chars value)
  || date_shape hyphen 1 2 1 2 2 4 (chars value).

(** [/^-?\d+\.?\d*$/] on the value without [$], commas, quotes and spaces. *)
Definition looksLikeAmount (value : string) : bool :=
  let cleaned :=
    chars (remove (fun c => is_char 36 c || is_char 44 c || is_char 34 c || is_space c)
                  value) in
  let unsigned := if first_is 45 cleaned then tl cleaned else cleaned in
  let afterInt := dropWhile is_digit unsigned in
  negb (is_nil (takeWhile is_digit unsigned))
  && forallb is_digit (if first_is 46 afterInt then tl afterInt else afterInt).

Record ColumnMapping : Type := {
  dateIndex : Z;
  descriptionIndex : Z;
  amountIndex : Z;
  debitIndex : option Z;
  creditIndex : option Z
}.

(** [s.replace(/\s+/g, ' ')]: [inRun] says that the character before was a
    space of the run already replaced. *)
Fixpoint collapse_spaces (inRun : bool) (cs : list ascii) : list ascii :=
  match cs with
  | [] => []
  | c :: rest =>
      if is_space c then
        if inRun then collapse_spaces true rest
        else ascii_of_nat 32 :: collapse_spaces true rest
      else c :: collapse_spaces false rest
  end.

(** The header as [detectColumns] compares it: lowercased, without quotes
    and full stops, runs of spaces collapsed, trimmed. *)
Definition lowerHeader (h : string) : string :=
  trim (of_chars (collapse_spaces false
    (chars (remove (fun c => is_quote c || is_char 46 c) (toLowerCase h))))).

(** The five indices of [detectColumns], each -1 until found. *)
Record Indices : Type := {
  i_date : Z;
  i_description : Z;
  i_amount : Z;
  i_debit : Z;
  i_credit : Z
}.

Definition is_unset (i : Z) : bool := (i =? -1)%Z.

(** One turn of [for (let i = 0; i < lowerHeaders.length; i++)]. *)
Definition header_step (h : string) (i : Z) (ix : Indices) : Indices :=
  let dateIndex :=
    if is_unset (i_date ix)
       && (includes h "date" || String.eqb h "posted" || includes h "trans")
    then i else i_date ix in
  let descriptionIndex :=
    if is_unset (i_description ix)
       && (includes h "description" || includes h "descrip"
           || includes h "merchant" || includes h "payee"
           || String.eqb h "name" || String.eqb h "memo"
           || includes h "narrative" || includes h "details")
    then i else i_description ix in
  let amountIndex :=
    if is_unset (i_amount ix)
       && (String.eqb h "amount" || includes h "amount"
           || String.eqb h "value" || String.eqb h "sum")
    then i else i_amount ix in
  let debitIndex :=
    if String.eqb h "debit" || String.eqb h "withdrawal" || includes h "debit"
    then i else i_debit ix in
  let creditIndex :=
    if String.eqb h "credit" || String.eqb h "deposit" || includes h "credit"
    then i else i_credit ix in
  {| i_date := dateIndex; i_description := descriptionIndex;
     i_amount := amountIndex; i_debit := debitIndex; i_credit := creditIndex |}.

Fixpoint header_loop (hs : list string) (i : Z) (ix : Indices) : Indices :=
  match hs with
  | [] => ix
  | h :: rest => header_loop rest (i + 1)%Z (header_step h i ix)
  end.

Definition detectColumns (headers : list string) : option ColumnMapping :=
  let lowerHeaders := map lowerHeader headers in
  let ix :=
    header_loop lowerHeaders 0%Z
      {| i_date := -1; i_description := -1; i_amount := -1;
         i_debit := -1; i_credit := -1 |} in
  let positional := is_unset (i_date ix) && (3 <=? length headers)%nat in
  let dateIndex := if positional then 0%Z else i_date ix in
  let descriptionIndex := if positional then 1%Z else i_description ix in
  let amountIndex := if positional then 2%Z else i_amount ix in
  if is_unset dateIndex || is_unset descriptionIndex then None
  else
    let amountIndex :=
      if is_unset amountIndex && (is_unset (i_debit ix) || is_unset (i_credit ix))
      then (Z.of_nat (length headers) - 1)%Z
      else amountIndex in
    Some {| dateIndex := dateIndex;
            descriptionIndex := descriptionIndex;
            amountIndex := amountIndex;
            debitIndex := if (0 <=? i_debit ix)%Z then Some (i_debit ix) else None;
            creditIndex := if (0 <=? i_credit ix)%Z then Some (i_credit ix) else None |}.

(** One turn of the loop of [detectColumnsFromData]; [ix] holds the date,
    description and amount indices. *)
Definition data_step (field : string) (i : Z) (ix : Z * Z * Z) : Z * Z * Z :=
  let '(dateIndex, descriptionIndex, amountIndex) := ix in
  if is_unset dateIndex && looksLikeDate field
  then (i, descriptionIndex, amountIndex)
  else if is_unset amountIndex && looksLikeAmount field
  then (dateIndex, descriptionIndex, i)
  else if is_unset descriptionIndex && (2 <? String.length field)%nat
          && negb (looksLikeDate field) && negb (looksLikeAmount field)
  then (dateIndex, i, amountIndex)
  else ix.

Fixpoint data_loop (fields : list string) (i : Z) (ix : Z * Z * Z) : Z * Z * Z :=
  match fields with
  | [] => ix
  | field :: rest => data_loop rest (i + 1)%Z (data_step field i ix)
  end.

Definition detectColumnsFromData (fields : list string) : option ColumnMapping :=
  let '(dateIndex, descriptionIndex, amountIndex) :=
    data_loop fields 0%Z (-1, -1, -1)%Z in
  if is_unset dateIndex || is_unset descriptionIndex || is_unset amountIndex
  then None
  else Some {| dateIndex := dateIndex; descriptionIndex := descriptionIndex;
               amountIndex := amountIndex; debitIndex := None; creditIndex := None |}.

(** [fields[index]]: [undefined] for an index that is negative or past the
    end. *)
Definition field_at (fields : list string) (index : Z) : option string :=
  if (index <? 0)%Z then None else nth_error fields (Z.to_nat index).

(** [value || fallback]: [undefined] and the empty string are falsy. *)
Definition or_else (value : option string) (fallback : string) : string :=
  match value with
  | Some v => if is_empty v then fallback else v
  | None => fallback
  end.

(** [csvContent.split(/\r?\n/)]: cut at each line feed, and drop a carriage
    return that stands just before one. *)
Fixpoint strip_cr (pieces : list (list ascii)) : list (list ascii) :=
  match pieces with
  | piece :: ((_ :: _) as rest) =>
      (if last_is 13 piece then removelast piece else piece) :: strip_cr rest
  | _ => pieces
  end.

Definition split_lines (csvContent : string) : list string :=
  map of_chars (strip_cr (split_on (is_char 10) (chars csvContent))).

Section ParseCSV.

(** The [Date] constructor, which the file leaves to the engine: the ISO
    calendar date of [new Date(s)] when [s] parses there, and the time value
    the final sort compares. *)
Variable Date_iso : string -> option string.
Variable Date_time : string -> Z.

Definition parseDate (dateStr : string) : option string :=
  let cleaned := remove is_quote (trim dateStr) in
  let cs := chars cleaned in
  if date_shape hyphen 4 4 2 2 2 2 cs then Some cleaned
  else
    match date_pieces slash 1 2 1 2 4 4 cs with
    | Some (month, day, year) => Some (iso_date year month day)
    | None =>
        match date_pieces slash 1 2 1 2 2 2 cs with
        | Some (month, day, shortYear) =>
            let century :=
              if (50 <? digits_value shortYear)%nat then chars "19" else chars "20" in
            Some (iso_date (century ++ shortYear) month day)
        | None => Date_iso cleaned
        end
    end.

(** The [amount] of a row: from the debit and credit columns when the mapping
    has both, from the amount column otherwise; [None] is [null]. *)
Definition row_amount (mapping : ColumnMapping) (fields : list string)
    : option JS.number :=
  match debitIndex mapping, creditIndex mapping with
  | Some debitIdx, Some creditIdx =>
      let debit := parseAmount (or_else (field_at fields debitIdx) "0") in
      let credit := parseAmount (or_else (field_at fields creditIdx) "0") in
      match debit, credit with
      | Some d, _ =>
          if JS.gt0 d then Some d
          else match credit with
               | Some c => if JS.gt0 c then Some (JS.neg c) else Some (Fin 0)
               | None => Some (Fin 0)
               end
      | None, Some c => if JS.gt0 c then Some (JS.neg c) else Some (Fin 0)
      | None, None => Some (Fin 0)
      end
  | _, _ => parseAmount (or_else (field_at fields (amountIndex mapping)) "")
  end.

Definition skip (st : CSVParseResult) : CSVParseResult :=
  {| transactions := transactions st; errors := errors st;
     skipped := S (skipped st) |}.

Definition skip_with_error (message : string) (st : CSVParseResult) : CSVParseResult :=
  {| transactions := transactions st; errors := errors st ++ [message];
     skipped := S (skipped st) |}.

Definition push (t : ParsedTransaction) (st : CSVParseResult) : CSVParseResult :=
  {| transactions := transactions st ++ [t]; errors := errors st;
     skipped := skipped st |}.

Definition invalid_date_message (i : nat) (dateStr : option string) : string :=
  ("Row " ++ nat_to_string (i + 1) ++ ": Invalid date " ++ String dquote
     (match dateStr with Some v => v | None => "undefined" end ++
      String dquote EmptyString))%string.

Definition invalid_amount_message (i : nat) : string :=
  ("Row " ++ nat_to_string (i + 1) ++ ": Invalid amount")%string.

(** [parseDate(dateStr || '')] and the cleaned description of a row. *)
Definition row_date (mapping : ColumnMapping) (fields : list string) : option string :=
  parseDate (or_else (field_at fields (dateIndex mapping)) "").

Definition row_description (mapping : ColumnMapping) (fields : list string) : string :=
  trim (remove is_quote (or_else (field_at fields (descriptionIndex mapping)) "")).

(** The body of [for (let i = dataStartIndex; i < lines.length; i++)]. *)
Definition process_row (mapping : ColumnMapping) (delimiter : ascii)
    (i : nat) (rawRow : string) (st : CSVParseResult) : CSVParseResult :=
  let line := trim rawRow in
  if is_empty line then st
  else
    let fields := splitCSVLine line delimiter in
    let dateStr := field_at fields (dateIndex mapping) in
    match row_date mapping fields with
    | None => skip_with_error (invalid_date_message i dateStr) st
    | Some date =>
        if is_empty date then skip_with_error (invalid_date_message i dateStr) st
        else
          let description := row_description mapping fields in
          if is_empty description then skip st
          else
            match row_amount mapping fields with
            | None => skip_with_error (invalid_amount_message i) st
            | Some amount =>
                if JS.is_zero amount then skip st
                else
                  push {| date := date; description := description;
                          amount := JS.abs amount; rawLine := line |} st
            end
    end.

Fixpoint row_loop (mapping : ColumnMapping) (delimiter : ascii)
    (i : nat) (rows : list string) (st : CSVParseResult) : CSVParseResult :=
  match rows with
  | [] => st
  | row :: rest =>
      row_loop mapping delimiter (S i) rest (process_row mapping delimiter i row st)
  end.

Definition parseCSV (csvContent : string) : CSVParseResult :=
  let lines := filter (fun line => negb (is_empty (trim line))) (split_lines csvContent) in
  match lines with
  | [] => {| transactions := []; errors := ["CSV file is empty"%string]; skipped := 0 |}
  | firstLine :: _ =>
      let delimiter := detectDelimiter lines in
      let firstLineFields := splitCSVLine firstLine delimiter in
      let firstLineIsData :=
        existsb looksLikeDate firstLineFields
        && existsb looksLikeAmount firstLineFields in
      let mapping :=
        if firstLineIsData then detectColumnsFromData firstLineFields
        else detectColumns firstLineFields in
      let dataStartIndex := if firstLineIsData then 0%nat else 1%nat in
      match mapping with
      | None =>
          {| transactions := [];
             errors := ["Could not detect required columns. Please ensure your file has Date, Description, and Amount columns."%string];
             skipped := 0 |}
      | Some mapping =>
          let st :=
            row_loop mapping delimiter dataStartIndex (skipn dataStartIndex lines)
              {| transactions := []; errors := []; skipped := 0 |} in
          {| transactions :=
               sort_by (fun t => Date_time (date t)) (transactions st);
             errors := errors st;
             skipped := skipped st |}
      end
  end.

End ParseCSV.

(** *** Vocabulary of the statements *)

(** [n > 0] as a proposition. *)
Definition positive (n : JS.number) : Prop :=
  match n with
  | Fin q => (0 < q)%Q
  | PosInfinity => True
  | NegInfinity | NaN => False
  end.


Definition line_feed : string := String (ascii_of_nat 10) EmptyString.

(** A file with the header [Date,Description,Amount] and one data row whose
    amount field is [amountStr]. *)
Definition one_row_csv (amountStr : string) : string :=
  ("Date,Description,Amount" ++ line_feed ++ "01/15/2024,Netflix," ++ amountStr)%string.


End CsvParser.

(** ** Invariants of the merchant tables *)

Module MerchantStore.
Import JS Str MerchantNormalizer.

(** [UNIQUE(user_id, name)] on [merchants]. *)
Definition names_unique (db : Store) : Prop :=
  forall userId name,
    (length (filter (merchant_named userId name) (merchants db)) <= 1)%nat.

(** The merchant row of id [merchantId] belongs to [userId]. *)
Definition owned_by (db : Store) (userId merchantId : string) : Prop :=
  exists m, In m (merchants db) /\ m_id m = merchantId /\ m_user_id m = userId.

(** Every alias row points to a merchant row of the same user. *)
Definition aliases_resolve (db : Store) : Prop :=
  forall al, In al (merchant_aliases db) ->
    owned_by db (a_user_id al) (a_merchant_id al).

Record store_ok (db : Store) : Prop := {
  store_aliases_unique : aliases_unique db;
  store_names_unique : names_unique db;
  store_aliases_resolve : aliases_resolve db
}.

(** The rows that [findOrCreateMerchant] writes. *)
Definition new_merchant (merchantId userId name rawName : string) : Merchant :=
  {| m_id := merchantId; m_user_id := userId; m_name := name;
     m_raw_names := [rawName] |}.

Definition new_alias (merchantId rawName userId : string) : MerchantAlias :=
  {| a_merchant_id := merchantId; a_raw_name := rawName; a_user_id := userId |}.

End MerchantStore.

(** ** Shapes of CSV fields and invariants of the column loops *)

Module CsvShapes.
Import JS Str CsvParser.

(** The characters of a date in ISO form: digits and hyphens. *)
Definition plain (c : ascii) : bool := is_digit c || is_char hyphen c.

(** The characters [parseAmount] keeps before it looks at the sign. *)
Definition kept (c : ascii) : bool :=
  negb (is_space c) && negb (is_quote c || is_char 36 c).

(** The characters of a plain decimal amount: digits, minus and point. *)
Definition amount_char (c : ascii) : bool :=
  is_digit c || is_char 45 c || is_char 46 c.

(** An unsigned decimal: digits, then nothing or a point and digits. *)
Definition unsigned_decimal (cs : list ascii) : bool :=
  let afterInt := dropWhile is_digit cs in
  negb (is_nil (takeWhile is_digit cs))
  && forallb is_digit (if first_is 46 afterInt then tl afterInt else afterInt).

(** A field as [splitCSVLine] pushes it: [current.trim()]. *)
Definition field_of (piece : list ascii) : string := of_chars (trim_chars piece).

(** The rows a parse state has settled: kept or skipped. *)
Definition accounted (st : CSVParseResult) : nat :=
  (length (transactions st) + skipped st)%nat.

(** An index is still -1, or it is the place of a field with [P]. *)
Definition set_to (P : string -> Prop) (fields : list string) (i : Z) : Prop :=
  i = (-1)%Z \/ exists f, field_at fields i = Some f /\ P f.

Definition is_date_field (f : string) : Prop := looksLikeDate f = true.

Definition is_amount_field (f : string) : Prop := looksLikeAmount f = true.

Definition is_description_field (f : string) : Prop :=
  (2 < String.length f)%nat /\ looksLikeDate f = false /\ looksLikeAmount f = false.

(** What the loop of [detectColumnsFromData] keeps true after the fields
    [seen]. *)
Definition data_inv (seen : list string) (ix : Z * Z * Z) : Prop :=
  let '(d, s, a) := ix in
  set_to is_date_field seen d /\
  set_to is_description_field seen s /\
  set_to is_amount_field seen a /\
  (d <> (-1)%Z -> d <> s /\ d <> a) /\ (s <> (-1)%Z -> s <> a).

Definition unset_or_below (n : Z) (i : Z) : Prop := i = (-1)%Z \/ (0 <= i < n)%Z.

(** What the loop of [detectColumns] keeps true after [n] headers. *)
Definition header_inv (n : Z) (ix : Indices) : Prop :=
  unset_or_below n (i_date ix) /\ unset_or_below n (i_description ix) /\
  unset_or_below n (i_amount ix) /\ unset_or_below n (i_debit ix) /\
  unset_or_below n (i_credit ix).

End CsvShapes.

(** ** The Plaid sync route (app/api/plaid/sync) *)

Module TransactionSync.
Import JS Str MerchantNormalizer MerchantStore.

(** The fields of a Plaid transaction that the route reads. *)
Record PlaidTransaction : Type := {
  transaction_id : string;
  p_amount : Q;
  p_date : Z;
  p_name : string;
  p_merchant_name : option string;
  p_pending : bool
}.

(** A row of [public.transactions], with the columns the route writes but
    for [category]; an amount is kept as given, without the rounding of the
    [DECIMAL(12, 2)] column.  The columns [created_at] and [updated_at],
    which the route never writes (a default and the trigger
    [update_transactions_updated_at] set them), are not part of it. *)
Record TransactionRow : Type := {
  row_id : string;
  row_user_id : string;
  row_account_id : string;
  row_merchant_id : option string;
  row_plaid_transaction_id : string;
  row_amount : Q;
  row_date : Z;
  row_name : string;
  row_merchant_name : option string;
  row_pending : bool
}.

Record Db : Type := {
  db_store : Store;
  db_transactions : list TransactionRow
}.

(** The conflict target [user_id, plaid_transaction_id]. *)
Definition same_key (userId plaidId : string) (r : TransactionRow) : bool :=
  String.eqb (row_user_id r) userId && String.eqb (row_plaid_transaction_id r) plaidId.

(** [upsert(values, { onConflict: 'user_id,plaid_transaction_id' })]: a row
    of the same key takes the new values and keeps its [id]; without one the
    values are inserted under a new [id]. *)
Definition upsert_row (rows : list TransactionRow) (newId : string)
    (values : string -> TransactionRow) (userId plaidId : string)
    : list TransactionRow :=
  if existsb (same_key userId plaidId) rows then
    map (fun r => if same_key userId plaidId r then values (row_id r) else r) rows
  else rows ++ [values newId].

(** [tx.merchant_name || tx.name] *)
Definition merchantName (tx : PlaidTransaction) : string :=
  match p_merchant_name tx with
  | Some name => if is_empty name then p_name tx else name
  | None => p_name tx
  end.

Definition row_values (userId accountId : string) (merchantId : option string)
    (tx : PlaidTransaction) (rowId : string) : TransactionRow :=
  {| row_id := rowId;
     row_user_id := userId;
     row_account_id := accountId;
     row_merchant_id := merchantId;
     row_plaid_transaction_id := transaction_id tx;
     row_amount := p_amount tx;
     row_date := p_date tx;
     row_name := p_name tx;
     row_merchant_name := p_merchant_name tx;
     row_pending := p_pending tx |}.

(** One response of [plaidClient.transactionsSync]; a removed transaction
    may come without an id. *)
Record SyncPage : Type := {
  added : list PlaidTransaction;
  modified : list PlaidTransaction;
  removed : list (option string);
  next_cursor : option string
}.

Record SyncResult : Type := {
  n_added : nat;
  n_modified : nat;
  n_removed : nat;
  cursor : option string
}.

Section Sync.

(** What [findOrCreateMerchant] leaves open, and the [id] that a new
    transaction row gets. *)
Variable normalizeMerchantName : string -> string.
Variable new_uuid : Store -> string.
Variable raw_names_update : list string -> string -> list string.
Variable new_row_id : list TransactionRow -> string.

Definition upsertTransaction (db : Db) (userId accountId : string)
    (tx : PlaidTransaction) : Db :=
  if Qleb (p_amount tx) 0 then db
  else
    let '(store1, settled) :=
      findOrCreateMerchant normalizeMerchantName new_uuid raw_names_update
        (db_store db) userId (merchantName tx) in
    let merchantId :=
      match settled with
      | Returned merchantId => Some merchantId
      | Thrown _ => None
      end in
    {| db_store := store1;
       db_transactions :=
         upsert_row (db_transactions db) (new_row_id (db_transactions db))
           (row_values userId accountId merchantId tx)
           userId (transaction_id tx) |}.

Definition removeTransaction (db : Db) (userId : string)
    (transactionId : option string) : Db :=
  match transactionId with
  | None => db
  | Some plaidId =>
      if is_empty plaidId then db
      else
        {| db_store := db_store db;
           db_transactions :=
             filter (fun r => negb (same_key userId plaidId r)) (db_transactions db) |}
  end.

(** The body of [while (hasMore)] for one response. *)
Definition sync_page (userId accountId : string) (st : Db * SyncResult)
    (page : SyncPage) : Db * SyncResult :=
  let '(db, counts) := st in
  let db1 := fold_left (fun db tx => upsertTransaction db userId accountId tx)
                       (added page) db in
  let db2 := fold_left (fun db tx => upsertTransaction db userId accountId tx)
                       (modified page) db1 in
  let db3 := fold_left (fun db tx => removeTransaction db userId tx)
                       (removed page) db2 in
  (db3,
   {| n_added := n_added counts + length (added page);
      n_modified := n_modified counts + length (modified page);
      n_removed := n_removed counts + length (removed page);
      cursor := next_cursor page |}).

(** [syncAccountTransactions] on the responses of the Plaid client: [first]
    and then [more], every one but the last with [has_more] set. *)
Definition syncAccountTransactions (db : Db) (userId accountId : string)
    (cursor0 : option string) (first : SyncPage) (more : list SyncPage)
    : Db * SyncResult :=
  fold_left (sync_page userId accountId) (first :: more)
    (db, {| n_added := 0; n_modified := 0; n_removed := 0; cursor := cursor0 |}).

End Sync.

(** *** Vocabulary of the statements *)

(** Every stored amount is a charge. *)
Definition amounts_positive (db : Db) : Prop :=
  Forall (fun r => (0 < row_amount r)%Q) (db_transactions db).

(** [UNIQUE(user_id, plaid_transaction_id)] on [transactions]. *)
Definition keys_unique (db : Db) : Prop :=
  forall userId plaidId,
    (length (filter (same_key userId plaidId) (db_transactions db)) <= 1)%nat.

(** Every row with a merchant points to a merchant row of the same user. *)
Definition merchants_resolve (db : Db) : Prop :=
  forall r merchantId,
    In r (db_transactions db) -> row_merchant_id r = Some merchantId ->
    owned_by (db_store db) (row_user_id r) merchantId.

Record db_ok (db : Db) : Prop := {
  db_ok_store : store_ok (db_store db);
  db_ok_amounts : amounts_positive db;
  db_ok_keys : keys_unique db;
  db_ok_merchants : merchants_resolve db
}.

End TransactionSync.

(** * Proofs *)

(** ** Sorting and rational arithmetic *)

Module JSFacts.
Import JS.

Section Sorting.
Context {A : Type} (key : A -> Z).

Lemma insert_by_perm (x : A) (l : list A) :
  Permutation (insert_by key x l) (x :: l).
Proof.
  induction l as [|y l IH]; simpl; [reflexivity|].
  destruct (key x <=? key y)%Z; [reflexivity|].
  rewrite IH. apply perm_swap.
Qed.

Lemma sort_by_perm (l : list A) : Permutation (sort_by key l) l.
Proof.
  induction l as [|x l IH]; simpl; [constructor|].
  rewrite insert_by_perm. now constructor.
Qed.

Lemma sort_by_length (l : list A) : length (sort_by key l) = length l.
Proof. apply Permutation_length, sort_by_perm. Qed.

Lemma insert_by_sorted (x : A) (l : list A) :
  StronglySorted (key_le key) l -> StronglySorted (key_le key) (insert_by key x l).
Proof.
  induction 1 as [|y l Hs IH Hall]; simpl.
  - repeat constructor.
  - destruct (Z.leb_spec (key x) (key y)) as [Hle|Hgt].
    + constructor; [now constructor|].
      constructor; [exact Hle|].
      eapply Forall_impl; [|exact Hall].
      unfold key_le; intros; lia.
    + constructor; [exact IH|].
      eapply Permutation_Forall; [symmetry; apply insert_by_perm|].
      constructor; [unfold key_le; lia | exact Hall].
Qed.

Lemma sort_by_sorted (l : list A) : StronglySorted (key_le key) (sort_by key l).
Proof.
  induction l as [|x l IH]; simpl; [constructor|].
  now apply insert_by_sorted.
Qed.

(** A list already in key order is left as it is: the sort is stable. *)
Lemma sort_by_id (l : list A) : StronglySorted (key_le key) l -> sort_by key l = l.
Proof.
  induction 1 as [|x l Hs IH Hall]; simpl; [reflexivity|].
  rewrite IH. destruct l as [|y l]; simpl; [reflexivity|].
  inversion Hall as [|? ? Hxy _]; subst.
  destruct (Z.leb_spec (key x) (key y)); [reflexivity | unfold key_le in Hxy; lia].
Qed.

Lemma sorted_hd_le_last (l : list A) (d : A) :
  StronglySorted (key_le key) l -> (key (hd d l) <= key (last l d))%Z.
Proof.
  intros Hs. destruct l as [|x l]; simpl hd; [simpl; lia|].
  inversion Hs as [|? ? _ Hall]; subst.
  destruct (exists_last (l := x :: l)) as [l' [z Hz]]; [discriminate|].
  rewrite Hz, last_last.
  destruct l' as [|x' l'']; simpl in Hz; inversion Hz; subst; [lia|].
  rewrite Forall_forall in Hall. apply Hall.
  apply in_or_app; right; now left.
Qed.

End Sorting.

Lemma Qleb_true (x y : Q) : Qleb x y = true <-> (x <= y)%Q.
Proof. apply Qle_bool_iff. Qed.

Lemma Qleb_false (x y : Q) : Qleb x y = false <-> (y < x)%Q.
Proof.
  unfold Qleb. split; intros H.
  - apply Qnot_le_lt. intros Hle. apply Qle_bool_iff in Hle. congruence.
  - destruct (Qle_bool x y) eqn:E; [|reflexivity].
    apply Qle_bool_iff in E. exfalso. eapply Qlt_not_le; eauto.
Qed.

Lemma Qltb_true (x y : Q) : Qltb x y = true <-> (x < y)%Q.
Proof.
  unfold Qltb. rewrite negb_true_iff. apply (Qleb_false y x).
Qed.

Lemma Qltb_false (x y : Q) : Qltb x y = false <-> (y <= x)%Q.
Proof.
  unfold Qltb. rewrite negb_false_iff. apply (Qleb_true y x).
Qed.

Lemma of_nat_nonneg (n : nat) : (0 <= of_nat n)%Q.
Proof. unfold of_nat, Qle; simpl. lia. Qed.

Lemma of_nat_pos (n : nat) : (0 < n)%nat -> (0 < of_nat n)%Q.
Proof. unfold of_nat, Qlt; simpl. lia. Qed.

Lemma ratio_nonneg (m n : nat) : (0 <= of_nat m / of_nat n)%Q.
Proof.
  destruct n as [|n].
  - unfold Qdiv, Qinv, of_nat; simpl. rewrite Qmult_0_r. apply Qle_refl.
  - apply Qle_shift_div_l; [apply of_nat_pos; lia|].
    rewrite Qmult_0_l. apply of_nat_nonneg.
Qed.

Lemma ratio_le_1 (m n : nat) : (m <= n)%nat -> (of_nat m / of_nat n <= 1)%Q.
Proof.
  intros Hmn. destruct n as [|n].
  - unfold Qdiv, Qinv, of_nat; simpl. rewrite Qmult_0_r. discriminate.
  - apply Qle_shift_div_r; [apply of_nat_pos; lia|].
    rewrite Qmult_1_l. unfold of_nat, Qle; simpl. lia.
Qed.

End JSFacts.

(** ** Recurring-charge detection *)

Module RecurringDetectorFacts.
Import JS JSFacts RecurringDetector.

Lemma detectRecurringCharges_flat_map (txs : list Transaction) :
  detectRecurringCharges txs =
  flat_map (fun kg => detect_group (fst kg) (snd kg)) (groupByMerchant txs).
Proof.
  unfold detectRecurringCharges.
  rewrite <- (app_nil_l (flat_map _ _)).
  generalize (@nil DetectedRecurring).
  induction (groupByMerchant txs) as [|[k g] l IH]; intros acc; simpl.
  - now rewrite app_nil_r.
  - now rewrite IH, app_assoc.
Qed.

Lemma detectFrequency_confidence dates freq conf :
  detectFrequency dates = Some (freq, conf) ->
  (0.5 <= conf /\ conf <= 1)%Q.
Proof.
  unfold detectFrequency.
  destruct (length dates <? MIN_TRANSACTIONS)%nat; [discriminate|].
  destruct (length _ =? 0)%nat; [discriminate|].
  destruct (fst _) as [bestMatch|]; [|discriminate].
  destruct (Qltb _ MIN_CONFIDENCE) eqn:E; [discriminate|].
  intros H; inversion H; subst; clear H.
  apply Qltb_false in E. unfold MIN_CONFIDENCE in E.
  split.
  - apply Q.min_glb; [exact E | discriminate].
  - apply Q.le_min_r.
Qed.

Lemma confidenceBoost_nonneg amounts :
  (0 <= confidenceBoost (checkAmountConsistency amounts))%Q.
Proof.
  unfold checkAmountConsistency.
  destruct (length amounts <? 2)%nat; simpl; [apply Qle_refl|].
  apply Qmult_le_0_compat; [apply ratio_nonneg | discriminate].
Qed.

Lemma detect_group_invariants k g c :
  In c (detect_group k g) ->
  (0.5 <= dr_confidence c)%Q /\ (dr_confidence c <= 1)%Q /\
  (2 <= dr_transactionCount c)%nat /\ (dr_firstDate c <= dr_lastDate c)%Z.
Proof.
  unfold detect_group.
  destruct (length (transactions g) <? MIN_TRANSACTIONS)%nat eqn:Hlen; [intros []|].
  destruct (detectFrequency (dates g)) as [[freq conf]|] eqn:Hf; [|intros []].
  destruct (negb _); [intros []|].
  intros [<-|[]]; simpl.
  apply detectFrequency_confidence in Hf. destruct Hf as [Hlo Hhi].
  pose proof (confidenceBoost_nonneg (amounts g)) as Hb.
  apply Nat.ltb_ge in Hlen. unfold MIN_TRANSACTIONS in Hlen.
  repeat split.
  - apply Q.min_glb; [|discriminate].
    apply Qle_trans with conf; [exact Hlo|].
    rewrite <- (Qplus_0_r conf) at 1. apply Qplus_le_r. exact Hb.
  - apply Q.le_min_r.
  - exact Hlen.
  - apply (sorted_hd_le_last (fun d : Z => d)), sort_by_sorted.
Qed.

(** C9: every candidate [detectRecurringCharges] emits, on every input list,
    has a confidence in the closed interval from 0.5 to 1, counts at least
    two transactions, and has a first-seen date that is not after its
    last-seen date. *)
Theorem detectRecurringCharges_invariants (txs : list Transaction) :
  Forall
    (fun c =>
       (0.5 <= dr_confidence c)%Q /\ (dr_confidence c <= 1)%Q /\
       (2 <= dr_transactionCount c)%nat /\ (dr_firstDate c <= dr_lastDate c)%Z)
    (detectRecurringCharges txs).
Proof.
  rewrite detectRecurringCharges_flat_map.
  apply Forall_forall. intros c Hc.
  apply in_flat_map in Hc. destruct Hc as [[k g] [_ Hc]].
  now apply detect_group_invariants in Hc.
Qed.

Lemma group_add_keys m t acc k :
  In k (map fst (group_add m t acc)) <-> In k (map fst acc) \/ k = m.
Proof.
  induction acc as [|[k0 g0] acc IH]; simpl.
  - intuition congruence.
  - destruct (String.eqb_spec k0 m) as [->|Hne]; simpl.
    + intuition congruence.
    + rewrite IH. tauto.
Qed.

Lemma group_add_NoDup m t acc :
  NoDup (map fst acc) -> NoDup (map fst (group_add m t acc)).
Proof.
  induction acc as [|[k0 g0] acc IH]; simpl; intros Hnd.
  - repeat constructor. intros [].
  - inversion Hnd as [|? ? Hnin Hnd']; subst.
    destruct (String.eqb_spec k0 m) as [->|Hne]; simpl.
    + now constructor.
    + constructor; [|auto].
      rewrite group_add_keys. intros [H|H]; [auto | congruence].
Qed.

Lemma group_add_In m t acc k g' :
  NoDup (map fst acc) ->
  In (k, g') (group_add m t acc) ->
  (k <> m /\ In (k, g') acc) \/
  (k = m /\ exists g, In (m, g) acc /\ g' = push_group g t) \/
  (k = m /\ ~ In m (map fst acc) /\ g' = new_group m t).
Proof.
  induction acc as [|[k0 g0] acc IH]; simpl; intros Hnd Hin.
  - destruct Hin as [Hin|[]]. inversion Hin; subst. right; right. tauto.
  - inversion Hnd as [|? ? Hnin Hnd']; subst.
    destruct (String.eqb_spec k0 m) as [->|Hne]; simpl in Hin.
    + destruct Hin as [Hin|Hin].
      * inversion Hin; subst. right; left. split; [reflexivity|].
        exists g0. split; [now left | reflexivity].
      * left. split; [|now right].
        intros ->. apply Hnin. apply (in_map fst) in Hin. exact Hin.
    + destruct Hin as [Hin|Hin].
      * inversion Hin; subst. left. split; [exact Hne | now left].
      * destruct (IH Hnd' Hin) as [[H1 H2]|[[H1 [g [H2 H3]]]|[H1 [H2 H3]]]].
        -- left. tauto.
        -- right; left. split; [exact H1|]. exists g. split; [now right | exact H3].
        -- right; right. split; [exact H1|]. split; [|exact H3].
           intros [H|H]; [congruence | auto].
Qed.

Lemma merchant_group_snoc txs t m :
  merchant_group (txs ++ [t]) m =
  merchant_group txs m ++ (if of_merchant m t then [t] else []).
Proof. unfold merchant_group. now rewrite filter_app. Qed.

Lemma group_step_inv txs acc t :
  groups_inv txs acc -> groups_inv (txs ++ [t]) (group_step acc t).
Proof.
  intros (Hnd & Hok & Hnone). unfold group_step.
  destruct (merchant_id t) as [m|] eqn:Hm.
  2:{ assert (Hf : forall k, of_merchant k t = false).
      { intros k. unfold of_merchant. rewrite Hm. apply andb_false_r. }
      split; [exact Hnd|]. split.
      - intros k g Hin. destruct (Hok k g Hin) as [H1 H2 H3 H4].
        constructor; auto. now rewrite merchant_group_snoc, Hf, app_nil_r.
      - intros k Hk. rewrite merchant_group_snoc, Hf, app_nil_r. auto. }
  destruct (skipped t) eqn:Hsk.
  { assert (Hf : forall k, of_merchant k t = false).
    { intros k. unfold of_merchant. now rewrite Hsk. }
    split; [exact Hnd|]. split.
    - intros k g Hin. destruct (Hok k g Hin) as [H1 H2 H3 H4].
      constructor; auto. now rewrite merchant_group_snoc, Hf, app_nil_r.
    - intros k Hk. rewrite merchant_group_snoc, Hf, app_nil_r. auto. }
  assert (Hof : forall k, of_merchant k t = String.eqb m k).
  { intros k. unfold of_merchant. now rewrite Hsk, Hm. }
  split; [now apply group_add_NoDup|]. split.
  - intros k g' Hin.
    destruct (group_add_In m t acc k g' Hnd Hin)
      as [[H1 H2]|[[-> [g [H2 ->]]]|[-> [H2 ->]]]].
    + destruct (Hok k g' H2) as [E1 E2 E3 E4]. constructor; auto.
      rewrite merchant_group_snoc, Hof.
      destruct (String.eqb_spec m k); [congruence | now rewrite app_nil_r].
    + destruct (Hok m g H2) as [E1 E2 E3 E4]. constructor; simpl; auto.
      * rewrite merchant_group_snoc, Hof, String.eqb_refl. now rewrite E2.
      * rewrite E3, map_app. reflexivity.
      * rewrite E4, map_app. reflexivity.
    + constructor; simpl; auto.
      rewrite merchant_group_snoc, Hof, String.eqb_refl, (Hnone m H2). reflexivity.
  - intros k Hk. rewrite group_add_keys in Hk.
    rewrite merchant_group_snoc, Hof.
    destruct (String.eqb_spec m k) as [->|Hne]; [tauto|].
    rewrite app_nil_r. apply Hnone. tauto.
Qed.

Lemma groupByMerchant_inv txs : groups_inv txs (groupByMerchant txs).
Proof.
  unfold groupByMerchant.
  assert (H : forall l pre acc, groups_inv pre acc ->
            groups_inv (pre ++ l) (fold_left group_step l acc)).
  { induction l as [|t l IH]; intros pre acc Hinv; simpl.
    - now rewrite app_nil_r.
    - replace (pre ++ t :: l) with ((pre ++ [t]) ++ l) by (now rewrite <- app_assoc).
      apply IH. now apply group_step_inv. }
  apply (H txs [] []).
  split; [constructor|]. split; [intros ? ? []|reflexivity].
Qed.

Lemma match_fold_inv intervals avg l best :
  (match fst best with
   | None => True
   | Some p => In p FREQUENCY_PATTERNS /\ avg_in_range p avg = true /\
               snd best = pattern_score p intervals
   end) ->
  incl l FREQUENCY_PATTERNS ->
  match fst (fold_left (match_step intervals avg) l best) with
  | None => True
  | Some p => In p FREQUENCY_PATTERNS /\ avg_in_range p avg = true /\
              snd (fold_left (match_step intervals avg) l best) = pattern_score p intervals
  end.
Proof.
  revert best; induction l as [|q l IH]; intros best Hb Hl; simpl; [exact Hb|].
  apply IH; [|intros x Hx; apply Hl; now right].
  unfold match_step.
  destruct (avg_in_range q avg) eqn:Hq; [|exact Hb].
  destruct (Qltb (snd best) (pattern_score q intervals)); [|exact Hb].
  simpl. split; [apply Hl; now left | auto].
Qed.

Lemma detectFrequency_Some dates freq conf :
  detectFrequency dates = Some (freq, conf) ->
  let intervals := intervals_of (sort_by (fun d => d) dates) in
  exists p, In p FREQUENCY_PATTERNS /\ frequency p = freq /\
            avg_in_range p (avg_interval intervals) = true /\
            (0.5 <= pattern_score p intervals)%Q.
Proof.
  unfold detectFrequency.
  destruct (length dates <? MIN_TRANSACTIONS)%nat; [discriminate|].
  destruct (length _ =? 0)%nat; [discriminate|].
  set (intervals := intervals_of _).
  pose proof (match_fold_inv intervals (avg_interval intervals)
                FREQUENCY_PATTERNS (None, 0%Q) I (incl_refl _)) as Hinv.
  destruct (fst _) as [p|]; [|discriminate].
  destruct Hinv as (Hin & Havg & Hscore).
  destruct (Qltb _ MIN_CONFIDENCE) eqn:E; [discriminate|].
  intros H; inversion H; subst; clear H. simpl.
  exists p. repeat split; auto.
  apply Qltb_false in E. now rewrite Hscore in E.
Qed.

Lemma checkAmountConsistency_consistent amounts :
  consistent (checkAmountConsistency amounts) = true ->
  (0.7 <= consistency_ratio amounts)%Q.
Proof.
  unfold checkAmountConsistency.
  destruct (length amounts <? 2)%nat; simpl; [discriminate|].
  apply Qleb_true.
Qed.

Theorem candidate_requirements (txs : list Transaction) (c : DetectedRecurring) :
  In c (detectRecurringCharges txs) ->
  let group := merchant_group txs (dr_merchantId c) in
  let intervals := intervals_of (sort_by (fun d => d) (map date group)) in
  (2 <= length group)%nat /\
  (exists p, In p FREQUENCY_PATTERNS /\
             avg_in_range p (avg_interval intervals) = true /\
             (0.5 <= pattern_score p intervals)%Q) /\
  (0.7 <= consistency_ratio (map amount group))%Q.
Proof.
  rewrite detectRecurringCharges_flat_map. intros Hc.
  apply in_flat_map in Hc. destruct Hc as [[k g] [Hin Hc]]. simpl in Hc.
  destruct (groupByMerchant_inv txs) as (_ & Hok & _).
  destruct (Hok k g Hin) as [E1 E2 E3 E4].
  unfold detect_group in Hc.
  destruct (length (transactions g) <? MIN_TRANSACTIONS)%nat eqn:Hlen; [destruct Hc|].
  destruct (detectFrequency (dates g)) as [[freq conf]|] eqn:Hf; [|destruct Hc].
  destruct (consistent _) eqn:Hcons; simpl in Hc; [|destruct Hc].
  destruct Hc as [<-|[]]. simpl.
  rewrite <- E2, <- E4, <- E3.
  apply Nat.ltb_ge in Hlen.
  split; [exact Hlen|]. split.
  - apply detectFrequency_Some in Hf. destruct Hf as (p & H1 & _ & H2 & H3).
    exists p. auto.
  - now apply checkAmountConsistency_consistent.
Qed.

Lemma div_nonpos (x y : Q) : (0 <= x)%Q -> (y < 0)%Q -> (x / y <= 0)%Q.
Proof.
  destruct x as [a b], y as [n d]. unfold Qle, Qlt, Qdiv, Qmult, Qinv; simpl.
  destruct n as [|n|n]; simpl; intros Hx Hy; try lia.
Qed.

Lemma within_tolerance_neg (avg a : Q) :
  (avg < 0)%Q -> within_tolerance avg a = true.
Proof.
  intros Hneg. unfold within_tolerance, JS.div.
  destruct (Qeq_bool avg 0) eqn:E.
  - apply Qeq_bool_iff in E. rewrite E in Hneg. discriminate.
  - cbn [JS.le]. apply Qleb_true.
    apply Qle_trans with 0%Q; [|discriminate].
    apply div_nonpos; [apply Qabs_nonneg | exact Hneg].
Qed.

Lemma within_tolerance_pos (avg a : Q) :
  (0 < avg)%Q ->
  within_tolerance avg a = true <-> (Qabs (a - avg) <= 0.15 * avg)%Q.
Proof.
  intros Hpos. unfold within_tolerance, JS.div.
  destruct (Qeq_bool avg 0) eqn:E.
  - apply Qeq_bool_iff in E. rewrite E in Hpos. discriminate.
  - cbn [JS.le]. rewrite Qleb_true. unfold AMOUNT_TOLERANCE. split; intros H.
    + apply Qmult_le_r with (z := avg) in H; [|exact Hpos].
      unfold Qdiv in H. rewrite <- Qmult_assoc, (Qmult_comm (/ avg)), Qmult_inv_r in H.
      * now rewrite Qmult_1_r in H.
      * intros Hz. rewrite Hz in Hpos. discriminate.
    + apply Qle_shift_div_r; assumption.
Qed.

Lemma within_tolerance_zero (avg a : Q) :
  (avg == 0)%Q -> within_tolerance avg a = false.
Proof.
  intros Hz. unfold within_tolerance, JS.div.
  apply Qeq_bool_iff in Hz. rewrite Hz.
  destruct (Qeq_bool (Qabs _) 0) eqn:E1; [reflexivity|].
  destruct (Qltb 0 _) eqn:E2; [reflexivity|].
  exfalso. apply Qltb_false in E2.
  apply Qeq_bool_neq in E1. apply E1.
  apply Qle_antisym; [exact E2 | apply Qabs_nonneg].
Qed.

Lemma div_of_nat_le (s : Z) (n : nat) (c : Z) :
  (inject_Z s / of_nat (S n) <= inject_Z c)%Q <-> (s <= c * Z.of_nat (S n))%Z.
Proof.
  unfold Qle, Qdiv, Qmult, Qinv, of_nat, inject_Z.
  rewrite Nat2Z.inj_succ, <- Z.add_1_r.
  replace (Z.of_nat n + 1)%Z with (Z.pos (Pos.of_succ_nat n)) by lia.
  simpl. lia.
Qed.

Lemma le_div_of_nat (s : Z) (n : nat) (c : Z) :
  (inject_Z c <= inject_Z s / of_nat (S n))%Q <-> (c * Z.of_nat (S n) <= s)%Z.
Proof.
  unfold Qle, Qdiv, Qmult, Qinv, of_nat, inject_Z.
  rewrite Nat2Z.inj_succ, <- Z.add_1_r.
  replace (Z.of_nat n + 1)%Z with (Z.pos (Pos.of_succ_nat n)) by lia.
  simpl. lia.
Qed.

Lemma avg_in_range_iff p (s : Z) (n : nat) :
  avg_in_range p (inject_Z s / of_nat (S n)) = true <->
  (minDays p * Z.of_nat (S n) <= s <= maxDays p * Z.of_nat (S n))%Z.
Proof.
  unfold avg_in_range. rewrite andb_true_iff, !Qleb_true.
  rewrite le_div_of_nat, div_of_nat_le. tauto.
Qed.


Lemma in_range_true p i :
  (minDays p <= i <= maxDays p)%Z -> in_range p i = true.
Proof. unfold in_range. intros H. apply andb_true_iff; split; apply Z.leb_le; lia. Qed.

Ltac decide_avg_in_range :=
  match goal with
  | |- context [avg_in_range ?p ?a] =>
      let E := fresh "E" in
      destruct (avg_in_range p a) eqn:E;
      [ apply avg_in_range_iff in E; cbn in E; try lia
      | apply not_true_iff_false in E; rewrite avg_in_range_iff in E; cbn in E; try lia ]
  end.

Lemma detectFrequency_monthly4 (d1 d2 d3 d4 : Z) :
  (27 <= d2 - d1 <= 35)%Z -> (27 <= d3 - d2 <= 35)%Z -> (27 <= d4 - d3 <= 35)%Z ->
  detectFrequency [d1; d2; d3; d4] = Some (monthly, 1%Q).
Proof.
  intros H1 H2 H3. unfold detectFrequency.
  rewrite sort_by_id.
  2:{ repeat constructor; unfold key_le; lia. }
  cbn [length Nat.ltb Nat.leb MIN_TRANSACTIONS intervals_of Nat.eqb fold_left].
  unfold FREQUENCY_PATTERNS, avg_interval.
  cbn [fold_left length]. unfold match_step.
  repeat decide_avg_in_range.
  unfold pattern_score. cbn [filter].
  rewrite !in_range_true by (cbn; lia).
  vm_compute. reflexivity.
Qed.

(** C1: four non-pending transactions of one merchant, of 15.99, 15.99,
    17.99 and 17.99, each 27 to 35 days after the one before, give exactly one
    candidate: monthly, with a confidence of at least 0.5, first amount 15.99,
    current amount 17.99 and a transaction count of 4. *)
Theorem monthly_price_rise_detected :
  forall (m id1 id2 id3 id4 : string) (d1 d2 d3 d4 : Z),
  m <> EmptyString ->
  (27 <= d2 - d1 <= 35)%Z -> (27 <= d3 - d2 <= 35)%Z -> (27 <= d4 - d3 <= 35)%Z ->
  exists conf,
    detectRecurringCharges
      [ {| id := id1; merchant_id := Some m; amount := 15.99; date := d1; pending := false |};
        {| id := id2; merchant_id := Some m; amount := 15.99; date := d2; pending := false |};
        {| id := id3; merchant_id := Some m; amount := 17.99; date := d3; pending := false |};
        {| id := id4; merchant_id := Some m; amount := 17.99; date := d4; pending := false |} ] =
    [ {| dr_merchantId := m; dr_frequency := monthly; dr_confidence := conf;
         dr_firstAmount := 15.99; dr_currentAmount := 17.99;
         dr_firstDate := d1; dr_lastDate := d4; dr_transactionCount := 4 |} ]
    /\ (0.5 <= conf)%Q.
Proof.
  intros m id1 id2 id3 id4 d1 d2 d3 d4 Hm H1 H2 H3.
  assert (Hs : String.eqb m EmptyString = false) by (now apply String.eqb_neq).
  unfold detectRecurringCharges, groupByMerchant.
  cbn [fold_left group_step merchant_id skipped pending].
  rewrite Hs. cbn [orb].
  repeat (cbn [group_add]; rewrite ?String.eqb_refl).
  unfold new_group, push_group.
  cbn [fold_left transactions amounts dates merchantId amount date app].
  unfold detect_group.
  cbn [transactions amounts dates length Nat.ltb Nat.leb MIN_TRANSACTIONS].
  rewrite detectFrequency_monthly4 by assumption.
  rewrite !sort_by_id by (repeat constructor; unfold key_le; cbn; lia).
  replace (checkAmountConsistency [15.99; 15.99; 17.99; 17.99])
    with {| consistent := true; confidenceBoost := (4#4) * 0.2 |} by (vm_compute; reflexivity).
  cbn [consistent confidenceBoost negb app map amount hd last].
  eexists; split; [reflexivity|].
  vm_compute. discriminate.
Qed.

Lemma monthly_price_rise_witness :
  exists conf,
    detectRecurringCharges
      [ {| id := "t1"; merchant_id := Some "netflix"%string; amount := 15.99;
           date := 19737; pending := false |};
        {| id := "t2"; merchant_id := Some "netflix"%string; amount := 15.99;
           date := 19768; pending := false |};
        {| id := "t3"; merchant_id := Some "netflix"%string; amount := 17.99;
           date := 19797; pending := false |};
        {| id := "t4"; merchant_id := Some "netflix"%string; amount := 17.99;
           date := 19828; pending := false |} ] =
    [ {| dr_merchantId := "netflix"; dr_frequency := monthly; dr_confidence := conf;
         dr_firstAmount := 15.99; dr_currentAmount := 17.99;
         dr_firstDate := 19737; dr_lastDate := 19828; dr_transactionCount := 4 |} ]
    /\ (0.5 <= conf)%Q.
Proof.
  apply (monthly_price_rise_detected "netflix" "t1" "t2" "t3" "t4"
           19737 19768 19797 19828); [discriminate | lia | lia | lia].
Defined.

Lemma within_tolerance_15_percent (avg a : Q) :
  (0 < avg)%Q -> within_tolerance avg a = within_15_percent avg a.
Proof.
  intros Hpos. apply eq_true_iff_eq.
  rewrite (within_tolerance_pos avg a Hpos).
  unfold within_15_percent. rewrite Qleb_true.
  rewrite (Qabs_pos avg) by (now apply Qlt_le_weak). reflexivity.
Qed.

Lemma consistency_ratio_share (amounts : list Q) :
  (0 < avg_amount amounts)%Q ->
  consistency_ratio amounts = share_within_15_percent amounts.
Proof.
  intros Hpos. unfold consistency_ratio, share_within_15_percent.
  f_equal. f_equal. f_equal. apply filter_ext.
  intros a. now apply within_tolerance_15_percent.
Qed.

Lemma consistency_ratio_zero_mean (amounts : list Q) :
  (avg_amount amounts == 0)%Q -> (consistency_ratio amounts == 0)%Q.
Proof.
  intros Hz. unfold consistency_ratio.
  replace (filter (within_tolerance (avg_amount amounts)) amounts) with (@nil Q).
  - unfold Qdiv. apply Qmult_0_l.
  - generalize (avg_amount amounts) Hz. clear Hz. intros avg Havg.
    induction amounts as [|a l IH]; [reflexivity|].
    cbn [filter]. now rewrite (within_tolerance_zero avg a Havg).
Qed.

(** Away from a negative mean amount the code does what C4 says: no
    candidate is emitted for a merchant whose group has fewer than 2
    non-pending transactions, or whose mean interval lies in no frequency
    bucket, or whose bucket scores below 0.5, or whose mean amount is not
    negative while fewer than 70% of its amounts are within 15% relative
    deviation of that mean. *)
Theorem no_candidate_conditions (txs : list Transaction) (m : string) :
  let group := merchant_group txs m in
  let intervals := group_intervals group in
  let amounts := map amount group in
  (length group < 2)%nat \/
  mean_in_no_bucket intervals \/
  best_score_below_half intervals \/
  ((0 <= avg_amount amounts)%Q /\ (share_within_15_percent amounts < 0.7)%Q) ->
  Forall (fun c => dr_merchantId c <> m) (detectRecurringCharges txs).
Proof.
  intros group intervals amounts Hcond.
  apply Forall_forall. intros c Hc Hm.
  destruct (candidate_requirements txs c Hc) as (Hlen & (p & Hp & Hin & Hscore) & Hratio).
  rewrite Hm in Hlen, Hin, Hscore, Hratio.
  fold group in Hlen, Hin, Hscore, Hratio.
  destruct Hcond as [H|[H|[H|[Hpos H]]]].
  - lia.
  - specialize (H p Hp). unfold intervals, group_intervals in H. congruence.
  - specialize (H p Hp Hin). eapply Qlt_not_le; eauto.
  - unfold amounts in *. apply Qle_lteq in Hpos. destruct Hpos as [Hpos|Hzero].
    + rewrite (consistency_ratio_share _ Hpos) in Hratio.
      eapply Qlt_not_le; eauto.
    + symmetry in Hzero. rewrite (consistency_ratio_zero_mean _ Hzero) in Hratio.
      revert Hratio. apply Qlt_not_le. reflexivity.
Qed.


(** The amount check divides by the signed mean: for a negative mean every
    amount passes, and the ratio the code computes is 1. *)
Example negative_mean_consistency_ratio :
  let amounts := map amount alternating_credits in
  Forall (fun a => within_15_percent (avg_amount amounts) a = false) amounts /\
  (consistency_ratio amounts == 1)%Q.
Proof. split; [repeat constructor | reflexivity]. Qed.

Lemma no_candidate_conditions_witness :
  Forall (fun c => dr_merchantId c <> "gym"%string)
         (detectRecurringCharges alternating_charges).
Proof.
  apply (no_candidate_conditions alternating_charges "gym").
  right; right; right. split; [discriminate | reflexivity].
Defined.

End RecurringDetectorFacts.

(** ** Price drift *)

Module PriceDriftFacts.
Import JS JSFacts RecurringDetector PriceDrift.


Lemma price_loop_app rc prev rest changes :
  price_loop rc prev rest changes =
  changes ++ price_loop rc prev rest [].
Proof.
  revert prev changes; induction rest as [|curr rest IH]; intros prev changes; simpl.
  - now rewrite app_nil_r.
  - destruct (significant prev curr).
    + rewrite IH, (IH curr [_]). now rewrite <- app_assoc.
    + apply IH.
Qed.

Lemma price_loop_pairs rc prev rest :
  price_loop rc prev rest [] =
  map (fun p => price_change rc (fst p) (snd p))
      (filter (fun p => significant (fst p) (snd p)) (adjacent_pairs (prev :: rest))).
Proof.
  revert prev; induction rest as [|curr rest IH]; intros prev; [reflexivity|].
  cbn [price_loop adjacent_pairs filter fst snd].
  destruct (significant prev curr).
  - rewrite price_loop_app, IH. reflexivity.
  - apply IH.
Qed.

(** Whatever the input, the events are those of the adjacent pairs of the
    filtered and sorted list that pass the significance test, in order. *)
Lemma detectPriceChanges_pairs txs rc :
  detectPriceChanges txs rc =
  map (fun p => price_change rc (fst p) (snd p))
      (filter (fun p => significant (fst p) (snd p))
              (adjacent_pairs (sortedTx txs rc))).
Proof.
  unfold detectPriceChanges.
  destruct (sortedTx txs rc) as [|prev [|curr rest]]; try reflexivity.
  cbn [length Nat.ltb Nat.leb]. apply price_loop_pairs.
Qed.


Lemma significant_positive prev curr :
  (0 < amount prev)%Q ->
  significant prev curr = true <->
  (1 < Qabs ((amount curr - amount prev) / amount prev * 100))%Q.
Proof.
  intros Hpos. unfold significant, percent_change.
  apply Qltb_true in Hpos. rewrite Hpos. apply Qltb_true.
Qed.

Lemma significant_nonpositive prev curr :
  (amount prev <= 0)%Q -> significant prev curr = false.
Proof.
  intros Hle. unfold significant, percent_change.
  apply Qltb_false in Hle. rewrite Hle. reflexivity.
Qed.

(** 15.99 to 15.99 gives no event and 15.99 to 17.99 gives one, of
    [200000 / 1599], about 12.51, percent. *)
Example detectPriceChanges_netflix :
  let rc := {| rc_id := "rc1"; rc_merchant_id := "netflix" |} in
  let t i d a := {| id := i; merchant_id := Some "netflix"%string; amount := a;
                    date := d; pending := false |} in
  detectPriceChanges
    [t "a"%string 19737%Z 15.99%Q; t "b"%string 19768%Z 15.99%Q;
     t "c"%string 19797%Z 17.99%Q] rc =
  [ {| recurringChargeId := "rc1"; pc_merchantId := "netflix";
       previousAmount := 15.99; newAmount := 17.99;
       changeAmount := 17.99 - 15.99;
       changePercent := (17.99 - 15.99) / 15.99 * 100;
       detectedAt := 19797; transactionId := "c" |} ].
Proof. reflexivity. Qed.

End PriceDriftFacts.

(** ** Price changes in IEEE doubles *)

Module PriceDriftBinary64Facts.
Import JS JSFacts RecurringDetector PriceDrift PriceDriftFacts PrimFloat.
Import PriceDriftBinary64.







(** The event of that pair, as the code computes it: the percentage is
    1.0000000000000009. *)
Example one_percent_rise_event :
  PriceDriftBinary64.detectPriceChanges one_percent_rise
    {| rc_id := "rc1"; rc_merchant_id := "netflix" |} =
  [ {| PriceDriftBinary64.recurringChargeId := "rc1";
       PriceDriftBinary64.pc_merchantId := "netflix";
       PriceDriftBinary64.previousAmount := 1%float;
       PriceDriftBinary64.newAmount := 0x1.028f5c28f5c29p+0%float;
       PriceDriftBinary64.changeAmount := 0x1.47ae147ae1480p-7%float;
       PriceDriftBinary64.changePercent := 0x1.0000000000004p+0%float;
       PriceDriftBinary64.detectedAt := 19768;
       PriceDriftBinary64.transactionId := "t2" |} ].
Proof. vm_compute. reflexivity. Qed.


(** In doubles, 15.99 to 15.99 gives no event and 15.99 to 17.99 gives
    one, of 12.507817385866154 percent. *)
Example detectPriceChanges_binary64_netflix :
  let rc := {| rc_id := "rc1"; rc_merchant_id := "netflix" |} in
  let t i d a := {| id := i; merchant_id := Some "netflix"%string; amount := a;
                    date := d; pending := false |} in
  map (fun e => (PriceDriftBinary64.transactionId e, PriceDriftBinary64.changePercent e))
    (PriceDriftBinary64.detectPriceChanges
       [t "a"%string 19737%Z 15.99%Q; t "b"%string 19768%Z 15.99%Q;
        t "c"%string 19797%Z 17.99%Q] rc) =
  [("c"%string, 0x1.90400a3f1454cp+3%float)].
Proof. vm_compute. reflexivity. Qed.

End PriceDriftBinary64Facts.


(** ** Merchant resolution *)

Module MerchantNormalizerFacts.
Import JS JSFacts Str MerchantNormalizer.
Local Open Scope nat_scope.

Lemma length_chars s : length (chars s) = String.length s.
Proof. induction s; simpl; auto. Qed.

Lemma lev_nil_r a : lev a [] = length a.
Proof. destruct a; reflexivity. Qed.

Lemma lev_cons x a y b :
  lev (x :: a) (y :: b) =
  Nat.min (S (lev a (y :: b)))
    (Nat.min (S (lev (x :: a) b)) ((if Ascii.eqb x y then 0 else 1) + lev a b)).
Proof. reflexivity. Qed.

Lemma edits_lev a b : edits a b (lev a b).
Proof.
  revert b; induction a as [|x a IHa]; intros b.
  - induction b as [|y b IHb]; simpl; [constructor|].
    now apply edits_insert.
  - induction b as [|y b IHb].
    + rewrite lev_nil_r. simpl. apply edits_delete.
      specialize (IHa []). now rewrite lev_nil_r in IHa.
    + rewrite lev_cons.
      destruct (Nat.min_spec (S (lev a (y :: b)))
                  (Nat.min (S (lev (x :: a) b))
                     ((if Ascii.eqb x y then 0 else 1) + lev a b))) as [[_ ->]|[_ ->]].
      * apply edits_delete, IHa.
      * destruct (Nat.min_spec (S (lev (x :: a) b))
                    ((if Ascii.eqb x y then 0 else 1) + lev a b)) as [[_ ->]|[_ ->]].
        -- apply edits_insert, IHb.
        -- destruct (Ascii.eqb_spec x y) as [->|_]; simpl.
           ++ apply edits_keep, IHa.
           ++ apply edits_subst, IHa.
Qed.

Lemma lev_le a b n : edits a b n -> lev a b <= n.
Proof.
  induction 1 as [|x a b n _ IH|x y a b n _ IH|x a b n _ IH|y a b n _ IH].
  - reflexivity.
  - rewrite lev_cons, Ascii.eqb_refl. cbn [Nat.add]. lia.
  - rewrite lev_cons. destruct (Ascii.eqb x y); cbn [Nat.add]; lia.
  - destruct b as [|y b].
    + rewrite lev_nil_r in *. cbn [length]. lia.
    + rewrite lev_cons. lia.
  - destruct a as [|x a].
    + cbn [lev length] in *. lia.
    + rewrite lev_cons. lia.
Qed.

Lemma edits_sym a b n : edits a b n -> edits b a n.
Proof. induction 1; now constructor. Qed.

Lemma edits_app a b n a' b' n' :
  edits a b n -> edits a' b' n' -> edits (a ++ a') (b ++ b') (n + n').
Proof. induction 1; intros H'; simpl; try (constructor; auto); auto. Qed.

Lemma edits_rev a b n : edits a b n -> edits (rev a) (rev b) n.
Proof.
  induction 1 as [|x a b n _ IH|x y a b n _ IH|x a b n _ IH|y a b n _ IH]; simpl.
  - constructor.
  - rewrite <- (Nat.add_0_r n). apply edits_app; [exact IH|]. repeat constructor.
  - rewrite <- Nat.add_1_r. apply edits_app; [exact IH|]. repeat constructor.
  - rewrite <- Nat.add_1_r, <- (app_nil_r (rev b)).
    apply edits_app; [exact IH|]. repeat constructor.
  - rewrite <- Nat.add_1_r, <- (app_nil_r (rev a)).
    apply edits_app; [exact IH|]. repeat constructor.
Qed.

Lemma lev_sym a b : lev a b = lev b a.
Proof.
  apply Nat.le_antisymm; apply lev_le, edits_sym, edits_lev.
Qed.

Lemma lev_rev a b : lev (rev a) (rev b) = lev a b.
Proof.
  apply Nat.le_antisymm.
  - apply lev_le, edits_rev, edits_lev.
  - apply lev_le. rewrite <- (rev_involutive a), <- (rev_involutive b) at 1.
    apply edits_rev, edits_lev.
Qed.

Lemma edits_drop_head x a b n :
  edits (x :: a) b n -> exists n', edits a b n' /\ n' <= S n.
Proof.
  intros H. remember (x :: a) as xa eqn:E. revert x a E.
  induction H as [|x0 a0 b n H IH|x0 y a0 b n H IH|x0 a0 b n H IH|y a0 b n H IH];
    intros x a E.
  - discriminate.
  - inversion E; subst. exists (S n). split; [now apply edits_insert | lia].
  - inversion E; subst. exists (S n). split; [now apply edits_insert | lia].
  - inversion E; subst. exists n. split; [exact H | lia].
  - destruct (IH x a E) as [n' [H1 H2]].
    exists (S n'). split; [now apply edits_insert | lia].
Qed.

Lemma lev_drop_head x a b : lev a b <= S (lev (x :: a) b).
Proof.
  destruct (edits_drop_head x a b _ (edits_lev (x :: a) b)) as [n' [H1 H2]].
  apply lev_le in H1. lia.
Qed.

Lemma lev_cons_eq x a b : lev (x :: a) (x :: b) = lev a b.
Proof.
  rewrite lev_cons, Ascii.eqb_refl. cbn [Nat.add].
  pose proof (lev_drop_head x b a) as H1. rewrite (lev_sym b a), (lev_sym (x :: b) a) in H1.
  pose proof (lev_drop_head x a b) as H2.
  lia.
Qed.

Lemma lev_cons_neq x y a b :
  x <> y ->
  lev (x :: a) (y :: b) =
  Nat.min (lev a b + 1) (Nat.min (lev (x :: a) b + 1) (lev a (y :: b) + 1)).
Proof.
  intros Hne. rewrite lev_cons.
  destruct (Ascii.eqb_spec x y); [contradiction|]. cbn [Nat.add]. lia.
Qed.

Lemma get_set_eq {A} (l : JSArray.t A) i v : JSArray.get (JSArray.set l i v) i = Some v.
Proof.
  unfold JSArray.get. revert l; induction i as [|i IH]; intros [|x l]; simpl; auto.
Qed.

Lemma get_set_neq {A} (l : JSArray.t A) i k v :
  i <> k -> JSArray.get (JSArray.set l i v) k = JSArray.get l k.
Proof.
  unfold JSArray.get. revert l k; induction i as [|i IH]; intros [|x l] [|k] Hne; simpl;
    try congruence; auto.
  - now destruct k.
  - rewrite (IH [] k) by congruence. now destruct k.
Qed.

Lemma set_cell_some M i j v :
  JSArray.get M i <> None -> exists M', set_cell M i j v = Some M'.
Proof.
  unfold set_cell, bind. destruct (JSArray.get M i); [eauto | congruence].
Qed.

Lemma cell_set_cell M i j v M' :
  set_cell M i j v = Some M' ->
  cell M' i j = Some v /\
  (forall i' j', (i', j') <> (i, j) -> cell M' i' j' = cell M i' j') /\
  (forall k, JSArray.get M k <> None -> JSArray.get M' k <> None).
Proof.
  unfold set_cell, bind. destruct (JSArray.get M i) as [row|] eqn:Hrow; [|discriminate].
  intros H; inversion H; subst; clear H. repeat split.
  - unfold cell, bind. now rewrite get_set_eq, get_set_eq.
  - intros i' j' Hne. unfold cell, bind.
    destruct (Nat.eq_dec i i') as [<-|Hi].
    + rewrite get_set_eq, Hrow. apply get_set_neq. congruence.
    + now rewrite get_set_neq.
  - intros k Hk. destruct (Nat.eq_dec i k) as [<-|Hi].
    + rewrite get_set_eq. discriminate.
    + now rewrite get_set_neq.
Qed.

Lemma fold_seq_inv {S : Type} (P : nat -> S -> Prop) (f : S -> nat -> S) len :
  forall start s,
  P start s ->
  (forall i s, start <= i < start + len -> P i s -> P (Datatypes.S i) (f s i)) ->
  P (start + len) (fold_left f (seq start len) s).
Proof.
  induction len as [|len IH]; intros start s H0 Hstep; simpl.
  - now rewrite Nat.add_0_r.
  - rewrite <- Nat.add_succ_comm. apply IH.
    + apply Hstep; [lia | exact H0].
    + intros i s' Hi. apply Hstep. lia.
Qed.

Section Table.
Variables a b : string.
Local Abbreviation rows := (String.length b).
Local Abbreviation cols := (String.length a).
Local Abbreviation D := (MerchantNormalizer.D a b).
Local Abbreviation filled := (MerchantNormalizer.filled a b).
Local Abbreviation table_inv := (MerchantNormalizer.table_inv a b).

Lemma D_0_r i : i <= rows -> D i 0 = i.
Proof.
  intros Hi. unfold MerchantNormalizer.D. simpl. rewrite lev_nil_r, length_rev, length_firstn.
  rewrite length_chars. lia.
Qed.

Lemma D_0_l j : j <= cols -> D 0 j = j.
Proof.
  intros Hj. unfold MerchantNormalizer.D. simpl. rewrite length_rev, length_firstn.
  rewrite length_chars. lia.
Qed.

Lemma firstn_S_nth {A} (l : list A) i x :
  nth_error l i = Some x -> firstn (S i) l = firstn i l ++ [x].
Proof.
  revert l; induction i as [|i IH]; intros [|y l] H; simpl in *; try discriminate.
  - now inversion H.
  - f_equal. now apply IH.
Qed.

Lemma D_step i j :
  1 <= i <= rows -> 1 <= j <= cols ->
  D i j =
  if option_ascii_eqb (charAt b (i - 1)) (charAt a (j - 1))
  then D (i - 1) (j - 1)
  else Nat.min (D (i - 1) (j - 1) + 1) (Nat.min (D i (j - 1) + 1) (D (i - 1) j + 1)).
Proof.
  intros Hi Hj. unfold charAt.
  destruct (nth_error (chars b) (i - 1)) as [y|] eqn:Hy.
  2:{ apply nth_error_None in Hy. rewrite length_chars in Hy. lia. }
  destruct (nth_error (chars a) (j - 1)) as [x|] eqn:Hx.
  2:{ apply nth_error_None in Hx. rewrite length_chars in Hx. lia. }
  assert (Ei : firstn i (chars b) = firstn (i - 1) (chars b) ++ [y]).
  { rewrite <- (firstn_S_nth _ _ _ Hy). f_equal. lia. }
  assert (Ej : firstn j (chars a) = firstn (j - 1) (chars a) ++ [x]).
  { rewrite <- (firstn_S_nth _ _ _ Hx). f_equal. lia. }
  unfold MerchantNormalizer.D. rewrite Ei, Ej, !rev_unit.
  cbn [option_ascii_eqb].
  destruct (Ascii.eqb_spec y x) as [->|Hne].
  - apply lev_cons_eq.
  - now apply lev_cons_neq.
Qed.

Lemma fill_cell_inv i j M :
  1 <= i <= rows -> 1 <= j <= cols ->
  table_inv i j M ->
  exists M', fill_cell a b M i j = Some M' /\ table_inv i (S j) M'.
Proof.
  intros Hi Hj [Hrows Hcells].
  assert (H11 : cell M (i - 1) (j - 1) = Some (D (i - 1) (j - 1))).
  { apply Hcells. unfold MerchantNormalizer.filled. lia. }
  assert (H10 : cell M i (j - 1) = Some (D i (j - 1))).
  { apply Hcells. unfold MerchantNormalizer.filled. lia. }
  assert (H01 : cell M (i - 1) j = Some (D (i - 1) j)).
  { apply Hcells. unfold MerchantNormalizer.filled. lia. }
  assert (Hset : exists M', fill_cell a b M i j = Some M' /\ set_cell M i j (D i j) = Some M').
  { destruct (set_cell_some M i j (D i j)) as [M' HM']; [apply Hrows; lia|].
    exists M'. split; [|exact HM'].
    unfold fill_cell. rewrite H11, H10, H01. cbn [bind].
    rewrite <- HM', (D_step i j Hi Hj).
    now destruct (option_ascii_eqb _ _). }
  destruct Hset as [M' [Hfill Hset]]. exists M'. split; [exact Hfill|].
  destruct (cell_set_cell _ _ _ _ _ Hset) as (Hnew & Hold & Hkeep).
  split; [now auto|].
  intros k c Hf.
  destruct (Nat.eq_dec k i) as [->|Hk]; [destruct (Nat.eq_dec c j) as [->|Hc]|].
  - exact Hnew.
  - rewrite Hold by congruence. apply Hcells. unfold MerchantNormalizer.filled in *. lia.
  - rewrite Hold by congruence. apply Hcells. unfold MerchantNormalizer.filled in *. lia.
Qed.

Lemma fill_row_inv i oM :
  1 <= i <= rows ->
  (exists M, oM = Some M /\ table_inv i 1 M) ->
  exists M', fill_row a b cols oM i = Some M' /\ table_inv (S i) 1 M'.
Proof.
  intros Hi H0. unfold fill_row.
  pose proof (fold_seq_inv
    (fun j oM => exists M, oM = Some M /\ table_inv i j M)
    (fun M j => M' <- M ;; fill_cell a b M' i j) cols 1 oM H0) as H.
  destruct H as [M' [HM' [Hr Hc]]].
  - intros j s Hj [M [-> Hinv]]. cbn [bind].
    destruct (fill_cell_inv i j M Hi ltac:(lia) Hinv) as [M' [H1 H2]]. eauto.
  - exists M'. split; [exact HM'|]. split; [exact Hr|].
    intros k c Hf. apply Hc. unfold MerchantNormalizer.filled in *. lia.
Qed.

Lemma init_rows_cells k : k <= rows -> cell (init_rows rows) k 0 = Some k.
Proof.
  intros Hk.
  assert (H : forall k, k < 0 + S rows -> cell (init_rows rows) k 0 = Some k).
  { apply (fold_seq_inv (fun t (M : matrix) => forall k, k < t -> cell M k 0 = Some k)).
    - intros k' Hk'; lia.
    - intros i M _ HM k' Hk'. unfold cell, bind.
      destruct (Nat.eq_dec i k') as [<-|Hne].
      + now rewrite get_set_eq.
      + rewrite get_set_neq by exact Hne. apply HM. lia. }
  apply H. lia.
Qed.

Lemma init_first_row_inv :
  exists M, init_first_row cols (init_rows rows) = Some M /\ table_inv 1 1 M.
Proof.
  unfold init_first_row.
  pose proof (fold_seq_inv
    (fun t oM => exists M, oM = Some M /\
       (forall k, k <= rows -> cell M k 0 = Some k) /\
       (forall c, c < t -> cell M 0 c = Some c))
    (fun M j => M' <- M ;; set_cell M' 0 j j) (S cols) 0
    (Some (init_rows rows))) as H.
  destruct H as [M [HM [Hc0 Hr0]]].
  - exists (init_rows rows). split; [reflexivity|].
    split; [apply init_rows_cells | intros c Hc; lia].
  - intros j s _ [M [-> [Hc0 Hr0]]]. cbn [bind].
    destruct (set_cell_some M 0 j j) as [M' HM'].
    { specialize (Hc0 0 ltac:(lia)). unfold cell, bind in Hc0.
      destruct (JSArray.get M 0); congruence. }
    exists M'. split; [exact HM'|].
    destruct (cell_set_cell _ _ _ _ _ HM') as (Hnew & Hold & _).
    split.
    + intros k Hk. destruct (Nat.eq_dec k 0) as [->|Hk0].
      * destruct (Nat.eq_dec j 0) as [->|Hj0]; [exact Hnew|].
        rewrite Hold by congruence. apply Hc0. lia.
      * rewrite Hold by congruence. now apply Hc0.
    + intros c Hc. destruct (Nat.eq_dec c j) as [->|Hcj]; [exact Hnew|].
      rewrite Hold by congruence. apply Hr0. lia.
  - exists M. split; [exact HM|]. split.
    + intros k Hk. specialize (Hc0 k Hk). unfold cell, bind in Hc0.
      destruct (JSArray.get M k); congruence.
    + intros k c (Hk & Hc & Hf).
      destruct (Nat.eq_dec c 0) as [->|Hc0'].
      * rewrite Hc0 by exact Hk. now rewrite D_0_r.
      * assert (k = 0) by lia. subst k.
        rewrite Hr0 by lia. now rewrite D_0_l.
Qed.

Lemma levenshteinDistance_D : levenshteinDistance a b = Some (D rows cols).
Proof.
  unfold levenshteinDistance.
  assert (H3 : exists M,
             fold_left (fill_row a b cols) (seq 1 rows)
               (init_first_row cols (init_rows rows)) = Some M /\
             table_inv (1 + rows) 1 M).
  { apply (fold_seq_inv (fun i oM => exists M, oM = Some M /\ table_inv i 1 M)).
    - exact init_first_row_inv.
    - intros i s Hi Hs. apply fill_row_inv; [lia | exact Hs]. }
  destruct H3 as [M [-> [_ Hc]]]. cbn [bind].
  apply Hc. unfold MerchantNormalizer.filled. lia.
Qed.

End Table.

Theorem levenshteinDistance_lev a b :
  levenshteinDistance a b = Some (lev (chars a) (chars b)).
Proof.
  rewrite levenshteinDistance_D. unfold D.
  rewrite <- !length_chars, !firstn_all, lev_rev. f_equal. apply lev_sym.
Qed.

Lemma lev_refl a : lev a a = 0.
Proof. induction a as [|x a IH]; [reflexivity|]. now rewrite lev_cons_eq. Qed.

Lemma lev_nil_l b : lev [] b = length b.
Proof. reflexivity. Qed.

Lemma chars_inj s t : chars s = chars t -> s = t.
Proof.
  intros H. rewrite <- (string_of_list_ascii_of_string s), <- (string_of_list_ascii_of_string t).
  unfold chars in H. now rewrite H.
Qed.

Lemma length_zero_empty s : String.length s = 0 -> s = EmptyString.
Proof. destruct s; [reflexivity | discriminate]. Qed.

Lemma Qdiv_self (n : nat) : n <> 0 -> (of_nat n / of_nat n == 1)%Q.
Proof.
  intros Hn. apply Qmult_inv_r.
  unfold of_nat, Qeq; simpl. lia.
Qed.

(** [editDistance] is the least number of single-character insertions,
    deletions and substitutions that turn one string into the other. *)
Lemma editDistance_least (a b : string) :
  edits (chars a) (chars b) (editDistance a b) /\
  forall n, edits (chars a) (chars b) n -> editDistance a b <= n.
Proof. split; [apply edits_lev | apply lev_le]. Qed.

Lemma reduce_char (c : ascii) :
  (if is_lower (lower c) || is_digit (lower c) then [lower c] else []) =
  alphanumeric_lowercased_char c.
Proof. destruct c as [[] [] [] [] [] [] [] []]; reflexivity. Qed.

(** What the code's [toLowerCase] and [replace] leave is the lowercased
    alphanumeric-only form. *)
Lemma reduce_alphanumeric_lowercased (s : string) :
  reduce s = alphanumeric_lowercased s.
Proof.
  unfold reduce, remove, toLowerCase, alphanumeric_lowercased.
  unfold chars at 1, of_chars at 2.
  rewrite list_ascii_of_string_of_list_ascii. f_equal.
  induction (chars s) as [|c l IH]; [reflexivity|].
  cbn [map filter flat_map]. rewrite <- IH, <- reduce_char.
  rewrite negb_involutive.
  destruct (is_lower (lower c) || is_digit (lower c)); reflexivity.
Qed.

Example alphanumeric_lowercased_netflix :
  alphanumeric_lowercased "NETFLIX.COM *Premium #42" = "netflixcompremium42"%string /\
  reduce "NETFLIX.COM *Premium #42" = "netflixcompremium42"%string.
Proof. split; reflexivity. Qed.

Lemma calculateSimilarity_cases (a b : string) :
  let normA := reduce a in
  let normB := reduce b in
  let maxLength := Nat.max (String.length normA) (String.length normB) in
  (normA = normB -> calculateSimilarity a b = Some 1%Q) /\
  (normA <> normB -> String.length normA = 0 \/ String.length normB = 0 ->
   calculateSimilarity a b = Some 0%Q) /\
  (maxLength <> 0 ->
   exists q, calculateSimilarity a b = Some q /\
             (q == 1 - of_nat (editDistance normA normB) / of_nat maxLength)%Q).
Proof.
  cbv zeta. unfold calculateSimilarity, editDistance.
  destruct (String.eqb_spec (reduce a) (reduce b)) as [Heq|Hne].
  - split; [reflexivity|]. split; [contradiction|].
    intros Hmax. exists 1%Q. split; [reflexivity|].
    rewrite Heq, lev_refl. unfold Qdiv. rewrite Qmult_0_l. reflexivity.
  - split; [contradiction|].
    destruct (String.length (reduce a) =? 0) eqn:Ea; cbn [orb].
    { split; [reflexivity|]. intros Hmax. exists 0%Q. split; [reflexivity|].
      apply Nat.eqb_eq in Ea. rewrite Ea in *. cbn [Nat.max] in *.
      apply length_zero_empty in Ea. rewrite Ea. cbn [chars list_ascii_of_string].
      rewrite lev_nil_l, length_chars, Qdiv_self by exact Hmax. reflexivity. }
    destruct (String.length (reduce b) =? 0) eqn:Eb; cbn [orb].
    { split; [reflexivity|]. intros Hmax. exists 0%Q. split; [reflexivity|].
      apply Nat.eqb_eq in Eb. rewrite Eb in *. rewrite Nat.max_0_r in *.
      apply length_zero_empty in Eb. rewrite Eb. cbn [chars list_ascii_of_string].
      rewrite lev_nil_r, length_chars, Qdiv_self by exact Hmax. reflexivity. }
    apply Nat.eqb_neq in Ea, Eb. split; [intros _ [H|H]; contradiction|].
    intros _. rewrite levenshteinDistance_lev. cbn [bind].
    eexists; split; reflexivity.
Qed.

(** C6: on the lowercased, alphanumeric-only forms of its arguments
    (letters in lower case, every character that is neither a letter nor a
    digit left out), [calculateSimilarity] is 1 when the two forms are equal, 0 when they
    differ and one is empty, and in every case with a non-empty form it
    equals [1 - editDistance / max(len_a, len_b)], where [editDistance] is the
    Levenshtein distance, which is what [levenshteinDistance] returns. *)
Theorem calculateSimilarity_is_normalized_distance (a b : string) :
  let normA := alphanumeric_lowercased a in
  let normB := alphanumeric_lowercased b in
  let maxLength := Nat.max (String.length normA) (String.length normB) in
  (normA = normB -> calculateSimilarity a b = Some 1%Q) /\
  (normA <> normB -> String.length normA = 0 \/ String.length normB = 0 ->
   calculateSimilarity a b = Some 0%Q) /\
  (maxLength <> 0 ->
   exists q, calculateSimilarity a b = Some q /\
             (q == 1 - of_nat (editDistance normA normB) / of_nat maxLength)%Q) /\
  levenshteinDistance normA normB = Some (editDistance normA normB) /\
  edits (chars normA) (chars normB) (editDistance normA normB) /\
  (forall n, edits (chars normA) (chars normB) n -> editDistance normA normB <= n).
Proof.
  cbv zeta. rewrite <- !reduce_alphanumeric_lowercased.
  destruct (calculateSimilarity_cases a b) as (H1 & H2 & H3).
  destruct (editDistance_least (reduce a) (reduce b)) as (H4 & H5).
  repeat split; auto. apply levenshteinDistance_lev.
Qed.

Lemma calculateSimilarity_same s : calculateSimilarity s s = Some 1%Q.
Proof. unfold calculateSimilarity. now rewrite String.eqb_refl. Qed.

Lemma similar_same_name name m : m_name m = name -> similar name m = true.
Proof. intros <-. unfold similar. now rewrite calculateSimilarity_same. Qed.

Lemma find_none_no_namesake userId name (ms : list Merchant) :
  find (similar name) (filter (fun m => String.eqb (m_user_id m) userId) ms) = None ->
  existsb (merchant_named userId name) ms = false.
Proof.
  intros Hfind. apply not_true_iff_false. intros Hex.
  apply existsb_exists in Hex. destruct Hex as [m [Hin Hm]].
  unfold merchant_named in Hm. apply andb_true_iff in Hm. destruct Hm as [Hu Hn].
  apply String.eqb_eq in Hn.
  eapply find_none in Hfind.
  - rewrite (similar_same_name name m Hn) in Hfind. discriminate.
  - apply filter_In. split; [exact Hin | exact Hu].
Qed.

Lemma upsert_alias_fresh aliases merchantId rawName userId :
  filter (alias_matches userId rawName) aliases = [] ->
  upsert_alias aliases merchantId rawName userId =
  aliases ++ [ {| a_merchant_id := merchantId; a_raw_name := rawName;
                  a_user_id := userId |} ].
Proof.
  intros Hnone. unfold upsert_alias.
  destruct (existsb _ aliases) eqn:Hex; [|reflexivity].
  apply existsb_exists in Hex. destruct Hex as [al [Hin Hal]].
  assert (In al (filter (alias_matches userId rawName) aliases))
    by (apply filter_In; auto).
  rewrite Hnone in H. destruct H.
Qed.

Lemma alias_matches_refl merchantId rawName userId :
  alias_matches userId rawName
    {| a_merchant_id := merchantId; a_raw_name := rawName; a_user_id := userId |} = true.
Proof. unfold alias_matches; simpl. now rewrite !String.eqb_refl. Qed.

Section FindOrCreateFacts.
Variable normalizeMerchantName : string -> string.
Variable new_uuid : Store -> string.
Variable raw_names_update : list string -> string -> list string.
Local Abbreviation resolve :=
  (findOrCreateMerchant normalizeMerchantName new_uuid raw_names_update).

(** What a first resolution of a raw name without a stored alias does. *)
Lemma resolve_fresh db userId rawName :
  alias_rows db userId rawName = [] ->
  exists merchantId ms,
    resolve db userId rawName =
      ({| merchants := ms;
          merchant_aliases :=
            merchant_aliases db ++
            [ {| a_merchant_id := merchantId; a_raw_name := rawName;
                 a_user_id := userId |} ] |},
       Returned merchantId) /\
    length ms <= S (length (merchants db)).
Proof.
  intros Hnone. unfold alias_rows in Hnone.
  unfold findOrCreateMerchant. rewrite Hnone. cbn [single].
  destruct (single (filter (merchant_named userId _) (merchants db))) as [em|].
  - exists (m_id em). eexists. split.
    + unfold create_alias, update_raw_names. cbn [merchants merchant_aliases].
      rewrite upsert_alias_fresh by exact Hnone. reflexivity.
    + rewrite length_map. lia.
  - destruct (find _ _) as [m|] eqn:Hfind.
    + exists (m_id m), (merchants db). split; [|lia].
      unfold create_alias. now rewrite upsert_alias_fresh by exact Hnone.
    + unfold insert_merchant.
      rewrite (find_none_no_namesake _ _ _ Hfind).
      eexists. eexists. split.
      * unfold create_alias. cbn [merchants merchant_aliases].
        rewrite upsert_alias_fresh by exact Hnone. reflexivity.
      * rewrite length_app. simpl. lia.
Qed.

Lemma resolve_known db userId rawName al :
  alias_rows db userId rawName = [al] ->
  resolve db userId rawName = (db, Returned (a_merchant_id al)).
Proof.
  intros H. unfold alias_rows in H. unfold findOrCreateMerchant. now rewrite H.
Qed.

(** C5: with [UNIQUE(user_id, raw_name)] holding of the alias table, a
    resolution returns a merchant id, a second resolution of the same raw
    name for the same user returns the same id through the stored alias and
    changes nothing, exactly one alias row then exists for the pair, and a
    raw name that had no alias adds at most one merchant row and exactly one
    alias row. *)
Theorem findOrCreateMerchant_idempotent db userId rawName :
  aliases_unique db ->
  exists merchantId db1,
    resolve db userId rawName = (db1, Returned merchantId) /\
    resolve db1 userId rawName = (db1, Returned merchantId) /\
    (exists al, alias_rows db1 userId rawName = [al] /\
                a_merchant_id al = merchantId) /\
    (alias_rows db userId rawName = [] ->
     length (merchants db1) <= S (length (merchants db)) /\
     length (merchant_aliases db1) = S (length (merchant_aliases db))).
Proof.
  intros Huniq.
  destruct (alias_rows db userId rawName) as [|al [|al' rest]] eqn:Hrows.
  - destruct (resolve_fresh db userId rawName Hrows) as (mid & ms & Hcall & Hlen).
    eexists. eexists. split; [exact Hcall|].
    assert (Hnew : alias_rows {| merchants := ms;
                                 merchant_aliases := merchant_aliases db ++
                                   [ {| a_merchant_id := mid; a_raw_name := rawName;
                                        a_user_id := userId |} ] |} userId rawName =
                   [ {| a_merchant_id := mid; a_raw_name := rawName;
                        a_user_id := userId |} ]).
    { unfold alias_rows in *. cbn [merchant_aliases].
      rewrite filter_app, Hrows. cbn [filter app].
      now rewrite alias_matches_refl. }
    split; [|split].
    + now rewrite (resolve_known _ _ _ _ Hnew).
    + eexists. split; [exact Hnew | reflexivity].
    + intros _. cbn [merchants merchant_aliases]. split; [exact Hlen|].
      rewrite length_app. simpl. lia.
  - exists (a_merchant_id al), db.
    rewrite (resolve_known _ _ _ _ Hrows), Hrows.
    repeat split; try discriminate.
    exists al. split; reflexivity.
  - specialize (Huniq userId rawName). rewrite Hrows in Huniq. simpl in Huniq. lia.
Qed.

End FindOrCreateFacts.

Lemma findOrCreateMerchant_idempotent_witness :
  let resolve :=
    findOrCreateMerchant (fun raw => toLowerCase raw) (fun _ => "m1"%string)
      (fun names raw => names ++ [raw]) in
  let db := {| merchants := []; merchant_aliases := [] |} in
  exists merchantId db1,
    resolve db "u1"%string "NETFLIX.COM"%string = (db1, Returned merchantId) /\
    resolve db1 "u1"%string "NETFLIX.COM"%string = (db1, Returned merchantId) /\
    (exists al, alias_rows db1 "u1" "NETFLIX.COM" = [al] /\
                a_merchant_id al = merchantId) /\
    (alias_rows db "u1" "NETFLIX.COM" = [] ->
     length (merchants db1) <= S (length (merchants db)) /\
     length (merchant_aliases db1) = S (length (merchant_aliases db))).
Proof.
  cbv zeta. apply findOrCreateMerchant_idempotent.
  intros u r. simpl. lia.
Defined.

End MerchantNormalizerFacts.

(** ** CSV ingestion *)

Module CsvParserFacts.
Import JS JSFacts Str CsvParser.
Local Open Scope nat_scope.




Lemma neg_not_nan n : n <> NaN -> JS.neg n <> NaN.
Proof. destruct n; simpl; congruence. Qed.

Lemma parseAmount_not_nan s n : parseAmount s = Some n -> n <> NaN.
Proof.
  unfold parseAmount. cbv zeta.
  match goal with
  | |- context [parseFloat ?cs] => generalize (parseFloat cs)
  end.
  match goal with
  | |- context [if ?b then JS.neg _ else _] => generalize b
  end.
  intros negative [q| | |] H; inversion H; subst; clear H;
    destruct negative; discriminate.
Qed.

Section RowFacts.
Variable Date_iso : string -> option string.
Variable Date_time : string -> Z.

Lemma row_amount_not_nan mapping fields n :
  row_amount mapping fields = Some n -> n <> NaN.
Proof.
  unfold row_amount.
  destruct (debitIndex mapping) as [di|]; [destruct (creditIndex mapping) as [ci|]|];
    try apply parseAmount_not_nan.
  destruct (parseAmount (or_else (field_at fields di) "0")) as [d|] eqn:Ed;
    destruct (parseAmount (or_else (field_at fields ci) "0")) as [c|] eqn:Ec;
    try (apply parseAmount_not_nan in Ed); try (apply parseAmount_not_nan in Ec);
    repeat match goal with
           | |- context [JS.gt0 ?x] => destruct (JS.gt0 x)
           end;
    intros H; inversion H; subst; clear H;
    try discriminate; try assumption; now apply neg_not_nan.
Qed.

Lemma Qabs_nonzero_pos (q : Q) : ~ (q == 0)%Q -> (0 < Qabs q)%Q.
Proof.
  destruct q as [n d]. unfold Qeq, Qlt, Qabs; simpl. lia.
Qed.

Lemma abs_positive n : n <> NaN -> JS.is_zero n = false -> positive (JS.abs n).
Proof.
  destruct n as [q| | |]; simpl; intros Hn Hz; try exact I; try congruence.
  apply Qabs_nonzero_pos. now apply Qeq_bool_neq.
Qed.

Lemma process_row_amount mapping delimiter i row st date amt :
  let fields := splitCSVLine (trim row) delimiter in
  is_empty (trim row) = false ->
  row_date Date_iso mapping fields = Some date ->
  is_empty date = false ->
  is_empty (row_description mapping fields) = false ->
  row_amount mapping fields = Some amt ->
  process_row Date_iso mapping delimiter i row st =
  if JS.is_zero amt then skip st
  else push {| date := date; description := row_description mapping fields;
               amount := JS.abs amt; rawLine := trim row |} st.
Proof.
  intros fields H1 H2 H3 H4 H5. unfold process_row.
  fold fields. now rewrite H1, H2, H3, H4, H5.
Qed.

Lemma process_row_positive mapping delimiter i row st :
  Forall (fun t => positive (amount t)) (transactions st) ->
  Forall (fun t => positive (amount t))
         (transactions (process_row Date_iso mapping delimiter i row st)).
Proof.
  intros Hst. unfold process_row.
  destruct (is_empty (trim row)); [exact Hst|].
  destruct (row_date _ _ _) as [date|]; [|exact Hst].
  destruct (is_empty date); [exact Hst|].
  destruct (is_empty (row_description _ _)); [exact Hst|].
  destruct (row_amount _ _) as [amt|] eqn:Hamt; [|exact Hst].
  destruct (JS.is_zero amt) eqn:Hz; [exact Hst|].
  cbn [push transactions]. apply Forall_app. split; [exact Hst|].
  constructor; [|constructor]. cbn [amount].
  apply abs_positive; [now apply row_amount_not_nan in Hamt | exact Hz].
Qed.

Lemma row_loop_positive mapping delimiter rows :
  forall i st,
  Forall (fun t => positive (amount t)) (transactions st) ->
  Forall (fun t => positive (amount t))
         (transactions (row_loop Date_iso mapping delimiter i rows st)).
Proof.
  induction rows as [|row rows IH]; intros i st Hst; simpl; [exact Hst|].
  apply IH. now apply process_row_positive.
Qed.

(** C10: for every input text, every transaction of the output of
    [parseCSV] has a strictly positive amount; a row whose amount is exactly 0
    is skipped, counted in [skipped] and without an error message; and the
    amount of a retained row is emitted as its absolute value. *)
Theorem parseCSV_amounts_positive (csvContent : string) :
  Forall (fun t => positive (amount t))
         (transactions (parseCSV Date_iso Date_time csvContent)) /\
  (forall mapping delimiter i row st date amt,
     let fields := splitCSVLine (trim row) delimiter in
     let st' := process_row Date_iso mapping delimiter i row st in
     is_empty (trim row) = false ->
     row_date Date_iso mapping fields = Some date ->
     is_empty date = false ->
     is_empty (row_description mapping fields) = false ->
     row_amount mapping fields = Some amt ->
     (JS.is_zero amt = true ->
      transactions st' = transactions st /\ errors st' = errors st /\
      skipped st' = S (skipped st)) /\
     (JS.is_zero amt = false ->
      exists t, transactions st' = transactions st ++ [t] /\
                amount t = JS.abs amt /\ positive (amount t) /\
                errors st' = errors st /\ skipped st' = skipped st)).
Proof.
  split.
  - unfold parseCSV.
    destruct (filter _ (split_lines csvContent)) as [|firstLine rest]; [constructor|].
    match goal with
    | |- context [match ?m with Some _ => _ | None => _ end] => destruct m as [mapping|]
    end; [|constructor].
    cbn [transactions].
    eapply Permutation_Forall; [symmetry; apply sort_by_perm|].
    apply row_loop_positive. constructor.
  - intros mapping delimiter i row st date amt fields st' H1 H2 H3 H4 H5.
    subst st'.
    rewrite (process_row_amount mapping delimiter i row st date amt H1 H2 H3 H4 H5).
    split; intros Hz; rewrite Hz.
    + repeat split.
    + eexists. cbn [push transactions errors skipped].
      split; [reflexivity|]. cbn [amount].
      repeat split. apply abs_positive; [|exact Hz].
      now apply row_amount_not_nan in H5.
Qed.

End RowFacts.

Lemma row_amount_single amountStr amt mapping fields :
  parseAmount amountStr = Some amt ->
  is_empty amountStr = false ->
  debitIndex mapping = None \/ creditIndex mapping = None ->
  field_at fields (amountIndex mapping) = Some amountStr ->
  row_amount mapping fields = Some amt.
Proof.
  intros Hp He Hcols Hf.
  unfold row_amount. rewrite Hf. unfold or_else. rewrite He.
  destruct Hcols as [-> | ->]; [exact Hp|].
  destruct (debitIndex mapping); exact Hp.
Qed.

(** C7: the amount strings [($12.34)] and [-12.34] are read as -12.34 and
    [12.34] as 12.34; in a data row with a single amount column each gives a
    row amount whose absolute value is 12.34, and a file with such a row
    yields a transaction whose stored amount is 12.34. *)
Theorem parseCSV_amount_forms (Date_iso : string -> option string) (Date_time : string -> Z) :
  parseAmount "($12.34)" = Some (Fin (-12.34)) /\
  parseAmount "-12.34" = Some (Fin (-12.34)) /\
  parseAmount "12.34" = Some (Fin 12.34) /\
  Forall
    (fun amountStr =>
       (forall mapping fields,
          debitIndex mapping = None \/ creditIndex mapping = None ->
          field_at fields (amountIndex mapping) = Some amountStr ->
          exists amt, row_amount mapping fields = Some amt /\
                      JS.is_zero amt = false /\ JS.abs amt = Fin 12.34) /\
       map amount
         (transactions (parseCSV Date_iso Date_time (one_row_csv amountStr))) =
       [Fin 12.34])
    ["($12.34)"; "-12.34"; "12.34"]%string.
Proof.
  split; [reflexivity|]. split; [reflexivity|]. split; [reflexivity|].
  repeat apply Forall_cons; try apply Forall_nil;
    (split;
     [ intros mapping fields Hcols Hf; eexists; split;
       [ eapply row_amount_single; [| |exact Hcols|exact Hf]; reflexivity
       | split; reflexivity ]
     | vm_compute; reflexivity ]).
Qed.

End CsvParserFacts.

(** ** Lists *)

Module ListFacts.

Lemma filter_none {A} (f : A -> bool) (l : list A) :
  (forall x, In x l -> f x = false) -> filter f l = [].
Proof.
  induction l as [|x l IH]; intros H; simpl; [reflexivity|].
  rewrite (H x) by now left. apply IH. intros y Hy. apply H. now right.
Qed.

End ListFacts.

(** ** Recurring-charge detection: grouping, frequency and candidates *)

Module RecurringDetectorProperties.
Import JS JSFacts RecurringDetector RecurringDetectorFacts.

Lemma map_insert_by {A} (key : A -> Z) (x : A) (l : list A) :
  map key (insert_by key x l) = insert_by (fun d => d) (key x) (map key l).
Proof.
  induction l as [|y l IH]; simpl; [reflexivity|].
  destruct (key x <=? key y)%Z; simpl; [reflexivity | now rewrite IH].
Qed.

Lemma map_sort_by {A} (key : A -> Z) (l : list A) :
  map key (sort_by key l) = sort_by (fun d => d) (map key l).
Proof.
  induction l as [|x l IH]; simpl; [reflexivity|].
  now rewrite map_insert_by, IH.
Qed.

Lemma sorted_perm_eq (l1 l2 : list Z) :
  StronglySorted Z.le l1 -> StronglySorted Z.le l2 -> Permutation l1 l2 -> l1 = l2.
Proof.
  revert l2; induction l1 as [|x l1 IH]; intros l2 H1 H2 Hp.
  - apply Permutation_nil in Hp. now subst.
  - destruct l2 as [|y l2]; [apply Permutation_sym, Permutation_nil in Hp; discriminate|].
    inversion H1 as [|? ? H1' Hx]; inversion H2 as [|? ? H2' Hy]; subst.
    assert (x = y).
    { assert (Hin1 : In x (y :: l2)) by (eapply Permutation_in; [exact Hp | now left]).
      assert (Hin2 : In y (x :: l1))
        by (eapply Permutation_in; [symmetry; exact Hp | now left]).
      rewrite Forall_forall in Hx, Hy.
      destruct Hin1 as [->|Hin1]; [reflexivity|].
      destruct Hin2 as [->|Hin2]; [reflexivity|].
      specialize (Hx y Hin2). specialize (Hy x Hin1). lia. }
    subst y. f_equal. apply IH; auto.
    now apply Permutation_cons_inv in Hp.
Qed.

Lemma sort_by_perm_dates (l1 l2 : list Z) :
  Permutation l1 l2 -> sort_by (fun d => d) l1 = sort_by (fun d => d) l2.
Proof.
  intros Hp. apply sorted_perm_eq.
  - apply (sort_by_sorted (fun d : Z => d)).
  - apply (sort_by_sorted (fun d : Z => d)).
  - rewrite !sort_by_perm. exact Hp.
Qed.

(** X3: [detectFrequency] does not depend on the order in which the dates
    are given. *)
Theorem detectFrequency_order (dates1 dates2 : list Z) :
  Permutation dates1 dates2 -> detectFrequency dates1 = detectFrequency dates2.
Proof.
  intros Hp. unfold detectFrequency.
  rewrite (Permutation_length Hp), (sort_by_perm_dates _ _ Hp). reflexivity.
Qed.

Lemma length_intervals_of (l : list Z) : length (intervals_of l) = (length l - 1)%nat.
Proof.
  induction l as [|d0 [|d1 l] IH]; simpl in *; try reflexivity.
  rewrite IH. lia.
Qed.

Lemma avg_in_range_bounds p a :
  avg_in_range p a = true <->
  (inject_Z (minDays p) <= a /\ a <= inject_Z (maxDays p))%Q.
Proof. unfold avg_in_range. now rewrite andb_true_iff, !Qleb_true. Qed.

Lemma patterns_disjoint p q a :
  In p FREQUENCY_PATTERNS -> In q FREQUENCY_PATTERNS ->
  avg_in_range p a = true -> avg_in_range q a = true -> p = q.
Proof.
  intros Hp Hq Ha Hb.
  apply avg_in_range_bounds in Ha, Hb. destruct Ha as [Ha1 Ha2], Hb as [Hb1 Hb2].
  assert (H1 : (inject_Z (minDays p) <= inject_Z (maxDays q))%Q)
    by (eapply Qle_trans; eauto).
  assert (H2 : (inject_Z (minDays q) <= inject_Z (maxDays p))%Q)
    by (eapply Qle_trans; eauto).
  rewrite <- Zle_Qle in H1, H2.
  unfold FREQUENCY_PATTERNS in Hp, Hq. simpl in Hp, Hq.
  repeat (destruct Hp as [<-|Hp]); try contradiction;
    repeat (destruct Hq as [<-|Hq]); try contradiction;
    try reflexivity; simpl in H1, H2; lia.
Qed.

Lemma pattern_score_nonneg p intervals :
  In p FREQUENCY_PATTERNS -> (0 <= pattern_score p intervals)%Q.
Proof.
  intros Hp. unfold pattern_score.
  apply Qmult_le_0_compat; [apply ratio_nonneg|].
  unfold FREQUENCY_PATTERNS in Hp. simpl in Hp.
  repeat (destruct Hp as [<-|Hp]); try contradiction; discriminate.
Qed.

Ltac other_buckets p a Ha :=
  repeat match goal with
  | |- context [avg_in_range ?q a] =>
      lazymatch q with
      | p => fail
      | _ =>
          let E := fresh "E" in
          destruct (avg_in_range q a) eqn:E;
          [ exfalso;
            let X := fresh "X" in
            pose proof (patterns_disjoint p q a
                          ltac:(unfold FREQUENCY_PATTERNS; simpl; tauto)
                          ltac:(unfold FREQUENCY_PATTERNS; simpl; tauto) Ha E) as X;
            discriminate X
          | ]
      end
  end.

Lemma match_fold_picks intervals avg p :
  In p FREQUENCY_PATTERNS ->
  avg_in_range p avg = true ->
  fold_left (match_step intervals avg) FREQUENCY_PATTERNS (None, 0%Q) =
  if Qltb 0 (pattern_score p intervals)
  then (Some p, pattern_score p intervals) else (None, 0%Q).
Proof.
  intros Hp Ha.
  unfold FREQUENCY_PATTERNS in Hp. simpl in Hp.
  repeat (destruct Hp as [<-|Hp]); try contradiction;
    unfold FREQUENCY_PATTERNS; cbn [fold_left]; unfold match_step;
    match goal with
    | Ha : avg_in_range ?p avg = true |- _ => other_buckets p avg Ha; rewrite Ha
    end;
    cbn [snd];
    match goal with
    | |- context [Qltb 0 ?s] => destruct (Qltb 0 s); reflexivity
    end.
Qed.

Lemma match_fold_none intervals avg :
  (forall p, In p FREQUENCY_PATTERNS -> avg_in_range p avg = false) ->
  fold_left (match_step intervals avg) FREQUENCY_PATTERNS (None, 0%Q) = (None, 0%Q).
Proof.
  intros H. unfold FREQUENCY_PATTERNS in *. cbn [fold_left]. unfold match_step.
  rewrite !H by (simpl; tauto). reflexivity.
Qed.

Lemma detectFrequency_intro (dates : list Z) (p : FrequencyPattern) :
  (2 <= length dates)%nat ->
  In p FREQUENCY_PATTERNS ->
  avg_in_range p (avg_interval (intervals_of (sort_by (fun d => d) dates))) = true ->
  (0.5 <= pattern_score p (intervals_of (sort_by (fun d => d) dates)))%Q ->
  detectFrequency dates =
  Some (frequency p,
        Qmin (pattern_score p (intervals_of (sort_by (fun d => d) dates))) 1).
Proof.
  intros Hge Hin Havg Hscore.
  unfold detectFrequency, MIN_TRANSACTIONS.
  destruct (Nat.ltb_spec (length dates) 2) as [Hlt|_]; [lia|].
  set (intervals := intervals_of (sort_by (fun d => d) dates)) in *.
  assert (Hlen : length intervals <> 0%nat).
  { unfold intervals. rewrite length_intervals_of, sort_by_length. lia. }
  apply Nat.eqb_neq in Hlen. rewrite Hlen.
  rewrite (match_fold_picks intervals _ p Hin Havg).
  assert (Hpos : Qltb 0 (pattern_score p intervals) = true).
  { apply Qltb_true. eapply Qlt_le_trans; [|exact Hscore]. reflexivity. }
  rewrite Hpos. cbn [fst snd].
  assert (Hnot : Qltb (pattern_score p intervals) MIN_CONFIDENCE = false)
    by (now apply Qltb_false).
  now rewrite Hnot.
Qed.

(** X2: [detectFrequency] returns a frequency and a confidence exactly when
    there are at least two dates, the mean interval of the sorted dates lies
    in the day range of that frequency, and the share of intervals in the
    range times the weight of the frequency is at least 0.5; the confidence
    is that product, capped at 1.  The day ranges do not overlap, so at most
    one frequency can qualify. *)
Theorem detectFrequency_Some_iff (dates : list Z) freq conf :
  detectFrequency dates = Some (freq, conf) <->
  (2 <= length dates)%nat /\
  exists p, In p FREQUENCY_PATTERNS /\ frequency p = freq /\
    let intervals := intervals_of (sort_by (fun d => d) dates) in
    avg_in_range p (avg_interval intervals) = true /\
    (0.5 <= pattern_score p intervals)%Q /\
    conf = Qmin (pattern_score p intervals) 1.
Proof.
  split.
  - unfold detectFrequency, MIN_TRANSACTIONS.
    destruct (Nat.ltb_spec (length dates) 2) as [Hlt|Hge]; [discriminate|].
    set (intervals := intervals_of (sort_by (fun d => d) dates)).
    destruct (length intervals =? 0)%nat; [discriminate|].
    pose proof (match_fold_inv intervals (avg_interval intervals)
                  FREQUENCY_PATTERNS (None, 0%Q) I (incl_refl _)) as Hinv.
    destruct (fst _) as [p|]; [|discriminate].
    destruct Hinv as (Hin & Havg & Hscore).
    destruct (Qltb _ MIN_CONFIDENCE) eqn:E; [discriminate|].
    intros H; inversion H; subst; clear H.
    split; [exact Hge|]. exists p. cbv zeta. repeat split; auto.
    + apply Qltb_false in E. now rewrite Hscore in E.
    + f_equal. exact Hscore.
  - intros [Hge (p & Hin & Hf & Havg & Hscore & Hconf)]. cbv zeta in *.
    subst. now apply detectFrequency_intro.
Qed.

Lemma sum_bounds (lo hi : Z) (l : list Z) (acc : Z) :
  Forall (fun i => (lo <= i <= hi)%Z) l ->
  (acc + lo * Z.of_nat (length l) <= fold_left Z.add l acc
   <= acc + hi * Z.of_nat (length l))%Z.
Proof.
  revert acc; induction l as [|i l IH]; intros acc Hall.
  - simpl. lia.
  - inversion Hall as [|? ? Hi Hrest]; subst.
    specialize (IH (acc + i)%Z Hrest). cbn [fold_left length]. lia.
Qed.

Lemma in_range_iff p i : in_range p i = true <-> (minDays p <= i <= maxDays p)%Z.
Proof. unfold in_range. rewrite andb_true_iff, !Z.leb_le. tauto. Qed.

Lemma filter_all {A} (f : A -> bool) (l : list A) :
  Forall (fun x => f x = true) l -> filter f l = l.
Proof.
  induction 1 as [|x l Hx _ IH]; simpl; [reflexivity|]. now rewrite Hx, IH.
Qed.

Lemma weight_at_least_06 p : In p FREQUENCY_PATTERNS -> (0.6 <= weight p)%Q.
Proof.
  unfold FREQUENCY_PATTERNS. intros H. simpl in H.
  repeat (destruct H as [<-|H]; [cbn; discriminate|]). destruct H.
Qed.

Lemma weight_at_least_half p : In p FREQUENCY_PATTERNS -> (0.5 <= weight p)%Q.
Proof.
  intros Hp. unfold FREQUENCY_PATTERNS in Hp. simpl in Hp.
  repeat (destruct Hp as [<-|Hp]); try contradiction; discriminate.
Qed.

Lemma full_score p (intervals : list Z) :
  intervals <> [] ->
  Forall (fun i => in_range p i = true) intervals ->
  (pattern_score p intervals == weight p)%Q.
Proof.
  intros Hne Hall. unfold pattern_score. rewrite (filter_all _ _ Hall).
  rewrite MerchantNormalizerFacts.Qdiv_self; [apply Qmult_1_l|].
  destruct intervals; [contradiction | discriminate].
Qed.

Lemma detectFrequency_regular (dates : list Z) (p : FrequencyPattern) :
  In p FREQUENCY_PATTERNS ->
  (2 <= length dates)%nat ->
  Forall (fun i => in_range p i = true) (intervals_of (sort_by (fun d => d) dates)) ->
  detectFrequency dates =
    Some (frequency p,
          Qmin (pattern_score p (intervals_of (sort_by (fun d => d) dates))) 1) /\
  (pattern_score p (intervals_of (sort_by (fun d => d) dates)) == weight p)%Q.
Proof.
  intros Hp Hlen Hall.
  set (intervals := intervals_of (sort_by (fun d => d) dates)) in *.
  assert (Hn : length intervals = (length dates - 1)%nat)
    by (unfold intervals; now rewrite length_intervals_of, sort_by_length).
  assert (Hne : intervals <> []) by (intros E; rewrite E in Hn; simpl in Hn; lia).
  pose proof (full_score p intervals Hne Hall) as Hscore.
  split; [|exact Hscore].
  apply detectFrequency_intro; auto; fold intervals.
  - unfold avg_interval.
    destruct (length intervals) as [|k] eqn:Ek; [lia|].
    apply avg_in_range_iff. rewrite <- Ek.
    assert (Hb : Forall (fun i => (minDays p <= i <= maxDays p)%Z) intervals).
    { eapply Forall_impl; [|exact Hall]. intros i. apply in_range_iff. }
    pose proof (sum_bounds _ _ _ 0%Z Hb). lia.
  - rewrite Hscore. now apply weight_at_least_half.
Qed.

(** X4: when every interval between consecutive sorted dates lies in the
    day range of one frequency, [detectFrequency] returns that frequency with
    the confidence [min(weight, 1)]. *)
Theorem regular_schedule_detected (dates : list Z) (p : FrequencyPattern) :
  In p FREQUENCY_PATTERNS ->
  (2 <= length dates)%nat ->
  Forall (fun i => in_range p i = true) (intervals_of (sort_by (fun d => d) dates)) ->
  exists conf,
    detectFrequency dates = Some (frequency p, conf) /\
    (conf == Qmin (weight p) 1)%Q.
Proof.
  intros Hp Hlen Hall.
  destruct (detectFrequency_regular dates p Hp Hlen Hall) as [Hf Hscore].
  eexists. split; [exact Hf|]. now rewrite Hscore.
Qed.

Lemma sum_constant (a : Q) (l : list Q) (acc : Q) :
  Forall (fun x => x = a) l ->
  (fold_left Qplus l acc == acc + a * of_nat (length l))%Q.
Proof.
  revert acc; induction l as [|x l IH]; intros acc Hall.
  - simpl. unfold of_nat. simpl. ring.
  - inversion Hall as [|? ? Hx Hrest]; subst.
    cbn [fold_left length]. rewrite (IH _ Hrest).
    unfold of_nat. rewrite Nat2Z.inj_succ, <- Z.add_1_r, inject_Z_plus. ring.
Qed.

Lemma avg_constant (a : Q) (l : list Q) :
  l <> [] -> Forall (fun x => x = a) l -> (avg_amount l == a)%Q.
Proof.
  intros Hne Hall. unfold avg_amount, JS.sum.
  rewrite (sum_constant a l 0 Hall), Qplus_0_l.
  apply Qdiv_mult_l.
  assert (0 < of_nat (length l))%Q
    by (apply of_nat_pos; destruct l; [contradiction | simpl; lia]).
  intros E. rewrite E in H. discriminate.
Qed.

Lemma consistency_ratio_constant (a : Q) (amounts : list Q) :
  (0 < a)%Q -> amounts <> [] -> Forall (fun x => x = a) amounts ->
  (consistency_ratio amounts == 1)%Q.
Proof.
  intros Hpos Hne Hall.
  pose proof (avg_constant a amounts Hne Hall) as Havg.
  unfold consistency_ratio. rewrite filter_all.
  - apply MerchantNormalizerFacts.Qdiv_self. destruct amounts; [contradiction | discriminate].
  - eapply Forall_impl; [|exact Hall]. intros x ->.
    apply within_tolerance_pos; [now rewrite Havg|].
    rewrite Havg. setoid_replace (a - a)%Q with 0%Q by ring.
    simpl Qabs. apply Qmult_le_0_compat; [discriminate | now apply Qlt_le_weak].
Qed.

Lemma group_add_nonempty m t acc :
  Forall (fun kg => transactions (snd kg) <> []) acc ->
  Forall (fun kg => transactions (snd kg) <> []) (group_add m t acc).
Proof.
  induction 1 as [|[k g] acc Hg Hacc IH]; simpl.
  - constructor; [discriminate | constructor].
  - destruct (String.eqb k m).
    + constructor; [|exact Hacc].
      simpl. intros E. apply app_eq_nil in E. destruct E; discriminate.
    + constructor; [exact Hg | exact IH].
Qed.

Lemma groupByMerchant_nonempty txs :
  Forall (fun kg => transactions (snd kg) <> []) (groupByMerchant txs).
Proof.
  unfold groupByMerchant.
  assert (H : forall l acc,
            Forall (fun kg => transactions (snd kg) <> []) acc ->
            Forall (fun kg => transactions (snd kg) <> []) (fold_left group_step l acc)).
  { induction l as [|t l IH]; intros acc Hacc; simpl; [exact Hacc|].
    apply IH. unfold group_step.
    destruct (merchant_id t); [|exact Hacc].
    destruct (skipped t); [exact Hacc | now apply group_add_nonempty]. }
  apply H. constructor.
Qed.

(** X1: [groupByMerchant] partitions the kept transactions by merchant: no
    merchant id has two groups; the group of a merchant holds exactly that
    merchant's non-pending transactions, in input order, with their amounts
    and dates in step; and a merchant has a group exactly when it has at
    least one such transaction. *)
Theorem groupByMerchant_partition (txs : list Transaction) :
  NoDup (map fst (groupByMerchant txs)) /\
  (forall k g, In (k, g) (groupByMerchant txs) ->
     merchantId g = k /\
     transactions g = merchant_group txs k /\
     amounts g = map amount (merchant_group txs k) /\
     dates g = map date (merchant_group txs k)) /\
  (forall k, In k (map fst (groupByMerchant txs)) <-> merchant_group txs k <> []).
Proof.
  destruct (groupByMerchant_inv txs) as (Hnd & Hok & Hnone).
  split; [exact Hnd|]. split.
  - intros k g Hin. destruct (Hok k g Hin) as [H1 H2 H3 H4].
    rewrite H3, H4, H2. auto.
  - intros k. split.
    + intros Hin. apply in_map_iff in Hin. destruct Hin as [[k' g] [Hk Hin]].
      simpl in Hk. subst k'.
      destruct (Hok k g Hin) as [_ H2 _ _]. rewrite <- H2.
      pose proof (groupByMerchant_nonempty txs) as Hne.
      rewrite Forall_forall in Hne. apply (Hne (k, g) Hin).
    + intros Hne. destruct (in_dec string_dec k (map fst (groupByMerchant txs)))
        as [Hin|Hnin]; [exact Hin|].
      exfalso. apply Hne. now apply Hnone.
Qed.

Lemma detect_group_id k g c : In c (detect_group k g) -> dr_merchantId c = k.
Proof.
  unfold detect_group.
  destruct (_ <? _)%nat; [intros []|].
  destruct (detectFrequency _) as [[f conf]|]; [|intros []].
  destruct (negb _); [intros []|]. intros [<-|[]]. reflexivity.
Qed.

Lemma detect_group_at_most_one k g : (length (detect_group k g) <= 1)%nat.
Proof.
  unfold detect_group.
  destruct (_ <? _)%nat; [simpl; lia|].
  destruct (detectFrequency _) as [[f conf]|]; [|simpl; lia].
  destruct (negb _); simpl; lia.
Qed.

Lemma candidates_NoDup (groups : list (string * TransactionGroup)) :
  NoDup (map fst groups) ->
  NoDup (map dr_merchantId
           (flat_map (fun kg => detect_group (fst kg) (snd kg)) groups)).
Proof.
  induction groups as [|[k g] groups IH]; intros Hnd; simpl; [constructor|].
  inversion Hnd as [|? ? Hnin Hnd']; subst.
  rewrite map_app.
  pose proof (detect_group_at_most_one k g) as Hlen.
  destruct (detect_group k g) as [|c [|c' rest]] eqn:E; simpl in Hlen; try lia.
  - simpl. now apply IH.
  - simpl. constructor; [|now apply IH].
    assert (Hc : dr_merchantId c = k) by (apply (detect_group_id k g); rewrite E; now left).
    rewrite Hc. intros Hin. apply Hnin.
    apply in_map_iff in Hin. destruct Hin as [c2 [Hid Hin]].
    apply in_flat_map in Hin. destruct Hin as [[k2 g2] [Hin2 Hc2]].
    apply detect_group_id in Hc2. simpl in Hc2.
    apply in_map_iff. exists (k2, g2). split; [simpl; congruence | exact Hin2].
Qed.

Lemma hd_sort_by_min {A} (key : A -> Z) (l : list A) (d : A) :
  l <> [] ->
  In (hd d (sort_by key l)) l /\
  forall x, In x l -> (key (hd d (sort_by key l)) <= key x)%Z.
Proof.
  intros Hne.
  pose proof (sort_by_sorted key l) as Hs.
  pose proof (sort_by_perm key l) as Hp.
  destruct (sort_by key l) as [|y s] eqn:E.
  - apply Permutation_nil in Hp. contradiction.
  - simpl. split.
    + eapply Permutation_in; [exact Hp | now left].
    + intros x Hx. apply Permutation_sym in Hp.
      apply (Permutation_in _ Hp) in Hx.
      inversion Hs as [|? ? _ Hall]; subst.
      destruct Hx as [->|Hx]; [lia|].
      rewrite Forall_forall in Hall. apply (Hall x Hx).
Qed.

Lemma last_sort_by_max {A} (key : A -> Z) (l : list A) (d : A) :
  l <> [] ->
  In (last (sort_by key l) d) l /\
  forall x, In x l -> (key x <= key (last (sort_by key l) d))%Z.
Proof.
  intros Hne.
  pose proof (sort_by_sorted key l) as Hs.
  pose proof (sort_by_perm key l) as Hp.
  destruct (exists_last (l := sort_by key l)) as [s [y E]].
  { intros E. rewrite E in Hp. apply Permutation_nil in Hp. contradiction. }
  rewrite E in *. rewrite last_last. split.
  - eapply Permutation_in; [exact Hp | apply in_or_app; right; now left].
  - intros x Hx. apply Permutation_sym in Hp.
    apply (Permutation_in _ Hp) in Hx.
    apply in_app_or in Hx. destruct Hx as [Hx|[->|[]]]; [|lia].
    clear -Hs Hx. induction s as [|z s IH]; [destruct Hx|].
    simpl in Hs. inversion Hs as [|? ? Hs' Hall]; subst.
    destruct Hx as [->|Hx]; [|now apply IH].
    rewrite Forall_forall in Hall. apply Hall. apply in_or_app; right; now left.
Qed.

Lemma hd_map {A B} (f : A -> B) (l : list A) (d : A) (e : B) :
  l <> [] -> hd e (map f l) = f (hd d l).
Proof. destruct l; [contradiction | reflexivity]. Qed.

Lemma last_map {A B} (f : A -> B) (l : list A) (d : A) (e : B) :
  l <> [] -> last (map f l) e = f (last l d).
Proof.
  intros Hne. destruct (exists_last Hne) as [s [y ->]].
  rewrite map_app. cbn [map]. now rewrite !last_last.
Qed.

Lemma sort_by_nonempty {A} (key : A -> Z) (l : list A) : l <> [] -> sort_by key l <> [].
Proof.
  intros Hne E. pose proof (sort_by_length key l) as H. rewrite E in H.
  destruct l; [congruence | simpl in H; discriminate].
Qed.

Lemma detect_group_extremes k g c :
  dates g = map date (transactions g) ->
  In c (detect_group k g) ->
  dr_transactionCount c = length (transactions g) /\
  (forall t, In t (transactions g) -> (dr_firstDate c <= date t <= dr_lastDate c)%Z) /\
  (exists t, In t (transactions g) /\ date t = dr_firstDate c /\
             amount t = dr_firstAmount c) /\
  (exists t, In t (transactions g) /\ date t = dr_lastDate c /\
             amount t = dr_currentAmount c).
Proof.
  intros Hdates. unfold detect_group.
  destruct (Nat.ltb_spec (length (transactions g)) MIN_TRANSACTIONS) as [|Hlen];
    [intros []|].
  destruct (detectFrequency _) as [[f conf]|]; [|intros []].
  destruct (negb _); [intros []|]. intros [<-|[]]. cbn.
  destruct (transactions g) as [|d l] eqn:E; [simpl in Hlen; unfold MIN_TRANSACTIONS in Hlen; lia|].
  rewrite <- E in *.
  assert (Hne : transactions g <> []) by (rewrite E; discriminate).
  pose proof (sort_by_nonempty date _ Hne) as Hne'.
  rewrite Hdates, <- map_sort_by.
  rewrite (hd_map date _ d 0%Z Hne'), (last_map date _ d 0%Z Hne').
  rewrite (hd_map amount _ d 0%Q Hne'), (last_map amount _ d 0%Q Hne').
  destruct (hd_sort_by_min date (transactions g) d Hne) as [Hin1 Hmin].
  destruct (last_sort_by_max date (transactions g) d Hne) as [Hin2 Hmax].
  split; [reflexivity|]. split; [|split].
  - intros t Ht. split; [now apply Hmin | now apply Hmax].
  - eexists; split; [exact Hin1 | split; reflexivity].
  - eexists; split; [exact Hin2 | split; reflexivity].
Qed.

Lemma candidate_facts (txs : list Transaction) (c : DetectedRecurring) :
  In c (detectRecurringCharges txs) ->
  let group := merchant_group txs (dr_merchantId c) in
  dr_transactionCount c = length group /\
  (forall t, In t group -> (dr_firstDate c <= date t <= dr_lastDate c)%Z) /\
  (exists t, In t group /\ date t = dr_firstDate c /\
             amount t = dr_firstAmount c) /\
  (exists t, In t group /\ date t = dr_lastDate c /\
             amount t = dr_currentAmount c).
Proof.
  rewrite detectRecurringCharges_flat_map. intros Hc.
  destruct (groupByMerchant_inv txs) as (_ & Hok & _).
  apply in_flat_map in Hc. destruct Hc as [[k g] [Hin Hc]]. simpl in Hc.
  destruct (Hok k g Hin) as [H1 H2 H3 H4].
  rewrite (detect_group_id k g c Hc). cbv zeta. rewrite <- H2.
  now apply (detect_group_extremes k g c).
Qed.

(** X6: [detectRecurringCharges] emits at most one candidate per
    merchant, and every candidate describes its merchant's group: the count
    is the size of the group, the first and last dates are the earliest and
    latest dates of the group, and the first and current amounts are the
    amounts of transactions of the group made on those dates. *)
Theorem candidates_describe_groups (txs : list Transaction) :
  NoDup (map dr_merchantId (detectRecurringCharges txs)) /\
  Forall
    (fun c =>
       let group := merchant_group txs (dr_merchantId c) in
       dr_transactionCount c = length group /\
       (forall t, In t group -> (dr_firstDate c <= date t <= dr_lastDate c)%Z) /\
       (exists t, In t group /\ date t = dr_firstDate c /\
                  amount t = dr_firstAmount c) /\
       (exists t, In t group /\ date t = dr_lastDate c /\
                  amount t = dr_currentAmount c))
    (detectRecurringCharges txs).
Proof.
  split.
  - rewrite detectRecurringCharges_flat_map.
    destruct (groupByMerchant_inv txs) as (Hnd & _ & _). now apply candidates_NoDup.
  - apply Forall_forall. intros c Hc. now apply candidate_facts.
Qed.

Lemma sum_positive (l : list Q) (acc : Q) :
  (0 <= acc)%Q -> l <> [] -> Forall (fun x => 0 < x)%Q l ->
  (0 < fold_left Qplus l acc)%Q.
Proof.
  revert acc; induction l as [|x l IH]; intros acc Hacc Hne Hall; [contradiction|].
  inversion Hall as [|? ? Hx Hrest]; subst. cbn [fold_left].
  destruct l as [|y l'].
  - cbn [fold_left]. lra.
  - apply IH; [lra | discriminate | exact Hrest].
Qed.

Lemma avg_positive (l : list Q) :
  l <> [] -> Forall (fun x => 0 < x)%Q l -> (0 < avg_amount l)%Q.
Proof.
  intros Hne Hall. unfold avg_amount, JS.sum.
  apply Qlt_shift_div_l.
  - apply of_nat_pos. destruct l; [contradiction | simpl; lia].
  - rewrite Qmult_0_l. apply sum_positive; [apply Qle_refl | exact Hne | exact Hall].
Qed.

(** X8: when all amounts are positive, as both ingestion paths store them,
    every candidate has positive first and current amounts, and at least 70%
    of the amounts of its group lie within 15% of their mean. *)
Theorem positive_amounts_candidates (txs : list Transaction) :
  Forall (fun t => 0 < amount t)%Q txs ->
  Forall
    (fun c =>
       (0 < dr_firstAmount c)%Q /\ (0 < dr_currentAmount c)%Q /\
       (0.7 <= share_within_15_percent
                 (map amount (merchant_group txs (dr_merchantId c))))%Q)
    (detectRecurringCharges txs).
Proof.
  intros Hpos. apply Forall_forall. intros c Hc.
  assert (Hgroup : Forall (fun t => 0 < amount t)%Q
                          (merchant_group txs (dr_merchantId c))).
  { apply Forall_forall. intros t Ht. apply filter_In in Ht.
    rewrite Forall_forall in Hpos. apply Hpos. tauto. }
  destruct (candidate_facts txs c Hc) as (_ & _ & (t1 & Ht1 & _ & <-) & (t2 & Ht2 & _ & <-)).
  destruct (candidate_requirements txs c Hc) as (Hlen & _ & Hratio).
  cbv zeta in Hlen, Hratio.
  rewrite Forall_forall in Hgroup.
  split; [now apply Hgroup|]. split; [now apply Hgroup|].
  rewrite <- consistency_ratio_share; [exact Hratio|].
  apply avg_positive.
  - destruct (merchant_group txs (dr_merchantId c)); [simpl in Hlen; lia | discriminate].
  - apply Forall_forall. intros x Hx. apply in_map_iff in Hx.
    destruct Hx as [t [<- Ht]]. now apply Hgroup.
Qed.

Lemma group_present txs m :
  merchant_group txs m <> [] ->
  exists g, In (m, g) (groupByMerchant txs) /\ group_ok txs m g.
Proof.
  intros Hne. destruct (groupByMerchant_inv txs) as (_ & Hok & Hnone).
  destruct (in_dec string_dec m (map fst (groupByMerchant txs))) as [Hin|Hnin].
  - apply in_map_iff in Hin. destruct Hin as [[k g] [Hk Hin]]. simpl in Hk. subst k.
    exists g. split; [exact Hin | now apply Hok].
  - exfalso. apply Hne. now apply Hnone.
Qed.

Lemma hd_constant {A B} (f : A -> B) (l : list A) (b e : B) :
  l <> [] -> Forall (fun x => f x = b) l -> hd e (map f l) = b.
Proof. destruct l; [congruence|]. intros _ H. inversion H; subst. reflexivity. Qed.

Lemma last_constant {A B} (f : A -> B) (l : list A) (b e : B) :
  l <> [] -> Forall (fun x => f x = b) l -> last (map f l) e = b.
Proof.
  intros Hne H. destruct (exists_last Hne) as [s [y ->]].
  rewrite map_app. cbn [map]. rewrite last_last.
  rewrite Forall_forall in H. apply H. apply in_or_app; right; now left.
Qed.

(** X7: a merchant with at least two non-pending transactions of one
    positive amount, whose consecutive dates are all spaced within the day
    range of one frequency, gets a candidate of that frequency, with a
    confidence of at least 0.8, that amount as first and current amount, and
    all of its transactions counted. *)
Theorem steady_subscription_detected (txs : list Transaction) (m : string)
    (a : Q) (p : FrequencyPattern) :
  In p FREQUENCY_PATTERNS ->
  (2 <= length (merchant_group txs m))%nat ->
  (0 < a)%Q ->
  Forall (fun t => amount t = a) (merchant_group txs m) ->
  Forall (fun i => in_range p i = true) (group_intervals (merchant_group txs m)) ->
  exists c,
    In c (detectRecurringCharges txs) /\
    dr_merchantId c = m /\
    dr_frequency c = frequency p /\
    (0.8 <= dr_confidence c)%Q /\
    dr_firstAmount c = a /\
    dr_currentAmount c = a /\
    dr_transactionCount c = length (merchant_group txs m).
Proof.
  intros Hp Hlen Hpos Hamt Hint.
  assert (Hne : merchant_group txs m <> [])
    by (destruct (merchant_group txs m); [simpl in Hlen; lia | discriminate]).
  destruct (group_present txs m Hne) as [g [Hin [_ Htx Ham Hda]]].
  rewrite Htx in Ham, Hda.
  assert (Hlend : (2 <= length (dates g))%nat) by (now rewrite Hda, length_map).
  assert (Hlena : (2 <= length (amounts g))%nat) by (now rewrite Ham, length_map).
  unfold group_intervals in Hint. rewrite <- Hda in Hint.
  destruct (detectFrequency_regular (dates g) p Hp Hlend Hint) as [Hf Hconf].
  assert (Hall : Forall (fun x => x = a) (amounts g)).
  { rewrite Ham. apply Forall_forall. intros x Hx. apply in_map_iff in Hx.
    destruct Hx as [t [<- Ht]]. rewrite Forall_forall in Hamt. now apply Hamt. }
  assert (Hratio : (consistency_ratio (amounts g) == 1)%Q).
  { apply (consistency_ratio_constant a); auto.
    destruct (amounts g); [simpl in Hlena; lia | discriminate]. }
  assert (Hcheck : checkAmountConsistency (amounts g) =
                   {| consistent := Qleb 0.7 (consistency_ratio (amounts g));
                      confidenceBoost := consistency_ratio (amounts g) * 0.2 |}).
  { unfold checkAmountConsistency.
    destruct (Nat.ltb_spec (length (amounts g)) 2); [lia | reflexivity]. }
  assert (Hc : consistent (checkAmountConsistency (amounts g)) = true).
  { rewrite Hcheck. cbn [consistent]. apply Qleb_true. rewrite Hratio. discriminate. }
  assert (Hb : (confidenceBoost (checkAmountConsistency (amounts g)) == 0.2)%Q).
  { rewrite Hcheck. cbn [confidenceBoost]. rewrite Hratio. reflexivity. }
  assert (Hsorted : Forall (fun t => amount t = a) (sort_by date (transactions g))).
  { rewrite Htx. apply Forall_forall. intros t Ht. rewrite Forall_forall in Hamt.
    apply Hamt. eapply Permutation_in; [apply sort_by_perm | exact Ht]. }
  assert (Hsne : sort_by date (transactions g) <> [])
    by (apply sort_by_nonempty; now rewrite Htx).
  eexists. split.
  - rewrite detectRecurringCharges_flat_map. apply in_flat_map.
    exists (m, g). split; [exact Hin|]. cbn [fst snd]. unfold detect_group.
    rewrite Htx at 1.
    destruct (Nat.ltb_spec (length (merchant_group txs m)) MIN_TRANSACTIONS) as [H|_];
      [unfold MIN_TRANSACTIONS in H; lia|].
    rewrite Hf, Hc. cbn [negb]. left. reflexivity.
  - cbn. repeat split.
    + rewrite Hconf, Hb.
      pose proof (weight_at_least_06 p Hp) as Hw.
      apply Q.min_glb; [|discriminate].
      apply Q.min_case_strong with (n := weight p) (m := 1%Q).
      * intros x y E. now rewrite E.
      * intros _. setoid_replace 0.8%Q with (0.6 + 0.2)%Q by reflexivity.
        now apply Qplus_le_l.
      * intros _. discriminate.
    + now apply hd_constant.
    + now apply last_constant.
    + now rewrite Htx.
Qed.

(** X5: at least two equal positive amounts are consistent, and give the
    full confidence boost of 0.2. *)
Theorem constant_amounts_consistent (a : Q) (amounts : list Q) :
  (0 < a)%Q -> (2 <= length amounts)%nat -> Forall (fun x => x = a) amounts ->
  consistent (checkAmountConsistency amounts) = true /\
  (confidenceBoost (checkAmountConsistency amounts) == 0.2)%Q.
Proof.
  intros Hpos Hlen Hall.
  assert (Hne : amounts <> []) by (destruct amounts; [simpl in Hlen; lia | discriminate]).
  pose proof (consistency_ratio_constant a amounts Hpos Hne Hall) as Hratio.
  unfold checkAmountConsistency.
  destruct (Nat.ltb_spec (length amounts) 2); [lia|].
  cbn [consistent confidenceBoost]. split.
  - apply Qleb_true. rewrite Hratio. discriminate.
  - rewrite Hratio. reflexivity.
Qed.

Lemma detectFrequency_order_witness :
  detectFrequency [0; 30; 61]%Z = detectFrequency [61; 0; 30]%Z.
Proof.
  apply (detectFrequency_order [0; 30; 61]%Z [61; 0; 30]%Z).
  apply Permutation_sym.
  apply (Permutation_cons_app [0; 30]%Z [] 61%Z). apply Permutation_refl.
Defined.

Lemma regular_schedule_detected_witness :
  exists conf,
    detectFrequency [0; 30; 61]%Z = Some (monthly, conf) /\ (conf == Qmin 1.2 1)%Q.
Proof.
  apply (regular_schedule_detected [0; 30; 61]%Z
           {| frequency := monthly; minDays := 27; maxDays := 35; weight := 1.2 |}).
  - unfold FREQUENCY_PATTERNS. simpl. tauto.
  - simpl. lia.
  - repeat constructor.
Defined.

Lemma constant_amounts_consistent_witness :
  consistent (checkAmountConsistency [9.99; 9.99; 9.99]%Q) = true /\
  (confidenceBoost (checkAmountConsistency [9.99; 9.99; 9.99]%Q) == 0.2)%Q.
Proof.
  apply (constant_amounts_consistent 9.99%Q).
  - reflexivity.
  - simpl. lia.
  - repeat constructor.
Defined.

Lemma steady_subscription_detected_witness :
  let t i m a d := {| id := i; merchant_id := Some m; amount := a; date := d;
                      pending := false |} in
  let txs := [t "t1" "spotify" 9.99%Q 19737%Z; t "t2" "other" 40%Q 19740%Z;
              t "t3" "spotify" 9.99%Q 19767%Z; t "t4" "spotify" 9.99%Q 19798%Z]%string in
  exists c,
    In c (detectRecurringCharges txs) /\
    dr_merchantId c = "spotify"%string /\
    dr_frequency c = monthly /\
    (0.8 <= dr_confidence c)%Q /\
    dr_firstAmount c = 9.99%Q /\
    dr_currentAmount c = 9.99%Q /\
    dr_transactionCount c = length (merchant_group txs "spotify").
Proof.
  cbv zeta.
  apply (steady_subscription_detected _ "spotify" 9.99%Q
           {| frequency := monthly; minDays := 27; maxDays := 35; weight := 1.2 |}).
  - unfold FREQUENCY_PATTERNS. simpl. tauto.
  - vm_compute. lia.
  - reflexivity.
  - vm_compute. repeat constructor.
  - vm_compute. repeat constructor.
Defined.

Lemma positive_amounts_candidates_witness :
  let t i a d := {| id := i; merchant_id := Some "gym"%string; amount := a; date := d;
                    pending := false |} in
  let txs := [t "g1" 30%Q 19737%Z; t "g2" 30%Q 19767%Z; t "g3" 33%Q 19798%Z]%string in
  Forall
    (fun c =>
       (0 < dr_firstAmount c)%Q /\ (0 < dr_currentAmount c)%Q /\
       (0.7 <= share_within_15_percent
                 (map amount (merchant_group txs (dr_merchantId c))))%Q)
    (detectRecurringCharges txs).
Proof.
  cbv zeta. apply positive_amounts_candidates.
  repeat (apply Forall_cons; [reflexivity|]). apply Forall_nil.
Defined.

Lemma avg_pair (a b : Q) : (avg_amount [a; b] == (a + b) / 2)%Q.
Proof. unfold avg_amount, JS.sum. cbn [fold_left length]. unfold of_nat. cbn. field. Qed.

Lemma within_tolerance_pair (avg x y : Q) :
  (0 < avg)%Q -> (avg == (x + y) / 2)%Q ->
  within_tolerance avg x = true <-> (Qabs (x - y) <= 0.15 * (x + y))%Q.
Proof.
  intros Hpos Havg. rewrite (within_tolerance_pos avg x Hpos).
  assert (E : (x - avg == (x - y) / 2)%Q) by (rewrite Havg; field).
  rewrite E. unfold Qdiv at 1. rewrite Qabs_Qmult.
  setoid_replace (Qabs (/ 2)) with (1 # 2)%Q by reflexivity.
  rewrite Havg. generalize (Qabs (x - y)). intros r.
  clear Havg E Hpos. unfold Qdiv.
  setoid_replace (/ 2)%Q with (1 # 2)%Q by reflexivity.
  split; intros H; lra.
Qed.

Lemma pair_consistent_exact (a b : Q) :
  (0 < a)%Q -> (0 < b)%Q ->
  consistent (checkAmountConsistency [a; b]) = true <->
  (Qabs (a - b) <= 0.15 * (a + b))%Q.
Proof.
  intros Ha Hb.
  pose proof (avg_pair a b) as Havg.
  assert (Hpos : (0 < avg_amount [a; b])%Q)
    by (rewrite Havg; apply Qlt_shift_div_l; [reflexivity | lra]).
  pose proof (within_tolerance_pair _ a b Hpos Havg) as Hwa.
  assert (Havg' : (avg_amount [a; b] == (b + a) / 2)%Q) by (rewrite Havg; field).
  pose proof (within_tolerance_pair _ b a Hpos Havg') as Hwb.
  assert (Hsym : (Qabs (b - a) <= 0.15 * (b + a))%Q <->
                 (Qabs (a - b) <= 0.15 * (a + b))%Q).
  { setoid_replace (b - a)%Q with (- (a - b))%Q by ring.
    rewrite Qabs_opp. setoid_replace (b + a)%Q with (a + b)%Q by ring. tauto. }
  unfold checkAmountConsistency. cbn [length Nat.ltb Nat.leb consistent].
  unfold consistency_ratio. cbn [filter].
  destruct (within_tolerance (avg_amount [a; b]) a) eqn:Ea;
    destruct (within_tolerance (avg_amount [a; b]) b) eqn:Eb;
    cbn [length]; split; intros H; try (vm_compute in H; discriminate H);
    try reflexivity; try tauto.
Qed.

(** X29: two positive amounts [a] and [b] are consistent when
    [|a - b| <= 0.14 * (a + b)] and are not when [|a - b| >= 0.16 * (a + b)]:
    the larger may be up to [1.14 / 0.86] (about 1.32) times the smaller,
    and not [1.16 / 0.84] (about 1.38) times or more.  (At 0.15 itself the
    rounding of the doubles decides; both bounds keep clear of it.) *)
Theorem two_amounts_consistent (a b : Q) :
  (0 < a)%Q -> (0 < b)%Q ->
  ((Qabs (a - b) <= 0.14 * (a + b))%Q ->
   consistent (checkAmountConsistency [a; b]) = true) /\
  ((0.16 * (a + b) <= Qabs (a - b))%Q ->
   consistent (checkAmountConsistency [a; b]) = false).
Proof.
  intros Ha Hb. pose proof (pair_consistent_exact a b Ha Hb) as Hiff.
  split; intros H.
  - apply Hiff. revert H. generalize (Qabs (a - b)). intros r H. lra.
  - apply not_true_iff_false. intros Hc. apply Hiff in Hc.
    revert H Hc. generalize (Qabs (a - b)). intros r H Hc. lra.
Qed.

Lemma two_amounts_consistent_witness :
  ((Qabs (10 - 13) <= 0.14 * (10 + 13))%Q ->
   consistent (checkAmountConsistency [10; 13]%Q) = true) /\
  ((0.16 * (10 + 13) <= Qabs (10 - 13))%Q ->
   consistent (checkAmountConsistency [10; 13]%Q) = false).
Proof. apply two_amounts_consistent; reflexivity. Defined.

End RecurringDetectorProperties.

(** ** Price changes: what the events are *)

Module PriceDriftProperties.
Import JS JSFacts ListFacts RecurringDetector PriceDrift PriceDriftFacts.

Lemma adjacent_pairs_In l prev curr :
  In (prev, curr) (adjacent_pairs l) -> In prev l /\ In curr l.
Proof.
  induction l as [|x [|y l] IH]; [intros [] | intros [] |].
  cbn [adjacent_pairs]. intros [E|H].
  - inversion E; subst. split; [now left | right; now left].
  - destruct (IH H). split; now right.
Qed.

Lemma adjacent_pairs_sorted l prev curr :
  date_sorted l -> In (prev, curr) (adjacent_pairs l) -> (date prev <= date curr)%Z.
Proof.
  induction l as [|x [|y l] IH]; [intros _ [] | intros _ [] |].
  cbn [adjacent_pairs]. intros Hs [E|H].
  - inversion E; subst. inversion Hs as [|? ? _ Hall]; subst.
    inversion Hall; subst. assumption.
  - apply IH; [|exact H]. now inversion Hs.
Qed.

Lemma adjacent_pairs_snd l : map snd (adjacent_pairs l) = tl l.
Proof.
  induction l as [|x [|y l] IH]; try reflexivity.
  cbn [adjacent_pairs map snd tl]. f_equal. exact IH.
Qed.

Lemma sortedTx_In txs rc t :
  In t (sortedTx txs rc) <-> In t txs /\ of_charge rc t = true.
Proof.
  unfold sortedTx. rewrite <- filter_In. split; intros H.
  - eapply Permutation_in; [apply sort_by_perm | exact H].
  - eapply Permutation_in; [apply Permutation_sym, sort_by_perm | exact H].
Qed.

Lemma sortedTx_sorted txs rc : date_sorted (sortedTx txs rc).
Proof. apply sort_by_sorted. Qed.

Lemma significant_inv prev curr :
  significant prev curr = true ->
  (0 < amount prev)%Q /\
  percent_change prev curr = ((amount curr - amount prev) / amount prev * 100)%Q /\
  (1 < Qabs (percent_change prev curr))%Q.
Proof.
  intros H. destruct (Qltb 0 (amount prev)) eqn:E.
  - split; [now apply Qltb_true|]. split.
    + unfold percent_change. now rewrite E.
    + now apply Qltb_true.
  - rewrite significant_nonpositive in H; [discriminate | now apply Qltb_false].
Qed.

(** X9: every event of [detectPriceChanges], on any input, carries the ids
    of the charge, has a positive previous amount, a new amount that differs
    from it, [changeAmount = newAmount - previousAmount],
    [changePercent = changeAmount / previousAmount * 100] of absolute value
    above 1, and comes from two non-pending transactions of the merchant,
    the later of which gives the date and the transaction id. *)
Theorem detectPriceChanges_events (txs : list Transaction) (rc : RecurringCharge) :
  Forall
    (fun e =>
       recurringChargeId e = rc_id rc /\
       pc_merchantId e = rc_merchant_id rc /\
       (0 < previousAmount e)%Q /\
       changeAmount e = (newAmount e - previousAmount e)%Q /\
       changePercent e = (changeAmount e / previousAmount e * 100)%Q /\
       (1 < Qabs (changePercent e))%Q /\
       ~ (newAmount e == previousAmount e)%Q /\
       exists prev curr,
         In prev txs /\ In curr txs /\
         of_charge rc prev = true /\ of_charge rc curr = true /\
         (date prev <= date curr)%Z /\
         amount prev = previousAmount e /\
         amount curr = newAmount e /\
         id curr = transactionId e /\
         date curr = detectedAt e)
    (detectPriceChanges txs rc).
Proof.
  rewrite detectPriceChanges_pairs. apply Forall_forall. intros e He.
  apply in_map_iff in He. destruct He as [[prev curr] [<- Hin]].
  apply filter_In in Hin. destruct Hin as [Hin Hsig]. cbn [fst snd] in *.
  destruct (significant_inv prev curr Hsig) as (Hpos & Hpc & Habs).
  destruct (adjacent_pairs_In _ _ _ Hin) as [Hp Hc].
  apply sortedTx_In in Hp. apply sortedTx_In in Hc.
  pose proof (adjacent_pairs_sorted _ _ _ (sortedTx_sorted txs rc) Hin) as Hle.
  cbn [price_change recurringChargeId pc_merchantId previousAmount newAmount
       changeAmount changePercent detectedAt transactionId].
  repeat split; auto.
  - intros E. rewrite Hpc in Habs.
    assert (Hz : ((amount curr - amount prev) / amount prev * 100 == 0)%Q).
    { rewrite E. unfold Qminus. rewrite Qplus_opp_r. unfold Qdiv.
      now rewrite !Qmult_0_l. }
    rewrite Hz in Habs. discriminate Habs.
  - exists prev, curr. repeat split; tauto.
Qed.

Lemma StronglySorted_filter {A} (R : A -> A -> Prop) (f : A -> bool) (l : list A) :
  StronglySorted R l -> StronglySorted R (filter f l).
Proof.
  induction 1 as [|x l Hs IH Hall]; simpl; [constructor|].
  destruct (f x); [|exact IH]. constructor; [exact IH|].
  rewrite Forall_forall in *. intros y Hy. apply filter_In in Hy. now apply Hall.
Qed.

Lemma adjacent_pairs_snd_sorted l :
  date_sorted l ->
  StronglySorted (fun p q => (date (snd p) <= date (snd q))%Z) (adjacent_pairs l).
Proof.
  induction l as [|x [|y l] IH]; intros Hs; [constructor | constructor |].
  change (adjacent_pairs (x :: y :: l)) with ((x, y) :: adjacent_pairs (y :: l)).
  inversion Hs as [|? ? Hs' _]; subst.
  constructor; [now apply IH|].
  apply Forall_forall. intros [p c] Hin. cbn [snd].
  destruct (adjacent_pairs_In _ _ _ Hin) as [_ Hc].
  destruct Hc as [<-|Hc]; [lia|].
  inversion Hs' as [|? ? _ Hall]; subst.
  rewrite Forall_forall in Hall. now apply Hall.
Qed.

Lemma StronglySorted_map {A B} (R : B -> B -> Prop) (f : A -> B) (l : list A) :
  StronglySorted (fun x y => R (f x) (f y)) l -> StronglySorted R (map f l).
Proof.
  induction 1 as [|x l Hs IH Hall]; simpl; constructor; [exact IH|].
  rewrite Forall_forall in *. intros y Hy. apply in_map_iff in Hy.
  destruct Hy as [z [<- Hz]]. now apply Hall.
Qed.

Lemma length_adjacent_pairs l : length (adjacent_pairs l) = (length l - 1)%nat.
Proof.
  rewrite <- (length_map snd), adjacent_pairs_snd. destruct l; simpl; lia.
Qed.

(** X10: the events of [detectPriceChanges] are in non-decreasing order of
    date, and there is at most one per kept transaction after the first. *)
Theorem detectPriceChanges_chronological (txs : list Transaction) (rc : RecurringCharge) :
  StronglySorted Z.le (map detectedAt (detectPriceChanges txs rc)) /\
  (length (detectPriceChanges txs rc) <= length (filter (of_charge rc) txs) - 1)%nat.
Proof.
  rewrite detectPriceChanges_pairs. split.
  - rewrite map_map. cbn [price_change detectedAt].
    apply (StronglySorted_map Z.le (fun p => date (snd p))).
    apply StronglySorted_filter, adjacent_pairs_snd_sorted, sortedTx_sorted.
  - rewrite length_map.
    eapply Nat.le_trans; [apply filter_length_le|].
    rewrite length_adjacent_pairs. unfold sortedTx. now rewrite sort_by_length.
Qed.

Lemma band_not_significant (a : Q) prev curr :
  (0 < a)%Q ->
  (a <= amount prev <= 1.005 * a)%Q -> (a <= amount curr <= 1.005 * a)%Q ->
  significant prev curr = false.
Proof.
  intros Ha [Hp1 Hp2] [Hc1 Hc2].
  assert (Hpos : (0 < amount prev)%Q) by (eapply Qlt_le_trans; eauto).
  destruct (significant prev curr) eqn:E; [|reflexivity]. exfalso.
  apply significant_positive in E; [|exact Hpos].
  revert E. apply Qle_not_lt.
  unfold Qdiv. rewrite <- Qmult_assoc, (Qmult_comm (/ amount prev)), Qmult_assoc.
  rewrite Qabs_Qmult, (Qabs_pos (/ amount prev))
    by (apply Qlt_le_weak, Qinv_lt_0_compat; exact Hpos).
  apply Qle_shift_div_r; [exact Hpos|]. rewrite Qmult_1_l.
  rewrite Qabs_Qmult. setoid_replace (Qabs 100) with 100%Q by reflexivity.
  apply Qabs_case; intros _; lra.
Qed.

(** X11: when the amounts of the merchant's non-pending transactions all
    lie between some positive [a] and [1.005 * a], a band of half a percent,
    [detectPriceChanges] emits no event.  (No two such amounts are more than
    half a percent apart, which the rounding of the doubles cannot bring to
    the threshold of 1 percent.) *)
Theorem narrow_band_no_events (txs : list Transaction) (rc : RecurringCharge)
    (a : Q) :
  (0 < a)%Q ->
  Forall (fun t => of_charge rc t = true -> (a <= amount t <= 1.005 * a)%Q) txs ->
  detectPriceChanges txs rc = [].
Proof.
  intros Ha Hall. rewrite detectPriceChanges_pairs.
  rewrite filter_none; [reflexivity|].
  intros [prev curr] Hin. cbn [fst snd].
  destruct (adjacent_pairs_In _ _ _ Hin) as [Hp Hc].
  apply sortedTx_In in Hp. apply sortedTx_In in Hc.
  rewrite Forall_forall in Hall.
  apply (band_not_significant a); auto; apply Hall; tauto.
Qed.

Lemma sorted_perm_eq_key {A} (key : A -> Z) (l1 l2 : list A) :
  StronglySorted (key_le key) l1 -> StronglySorted (key_le key) l2 ->
  Permutation l1 l2 -> NoDup (map key l1) -> l1 = l2.
Proof.
  revert l2; induction l1 as [|x l1 IH]; intros l2 H1 H2 Hp Hnd.
  - apply Permutation_nil in Hp. now subst.
  - destruct l2 as [|y l2]; [apply Permutation_sym, Permutation_nil in Hp; discriminate|].
    inversion H1 as [|? ? H1' Hx]; inversion H2 as [|? ? H2' Hy]; subst.
    inversion Hnd as [|? ? Hnotin Hnd']; subst.
    assert (x = y).
    { assert (Hin1 : In x (y :: l2)) by (eapply Permutation_in; [exact Hp | now left]).
      assert (Hin2 : In y (x :: l1))
        by (eapply Permutation_in; [symmetry; exact Hp | now left]).
      rewrite Forall_forall in Hx, Hy.
      destruct Hin1 as [->|Hin1]; [reflexivity|].
      destruct Hin2 as [->|Hin2]; [reflexivity|].
      specialize (Hx y Hin2). specialize (Hy x Hin1). unfold key_le in *.
      exfalso. apply Hnotin. replace (key x) with (key y) by lia.
      now apply in_map. }
    subst y. f_equal. apply IH; auto.
    now apply Permutation_cons_inv in Hp.
Qed.

Lemma Permutation_filter' {A} (f : A -> bool) (l1 l2 : list A) :
  Permutation l1 l2 -> Permutation (filter f l1) (filter f l2).
Proof.
  induction 1 as [|x l1 l2 _ IH|x y l|l1 l2 l3 _ IH1 _ IH2]; simpl.
  - constructor.
  - destruct (f x); [now constructor | exact IH].
  - destruct (f x), (f y); try apply Permutation_refl. apply perm_swap.
  - eapply Permutation_trans; eauto.
Qed.

(** X12: when the merchant's non-pending transactions have pairwise
    different dates, [detectPriceChanges] does not depend on the order of
    the input. *)
Theorem detectPriceChanges_order (txs1 txs2 : list Transaction) (rc : RecurringCharge) :
  Permutation txs1 txs2 ->
  NoDup (map date (filter (of_charge rc) txs1)) ->
  detectPriceChanges txs1 rc = detectPriceChanges txs2 rc.
Proof.
  intros Hp Hnd. rewrite !detectPriceChanges_pairs.
  assert (E : sortedTx txs1 rc = sortedTx txs2 rc); [|now rewrite E].
  unfold sortedTx. apply (sorted_perm_eq_key date).
  - apply sort_by_sorted.
  - apply sort_by_sorted.
  - rewrite !sort_by_perm. now apply Permutation_filter'.
  - eapply Permutation_NoDup; [|exact Hnd].
    apply Permutation_map, Permutation_sym, sort_by_perm.
Qed.

Lemma narrow_band_no_events_witness :
  let t i m a d := {| id := i; merchant_id := Some m; amount := a; date := d;
                      pending := false |} in
  let txs := [t "t1" "netflix" 15.99%Q 19737%Z; t "t2" "netflix" 16.05%Q 19768%Z;
              t "t3" "gym" 40%Q 19770%Z; t "t4" "netflix" 16.02%Q 19797%Z]%string in
  detectPriceChanges txs {| rc_id := "rc1"; rc_merchant_id := "netflix" |} = [].
Proof.
  cbv zeta. apply (narrow_band_no_events _ _ 15.99%Q).
  - reflexivity.
  - repeat (apply Forall_cons; [intros H; try discriminate H; split; discriminate|]).
    apply Forall_nil.
Defined.

Lemma detectPriceChanges_order_witness :
  let t i a d := {| id := i; merchant_id := Some "netflix"%string; amount := a;
                    date := d; pending := false |} in
  let t1 := t "t1"%string 15.99%Q 19737%Z in
  let t2 := t "t2"%string 15.99%Q 19768%Z in
  let t3 := t "t3"%string 17.99%Q 19797%Z in
  let rc := {| rc_id := "rc1"; rc_merchant_id := "netflix" |} in
  detectPriceChanges [t1; t2; t3] rc = detectPriceChanges [t3; t2; t1] rc.
Proof.
  cbv zeta. apply detectPriceChanges_order.
  - apply (Permutation_rev [_; _; _]).
  - vm_compute. repeat constructor; simpl; intuition discriminate.
Defined.

End PriceDriftProperties.

(** ** Merchant resolution: the distance, the score and the tables *)

Module MerchantNormalizerProperties.
Import JS JSFacts Str MerchantNormalizer MerchantNormalizerFacts MerchantStore.
Local Open Scope nat_scope.

Lemma lev_zero a b : lev a b = 0 -> a = b.
Proof.
  revert b; induction a as [|x a IH]; intros [|y b] H.
  - reflexivity.
  - discriminate.
  - rewrite lev_nil_r in H. discriminate.
  - rewrite lev_cons in H.
    destruct (Ascii.eqb_spec x y) as [->|Hne]; cbn [Nat.add] in H.
    + f_equal. apply IH. lia.
    + lia.
Qed.

Lemma edits_trans a b n :
  edits a b n -> forall c m, edits b c m -> exists k, k <= n + m /\ edits a c k.
Proof.
  induction 1 as [|x a b n _ IH|x y a b n _ IH|x a b n _ IH|y a b n _ IH];
    intros c m H2.
  - exists m. split; [lia | exact H2].
  - remember (x :: b) as xb eqn:E. revert E.
    induction H2 as [|x0 b0 c m H2 _|x0 z b0 c m H2 _|x0 b0 c m H2 _|z b0 c m H2 IH2];
      intros E.
    + discriminate.
    + inversion E; subst. destruct (IH _ _ H2) as [k [Hk He]].
      exists k. split; [lia | now apply edits_keep].
    + inversion E; subst. destruct (IH _ _ H2) as [k [Hk He]].
      exists (S k). split; [lia | now apply edits_subst].
    + inversion E; subst. destruct (IH _ _ H2) as [k [Hk He]].
      exists (S k). split; [lia | now apply edits_delete].
    + destruct (IH2 E) as [k [Hk He]].
      exists (S k). split; [lia | now apply edits_insert].
  - remember (y :: b) as yb eqn:E. revert E.
    induction H2 as [|x0 b0 c m H2 _|x0 z b0 c m H2 _|x0 b0 c m H2 _|z b0 c m H2 IH2];
      intros E.
    + discriminate.
    + inversion E; subst. destruct (IH _ _ H2) as [k [Hk He]].
      exists (S k). split; [lia | now apply edits_subst].
    + inversion E; subst. destruct (IH _ _ H2) as [k [Hk He]].
      exists (S k). split; [lia | now apply edits_subst].
    + inversion E; subst. destruct (IH _ _ H2) as [k [Hk He]].
      exists (S k). split; [lia | now apply edits_delete].
    + destruct (IH2 E) as [k [Hk He]].
      exists (S k). split; [lia | now apply edits_insert].
  - destruct (IH _ _ H2) as [k [Hk He]].
    exists (S k). split; [lia | now apply edits_delete].
  - destruct (edits_drop_head _ _ _ _ H2) as [m' [H2' Hm']].
    destruct (IH _ _ H2') as [k [Hk He]].
    exists k. split; [lia | exact He].
Qed.

Lemma lev_triangle a b c : lev a c <= lev a b + lev b c.
Proof.
  destruct (edits_trans a b _ (edits_lev a b) c _ (edits_lev b c)) as [k [Hk He]].
  apply lev_le in He. lia.
Qed.

Lemma edits_max a b : edits a b (Nat.max (length a) (length b)).
Proof.
  revert b; induction a as [|x a IH]; intros b.
  - cbn [length Nat.max]. induction b as [|y b IHb]; [constructor|].
    cbn [length]. now apply edits_insert.
  - destruct b as [|y b].
    + cbn [length Nat.max]. apply edits_delete.
      specialize (IH []). cbn [length] in IH. now rewrite Nat.max_0_r in IH.
    + cbn [length]. rewrite <- Nat.succ_max_distr. apply edits_subst, IH.
Qed.

Lemma lev_upper a b : lev a b <= Nat.max (length a) (length b).
Proof. apply lev_le, edits_max. Qed.

Lemma edits_length a b n :
  edits a b n -> length a <= length b + n /\ length b <= length a + n.
Proof. induction 1; cbn [length]; lia. Qed.

Lemma lev_lower a b : length a <= length b + lev a b /\ length b <= length a + lev a b.
Proof. apply edits_length, edits_lev. Qed.

(** X13: [levenshteinDistance] always returns a number, and it is a metric
    on strings: zero exactly for equal strings, symmetric, and subject to the
    triangle inequality.  It is at most the length of the longer string and
    at least the difference of the two lengths. *)
Theorem levenshteinDistance_metric (a b c : string) :
  exists dab dbc dac,
    levenshteinDistance a b = Some dab /\
    levenshteinDistance b c = Some dbc /\
    levenshteinDistance a c = Some dac /\
    levenshteinDistance b a = Some dab /\
    (dab = 0 <-> a = b) /\
    dac <= dab + dbc /\
    dab <= Nat.max (String.length a) (String.length b) /\
    String.length a <= String.length b + dab /\
    String.length b <= String.length a + dab.
Proof.
  exists (lev (chars a) (chars b)), (lev (chars b) (chars c)), (lev (chars a) (chars c)).
  rewrite !levenshteinDistance_lev, <- !length_chars.
  pose proof (lev_lower (chars a) (chars b)).
  repeat split; try tauto.
  - f_equal. apply lev_sym.
  - intros H0. now apply chars_inj, lev_zero.
  - intros ->. apply lev_refl.
  - apply lev_triangle.
  - apply lev_upper.
Qed.

Lemma Qratio_lt_1 (m n : nat) : m < n -> (of_nat m / of_nat n < 1)%Q.
Proof.
  intros Hmn. apply Qlt_shift_div_r; [apply of_nat_pos; lia|].
  rewrite Qmult_1_l. unfold of_nat. rewrite <- Zlt_Qlt. lia.
Qed.

Lemma calculateSimilarity_sym a b : calculateSimilarity a b = calculateSimilarity b a.
Proof.
  unfold calculateSimilarity.
  rewrite (String.eqb_sym (reduce a)), (orb_comm (String.length (reduce a) =? 0)).
  rewrite !levenshteinDistance_lev, (lev_sym (chars (reduce a))), Nat.max_comm.
  reflexivity.
Qed.

Lemma calculateSimilarity_value a b :
  exists q, calculateSimilarity a b = Some q /\
    (0 <= q <= 1)%Q /\ ((q == 1)%Q <-> reduce a = reduce b).
Proof.
  unfold calculateSimilarity.
  destruct (String.eqb_spec (reduce a) (reduce b)) as [Heq|Hne].
  { exists 1%Q. repeat split; try discriminate; auto; try reflexivity. }
  destruct (_ || _) eqn:E.
  { exists 0%Q. repeat split; try discriminate; auto; try contradiction. }
  apply orb_false_iff in E. destruct E as [Ea Eb].
  apply Nat.eqb_neq in Ea, Eb.
  rewrite levenshteinDistance_lev. cbn [bind]. eexists. split; [reflexivity|].
  set (d := lev _ _). set (n := Nat.max _ _).
  assert (Hd : d <= n).
  { unfold d, n. rewrite <- !length_chars. apply lev_upper. }
  assert (Hpos : 0 < d).
  { destruct d eqn:Ed; [|lia]. exfalso. apply Hne.
    now apply chars_inj, lev_zero. }
  pose proof (ratio_nonneg d n) as H0. pose proof (ratio_le_1 d n Hd) as H1.
  assert (Hgt : (0 < of_nat d / of_nat n)%Q).
  { apply Qlt_shift_div_l; [apply of_nat_pos; lia|].
    rewrite Qmult_0_l. apply of_nat_pos. exact Hpos. }
  set (r := (of_nat d / of_nat n)%Q) in *. clearbody r.
  repeat split; try lra. intros Hq. contradiction.
Qed.

(** X14: [calculateSimilarity] always returns a number between 0 and 1,
    the same in both argument orders, and it is 1 exactly when the two
    names have the same lowercased alphanumeric-only form (letters in lower
    case, every other character but the digits left out). *)
Theorem calculateSimilarity_bounds (a b : string) :
  exists q,
    calculateSimilarity a b = Some q /\
    calculateSimilarity b a = Some q /\
    (0 <= q)%Q /\ (q <= 1)%Q /\
    ((q == 1)%Q <-> alphanumeric_lowercased a = alphanumeric_lowercased b).
Proof.
  rewrite <- !reduce_alphanumeric_lowercased.
  destruct (calculateSimilarity_value a b) as (q & Hq & [H0 H1] & Hone).
  exists q. rewrite (calculateSimilarity_sym b a). tauto.
Qed.

(** X15: a merchant passes the similarity test of [findOrCreateMerchant]
    (score above 0.8) exactly when the lowercased alphanumeric-only forms of
    the two names are equal, or the edit distance of these forms is less
    than a fifth of the length of the longer one. *)
Theorem similar_iff_few_edits (normalizedName : string) (m : Merchant) :
  let normA := alphanumeric_lowercased normalizedName in
  let normB := alphanumeric_lowercased (m_name m) in
  similar normalizedName m = true <->
  normA = normB \/
  5 * editDistance normA normB < Nat.max (String.length normA) (String.length normB).
Proof.
  cbv zeta. rewrite <- !reduce_alphanumeric_lowercased.
  unfold similar, calculateSimilarity, editDistance.
  set (na := reduce normalizedName). set (nb := reduce (m_name m)).
  destruct (String.eqb_spec na nb) as [Heq|Hne].
  { split; [now left | reflexivity]. }
  destruct (_ || _) eqn:E.
  { split; [discriminate|]. intros [H|H]; [contradiction|]. exfalso.
    apply orb_true_iff in E. destruct E as [E|E]; apply Nat.eqb_eq in E.
    - apply length_zero_empty in E. rewrite E in H.
      cbn [chars list_ascii_of_string String.length Nat.max] in H.
      rewrite lev_nil_l, length_chars in H. lia.
    - apply length_zero_empty in E. rewrite E in H.
      cbn [chars list_ascii_of_string String.length] in H.
      rewrite lev_nil_r, length_chars, Nat.max_0_r in H. lia. }
  apply orb_false_iff in E. destruct E as [Ea Eb].
  apply Nat.eqb_neq in Ea, Eb.
  rewrite levenshteinDistance_lev. cbn [bind].
  set (d := lev _ _). set (n := Nat.max _ _).
  assert (Hn : 0 < n) by (unfold n; lia).
  assert (Hiff : (0.8 < 1 - of_nat d / of_nat n)%Q <-> 5 * d < n).
  { assert (Hnq : (0 < of_nat n)%Q) by (apply of_nat_pos; exact Hn).
    assert (Hx : (0.8 < 1 - of_nat d / of_nat n)%Q <-> (5 * of_nat d < of_nat n)%Q).
    { assert (Hr : (of_nat d / of_nat n * of_nat n == of_nat d)%Q).
      { field. intros Z0. rewrite Z0 in Hnq. discriminate. }
      set (r := (of_nat d / of_nat n)%Q) in *. clearbody r.
      set (N := of_nat n) in *. set (Dq := of_nat d) in *. clearbody N Dq.
      split; intros H; nra. }
    rewrite Hx. unfold of_nat.
    setoid_replace 5%Q with (inject_Z 5) by reflexivity.
    rewrite <- inject_Z_mult, <- Zlt_Qlt. lia. }
  split.
  - intros H. right. apply Hiff. now apply Qltb_true.
  - intros [H|H]; [contradiction|]. apply Qltb_true. now apply Hiff.
Qed.

Lemma single_Some {A} (l : list A) x : single l = Some x <-> l = [x].
Proof.
  destruct l as [|y [|z l]]; simpl; split; intros H; try discriminate.
  - now inversion H.
  - now inversion H.
Qed.

Section StoreFacts.
Variable normalizeMerchantName : string -> string.
Variable new_uuid : Store -> string.
Variable raw_names_update : list string -> string -> list string.
Local Abbreviation resolve :=
  (findOrCreateMerchant normalizeMerchantName new_uuid raw_names_update).
Local Abbreviation update := (update_raw_names raw_names_update).

(** The three ways a raw name without a stored alias is resolved. *)
Lemma resolve_fresh_cases db userId rawName :
  alias_rows db userId rawName = [] ->
  let name := normalizeMerchantName rawName in
  let named := filter (merchant_named userId name) (merchants db) in
  let mine := filter (fun m => String.eqb (m_user_id m) userId) (merchants db) in
  (exists em, named = [em] /\
     resolve db userId rawName =
       ({| merchants := merchants (update db (m_id em) rawName);
           merchant_aliases :=
             merchant_aliases db ++ [new_alias (m_id em) rawName userId] |},
        Returned (m_id em))) \/
  (single named = None /\
   exists m, find (similar name) mine = Some m /\
     resolve db userId rawName =
       ({| merchants := merchants db;
           merchant_aliases :=
             merchant_aliases db ++ [new_alias (m_id m) rawName userId] |},
        Returned (m_id m))) \/
  (named = [] /\ find (similar name) mine = None /\
   resolve db userId rawName =
     ({| merchants := merchants db ++ [new_merchant (new_uuid db) userId (normalizeMerchantName rawName) rawName];
         merchant_aliases :=
           merchant_aliases db ++ [new_alias (new_uuid db) rawName userId] |},
      Returned (new_uuid db))).
Proof.
  intros Hnone. cbv zeta. unfold alias_rows in Hnone.
  unfold findOrCreateMerchant. rewrite Hnone. cbn [single].
  destruct (single (filter (merchant_named userId _) (merchants db))) as [em|] eqn:Hs.
  - left. exists em. split; [now apply single_Some|].
    unfold create_alias. cbn [merchants merchant_aliases update_raw_names].
    now rewrite upsert_alias_fresh by exact Hnone.
  - right. destruct (find _ _) as [m|] eqn:Hfind.
    + left. split; [reflexivity|]. exists m. split; [reflexivity|].
      unfold create_alias. now rewrite upsert_alias_fresh by exact Hnone.
    + right. pose proof (find_none_no_namesake _ _ _ Hfind) as Hex.
      split; [|split; [reflexivity|]].
      * destruct (filter (merchant_named userId (normalizeMerchantName rawName))
                    (merchants db)) as [|m l] eqn:Hf; [reflexivity|]. exfalso.
        assert (Hin : In m (filter (merchant_named userId (normalizeMerchantName rawName))
                              (merchants db))) by (rewrite Hf; now left).
        apply filter_In in Hin.
        assert (existsb (merchant_named userId (normalizeMerchantName rawName))
                  (merchants db) = true) by (apply existsb_exists; eauto).
        congruence.
      * unfold insert_merchant. rewrite Hex.
        unfold create_alias. cbn [merchants merchant_aliases].
        now rewrite upsert_alias_fresh by exact Hnone.
Qed.

Lemma filter_update db merchantId rawName userId name :
  filter (merchant_named userId name) (merchants (update db merchantId rawName)) =
  map (fun m =>
         if String.eqb (m_id m) merchantId
         then {| m_id := m_id m; m_user_id := m_user_id m; m_name := m_name m;
                 m_raw_names := raw_names_update (m_raw_names m) rawName |}
         else m)
      (filter (merchant_named userId name) (merchants db)).
Proof.
  unfold update_raw_names. cbn [merchants].
  induction (merchants db) as [|m ms IH]; [reflexivity|].
  cbn [map filter]. rewrite IH.
  assert (E : forall m', merchant_named userId name
            (if String.eqb (m_id m') merchantId
             then {| m_id := m_id m'; m_user_id := m_user_id m'; m_name := m_name m';
                     m_raw_names := raw_names_update (m_raw_names m') rawName |}
             else m') = merchant_named userId name m').
  { intros m'. now destruct (String.eqb (m_id m') merchantId). }
  rewrite E. now destruct (merchant_named userId name m).
Qed.

Lemma update_In db merchantId rawName m :
  In m (merchants db) ->
  exists m', In m' (merchants (update db merchantId rawName)) /\
             m_id m' = m_id m /\ m_user_id m' = m_user_id m /\ m_name m' = m_name m.
Proof.
  intros Hin. unfold update_raw_names. cbn [merchants].
  eexists. split; [apply in_map; exact Hin|].
  now destruct (String.eqb (m_id m) merchantId).
Qed.

Lemma alias_rows_snoc aliases ms al userId rawName :
  alias_rows {| merchants := ms; merchant_aliases := aliases ++ [al] |} userId rawName =
  filter (alias_matches userId rawName) aliases ++
  (if alias_matches userId rawName al then [al] else []).
Proof. unfold alias_rows. cbn [merchant_aliases]. now rewrite filter_app. Qed.

Lemma alias_matches_new merchantId rawName userId u r :
  alias_matches u r (new_alias merchantId rawName userId) = true ->
  u = userId /\ r = rawName.
Proof.
  unfold alias_matches, new_alias. cbn. intros H.
  apply andb_true_iff in H. destruct H as [H1 H2].
  apply String.eqb_eq in H1, H2. now subst.
Qed.

Lemma aliases_unique_snoc db ms merchantId rawName userId :
  aliases_unique db ->
  alias_rows db userId rawName = [] ->
  aliases_unique {| merchants := ms;
                    merchant_aliases :=
                      merchant_aliases db ++ [new_alias merchantId rawName userId] |}.
Proof.
  intros Hu Hnone u r. rewrite alias_rows_snoc, length_app.
  specialize (Hu u r). unfold alias_rows in Hu, Hnone.
  destruct (alias_matches u r _) eqn:E; cbn [length]; [|lia].
  apply alias_matches_new in E. destruct E as [-> ->].
  rewrite Hnone. cbn [length]. lia.
Qed.

Lemma aliases_resolve_snoc db ms merchantId rawName userId :
  aliases_resolve db ->
  (forall m, In m (merchants db) ->
     exists m', In m' ms /\ m_id m' = m_id m /\ m_user_id m' = m_user_id m) ->
  (exists m, In m ms /\ m_id m = merchantId /\ m_user_id m = userId) ->
  aliases_resolve {| merchants := ms;
                     merchant_aliases :=
                       merchant_aliases db ++ [new_alias merchantId rawName userId] |}.
Proof.
  intros Hr Hkeep Hnew al Hin. cbn [merchants merchant_aliases] in *.
  apply in_app_or in Hin. destruct Hin as [Hin|[<-|[]]].
  - destruct (Hr al Hin) as (m & Hm & Hid & Hu).
    destruct (Hkeep m Hm) as (m' & Hm' & Hid' & Hu').
    exists m'. split; [exact Hm'|]. split; congruence.
  - exact Hnew.
Qed.

Lemma resolve_keeps_store db userId rawName :
  store_ok db ->
  exists merchantId db1,
    resolve db userId rawName = (db1, Returned merchantId) /\
    store_ok db1 /\ owned_by db1 userId merchantId /\
    (forall u id, owned_by db u id -> owned_by db1 u id).
Proof.
  intros [Hau Hnu Har].
  destruct (alias_rows db userId rawName) as [|al [|al' rest]] eqn:Hrows.
  - destruct (resolve_fresh_cases db userId rawName Hrows)
      as [(em & Hnamed & ->)|[(Hs & m & Hfind & ->)|(Hnamed & Hfind & ->)]].
    + assert (Hem : In em (merchants db) /\
                    merchant_named userId (normalizeMerchantName rawName) em = true).
      { apply filter_In. rewrite Hnamed. now left. }
      destruct Hem as [Hem Hmatch].
      apply andb_true_iff in Hmatch. destruct Hmatch as [Hmu _].
      apply String.eqb_eq in Hmu.
      assert (Hkeep : forall m0, In m0 (merchants db) ->
                exists m', In m' (merchants (update db (m_id em) rawName)) /\
                           m_id m' = m_id m0 /\ m_user_id m' = m_user_id m0).
      { intros m0 Hm0. destruct (update_In db (m_id em) rawName m0 Hm0)
          as (m0' & H1 & H2 & H3 & _). eauto. }
      assert (Hown : exists m, In m (merchants (update db (m_id em) rawName)) /\
                               m_id m = m_id em /\ m_user_id m = userId).
      { destruct (Hkeep em Hem) as (em' & Hem' & Hid' & Hu').
        exists em'. split; [exact Hem'|]. split; congruence. }
      eexists. eexists. split; [reflexivity|]. split; [split|split].
      * now apply aliases_unique_snoc.
      * intros u n. cbn [merchants]. rewrite filter_update, length_map. apply Hnu.
      * apply aliases_resolve_snoc; auto.
      * exact Hown.
      * intros u id (m0 & Hm0 & Hid & Hu). cbn [owned_by merchants].
        destruct (Hkeep m0 Hm0) as (m0' & H1 & H2 & H3).
        exists m0'. split; [exact H1|]. split; congruence.
    + apply find_some in Hfind. destruct Hfind as [Hin _].
      apply filter_In in Hin. destruct Hin as [Hin Hmu]. apply String.eqb_eq in Hmu.
      assert (Hown : exists m0, In m0 (merchants db) /\
                                m_id m0 = m_id m /\ m_user_id m0 = userId) by eauto.
      eexists. eexists. split; [reflexivity|]. split; [split|split].
      * now apply aliases_unique_snoc.
      * exact Hnu.
      * apply aliases_resolve_snoc; eauto.
      * exact Hown.
      * intros u id H. exact H.
    + assert (Hown : exists m0, In m0 (merchants db ++ [new_merchant (new_uuid db) userId (normalizeMerchantName rawName) rawName]) /\
                                m_id m0 = new_uuid db /\ m_user_id m0 = userId).
      { exists (new_merchant (new_uuid db) userId (normalizeMerchantName rawName) rawName).
        split; [apply in_or_app; right; now left | split; reflexivity]. }
      eexists. eexists. split; [reflexivity|]. split; [split|split].
      * now apply aliases_unique_snoc.
      * intros u n. cbn [merchants]. rewrite filter_app, length_app.
        specialize (Hnu u n). cbn [filter].
        destruct (merchant_named u n (new_merchant (new_uuid db) userId (normalizeMerchantName rawName) rawName)) eqn:E;
          cbn [length]; [|lia].
        unfold merchant_named, new_merchant in E. cbn in E.
        apply andb_true_iff in E. destruct E as [E1 E2].
        apply String.eqb_eq in E1, E2. subst u n. rewrite Hnamed. cbn [length]. lia.
      * apply aliases_resolve_snoc; auto.
        intros m0 Hm0. exists m0. split; [apply in_or_app; now left | auto].
      * exact Hown.
      * intros u id (m0 & Hm0 & Hid & Hu). exists m0.
        split; [cbn [merchants]; apply in_or_app; now left | auto].
  - exists (a_merchant_id al), db.
    rewrite (resolve_known _ _ _ _ _ _ _ Hrows).
    split; [reflexivity|]. split; [now split|]. split; [|auto].
    assert (Hal : In al (alias_rows db userId rawName)) by (rewrite Hrows; now left).
    apply filter_In in Hal. destruct Hal as [Hal Hm].
    apply andb_true_iff in Hm. destruct Hm as [Hmu _]. apply String.eqb_eq in Hmu.
    destruct (Har al Hal) as (m & Hin & Hid & Hu).
    exists m. split; [exact Hin|]. split; congruence.
  - specialize (Hau userId rawName). rewrite Hrows in Hau. simpl in Hau. lia.
Qed.

Lemma alias_rows_after db ms merchantId rawName userId :
  alias_rows db userId rawName = [] ->
  alias_rows {| merchants := ms;
                merchant_aliases :=
                  merchant_aliases db ++ [new_alias merchantId rawName userId] |}
    userId rawName = [new_alias merchantId rawName userId].
Proof.
  intros Hnone. rewrite alias_rows_snoc. unfold alias_rows in Hnone. rewrite Hnone.
  unfold new_alias. now rewrite alias_matches_refl.
Qed.

Lemma alias_rows_other db ms merchantId rawName userId u r :
  (u, r) <> (userId, rawName) ->
  alias_rows {| merchants := ms;
                merchant_aliases :=
                  merchant_aliases db ++ [new_alias merchantId rawName userId] |} u r =
  alias_rows db u r.
Proof.
  intros Hne. rewrite alias_rows_snoc.
  destruct (alias_matches u r _) eqn:E; [|apply app_nil_r].
  apply alias_matches_new in E. destruct E as [-> ->]. contradiction.
Qed.

Lemma new_merchant_named db userId rawName :
  merchant_named userId (normalizeMerchantName rawName)
    (new_merchant (new_uuid db) userId (normalizeMerchantName rawName) rawName) = true.
Proof. unfold merchant_named, new_merchant; cbn. now rewrite !String.eqb_refl. Qed.

(** X17: two raw names without aliases that normalize to the same name
    resolve, one after the other, to the same merchant. *)
Theorem same_normalized_name_same_merchant db userId rawName1 rawName2 :
  normalizeMerchantName rawName1 = normalizeMerchantName rawName2 ->
  alias_rows db userId rawName1 = [] ->
  alias_rows db userId rawName2 = [] ->
  exists merchantId db1,
    resolve db userId rawName1 = (db1, Returned merchantId) /\
    exists db2, resolve db1 userId rawName2 = (db2, Returned merchantId).
Proof.
  intros Hname H1 H2.
  destruct (string_dec rawName2 rawName1) as [->|Hne].
  { destruct (resolve_fresh_cases db userId rawName1 H1)
      as [(em & _ & ->)|[(_ & m & _ & ->)|(_ & _ & ->)]];
      eexists; eexists; (split; [reflexivity|]); eexists;
      apply (resolve_known _ _ _ _ _ _ (new_alias _ rawName1 userId));
      now apply alias_rows_after. }
  assert (Hpair : (userId, rawName2) <> (userId, rawName1)) by congruence.
  destruct (resolve_fresh_cases db userId rawName1 H1)
    as [(em & Hnamed & ->)|[(Hs & m & Hfind & ->)|(Hnamed & Hfind & ->)]];
    cbv zeta in *;
    eexists; eexists; (split; [reflexivity|]);
    match goal with
    | |- context [resolve ?d userId rawName2] =>
        assert (Hfresh : alias_rows d userId rawName2 = [])
          by (rewrite alias_rows_other; assumption);
        destruct (resolve_fresh_cases d userId rawName2 Hfresh)
          as [(em' & Hnamed' & ->)|[(Hs' & m' & Hfind' & ->)|(Hnamed' & Hfind' & ->)]];
        cbv zeta in *; cbn [merchants] in *; rewrite <- Hname in *
    end.
  - rewrite filter_update, Hnamed in Hnamed'. cbn [map] in Hnamed'.
    rewrite String.eqb_refl in Hnamed'. inversion Hnamed' as [E].
    eexists; reflexivity.
  - rewrite filter_update, Hnamed in Hs'. discriminate Hs'.
  - rewrite filter_update, Hnamed in Hnamed'. discriminate Hnamed'.
  - rewrite Hnamed' in Hs. discriminate Hs.
  - rewrite Hfind in Hfind'. inversion Hfind'; subst m'. eexists; reflexivity.
  - rewrite Hfind in Hfind'. discriminate Hfind'.
  - rewrite filter_app, Hnamed in Hnamed'. cbn [filter app] in Hnamed'.
    rewrite new_merchant_named in Hnamed'. inversion Hnamed' as [E].
    eexists; reflexivity.
  - rewrite filter_app, Hnamed in Hs'. cbn [filter app] in Hs'.
    rewrite new_merchant_named in Hs'. discriminate Hs'.
  - rewrite filter_app, Hnamed in Hnamed'. cbn [filter app] in Hnamed'.
    rewrite new_merchant_named in Hnamed'. discriminate Hnamed'.
Qed.

Lemma resolve_twice db userId rawName :
  aliases_unique db ->
  exists merchantId db1,
    resolve db userId rawName = (db1, Returned merchantId) /\
    resolve db1 userId rawName = (db1, Returned merchantId).
Proof.
  intros Hu. destruct (alias_rows db userId rawName) as [|al [|al' rest]] eqn:Hrows.
  - destruct (resolve_fresh_cases db userId rawName Hrows)
      as [(em & _ & ->)|[(_ & m & _ & ->)|(_ & _ & ->)]];
      eexists; eexists; (split; [reflexivity|]);
      apply (resolve_known _ _ _ _ _ _ (new_alias _ rawName userId));
      now apply alias_rows_after.
  - exists (a_merchant_id al), db.
    split; now apply resolve_known.
  - specialize (Hu userId rawName). rewrite Hrows in Hu. simpl in Hu. lia.
Qed.

(** X16: on tables where aliases are unique per user and raw name, merchant
    names are unique per user, and every alias points to a merchant of its
    own user, [findOrCreateMerchant] never throws, leaves the tables in that
    state, returns the id of a merchant of the calling user, and removes no
    merchant. *)
Theorem findOrCreateMerchant_keeps_store db userId rawName :
  store_ok db ->
  exists merchantId db1,
    resolve db userId rawName = (db1, Returned merchantId) /\
    store_ok db1 /\ owned_by db1 userId merchantId /\
    (forall u id, owned_by db u id -> owned_by db1 u id).
Proof. apply resolve_keeps_store. Qed.

End StoreFacts.

Lemma store_ok_empty : store_ok {| merchants := []; merchant_aliases := [] |}.
Proof.
  split.
  - intros u r. cbn. lia.
  - intros u n. cbn. lia.
  - intros al [].
Qed.

Lemma findOrCreateMerchant_keeps_store_witness :
  let resolve :=
    findOrCreateMerchant (fun raw => toLowerCase raw) (fun _ => "m1"%string)
      (fun names raw => names ++ [raw]) in
  let db := {| merchants := []; merchant_aliases := [] |} in
  exists merchantId db1,
    resolve db "u1"%string "NETFLIX.COM"%string = (db1, Returned merchantId) /\
    store_ok db1 /\ owned_by db1 "u1" merchantId /\
    (forall u id, owned_by db u id -> owned_by db1 u id).
Proof.
  cbv zeta. apply findOrCreateMerchant_keeps_store. exact store_ok_empty.
Defined.

Lemma same_normalized_name_same_merchant_witness :
  let resolve :=
    findOrCreateMerchant (fun raw => toLowerCase raw) (fun _ => "m1"%string)
      (fun names raw => names ++ [raw]) in
  let db := {| merchants := []; merchant_aliases := [] |} in
  exists merchantId db1,
    resolve db "u1"%string "NETFLIX"%string = (db1, Returned merchantId) /\
    exists db2, resolve db1 "u1"%string "Netflix"%string = (db2, Returned merchantId).
Proof.
  cbv zeta. apply same_normalized_name_same_merchant; reflexivity.
Defined.

End MerchantNormalizerProperties.

(** ** CSV ingestion: rows, fields, columns, dates and amounts *)

Module CsvParserProperties.
Import JS JSFacts ListFacts Str CsvParser CsvParserFacts CsvShapes.
Local Open Scope nat_scope.

Lemma chars_of_chars l : chars (of_chars l) = l.
Proof. apply list_ascii_of_string_of_list_ascii. Qed.

Section Accounting.
Variable Date_iso : string -> option string.
Variable Date_time : string -> Z.

Lemma process_row_counts mapping delimiter i row st :
  is_empty (trim row) = false ->
  accounted (process_row Date_iso mapping delimiter i row st) = S (accounted st) /\
  (length (errors st) <= skipped st ->
   length (errors (process_row Date_iso mapping delimiter i row st)) <=
   skipped (process_row Date_iso mapping delimiter i row st)).
Proof.
  intros Hrow. unfold process_row, accounted. rewrite Hrow.
  destruct (row_date _ _ _) as [date|];
    [destruct (is_empty date);
     [|destruct (is_empty (row_description _ _));
       [|destruct (row_amount _ _) as [amt|];
         [destruct (JS.is_zero amt)|]]]|];
    cbn [skip skip_with_error push transactions errors skipped];
    rewrite ?length_app; cbn [length]; lia.
Qed.

Lemma row_loop_counts mapping delimiter rows :
  forall i st,
  Forall (fun row => is_empty (trim row) = false) rows ->
  accounted (row_loop Date_iso mapping delimiter i rows st) =
    accounted st + length rows /\
  (length (errors st) <= skipped st ->
   length (errors (row_loop Date_iso mapping delimiter i rows st)) <=
   skipped (row_loop Date_iso mapping delimiter i rows st)).
Proof.
  induction rows as [|row rows IH]; intros i st Hall; cbn [row_loop length].
  - split; [lia | auto].
  - inversion Hall as [|? ? Hrow Hrest]; subst.
    destruct (process_row_counts mapping delimiter i row st Hrow) as [Hc He].
    destruct (IH (S i) (process_row Date_iso mapping delimiter i row st) Hrest)
      as [Hc' He'].
    split; [lia | auto].
Qed.

Lemma Forall_skipn {A} (P : A -> Prop) n (l : list A) :
  Forall P l -> Forall P (skipn n l).
Proof.
  revert l; induction n as [|n IH]; intros l H; [exact H|].
  destruct l; [constructor|]. inversion H; subst. now apply IH.
Qed.

(** X18: [parseCSV] either fails as a whole, with no transaction, nothing
    skipped and one error; or every non-blank line, but for at most one
    header line, ends up as exactly one transaction or one skipped row, and
    there are no more error messages than skipped rows. *)
Theorem parseCSV_accounts_for_rows (csvContent : string) :
  let result := parseCSV Date_iso Date_time csvContent in
  let lines :=
    filter (fun line => negb (is_empty (trim line))) (split_lines csvContent) in
  (transactions result = [] /\ skipped result = 0 /\ length (errors result) = 1) \/
  (exists header,
     header <= 1 /\
     length (transactions result) + skipped result + header = length lines /\
     length (errors result) <= skipped result).
Proof.
  cbv zeta. unfold parseCSV.
  set (lines := filter _ (split_lines csvContent)).
  assert (Hall : Forall (fun row => is_empty (trim row) = false) lines).
  { apply Forall_forall. intros row Hrow. apply filter_In in Hrow.
    destruct Hrow as [_ Hrow]. now apply negb_true_iff in Hrow. }
  destruct lines as [|firstLine rest] eqn:El; [left; repeat split|].
  rewrite <- El in *.
  set (isData := existsb looksLikeDate _ && existsb looksLikeAmount _).
  destruct (if isData then _ else _) as [mapping|]; [|left; repeat split].
  right. exists (if isData then 0 else 1).
  cbn [transactions errors skipped].
  destruct (row_loop_counts mapping (detectDelimiter lines)
              (skipn (if isData then 0 else 1) lines)
              (if isData then 0 else 1)
              {| transactions := []; errors := []; skipped := 0 |}
              (Forall_skipn _ _ _ Hall)) as [Hc He].
  unfold accounted in Hc. cbn [transactions errors skipped length] in Hc, He.
  rewrite sort_by_length, length_skipn in *.
  split; [destruct isData; lia|]. split; [|apply He; lia].
  rewrite Hc. destruct isData; [lia|]. rewrite El. cbn [length]. lia.
Qed.

End Accounting.

Lemma is_char_eq n c : n < 256 -> is_char n c = true <-> c = ascii_of_nat n.
Proof.
  intros Hn. unfold is_char, code. rewrite Nat.eqb_eq. split.
  - intros <-. now rewrite ascii_nat_embedding.
  - intros ->. now apply nat_ascii_embedding.
Qed.

Lemma split_on_nonempty sep l : split_on sep l <> [].
Proof.
  induction l as [|c l IH]; simpl; [discriminate|].
  destruct (split_on sep l); [discriminate|]. destruct (sep c); discriminate.
Qed.

Lemma split_loop_unquoted delimiter cs current result :
  ~ In dquote cs ->
  split_loop delimiter cs current false result =
  result ++
  match split_on (fun c => Ascii.eqb c delimiter) cs with
  | piece :: pieces => field_of (current ++ piece) :: map field_of pieces
  | [] => []
  end.
Proof.
  revert current result; induction cs as [|c cs IH]; intros current result Hq.
  - cbn [split_loop split_on map]. now rewrite app_nil_r.
  - assert (Hc : is_char 34 c = false).
    { apply not_true_iff_false. intros H. apply is_char_eq in H; [|lia].
      apply Hq. left. now rewrite H. }
    assert (Hq' : ~ In dquote cs) by (intros H; apply Hq; now right).
    cbn [split_loop split_on]. rewrite Hc. cbn [negb]. rewrite andb_true_r.
    pose proof (split_on_nonempty (fun c => Ascii.eqb c delimiter) cs) as Hne.
    destruct (split_on _ cs) as [|piece pieces] eqn:E; [contradiction|].
    destruct (Ascii.eqb c delimiter).
    + rewrite (IH [] _ Hq'). cbn [map app].
      rewrite app_nil_r, <- app_assoc. reflexivity.
    + rewrite (IH _ _ Hq'). now rewrite <- app_assoc.
Qed.

Lemma length_split_on sep l : length (split_on sep l) = S (length (filter sep l)).
Proof.
  induction l as [|c l IH]; [reflexivity|]. cbn [split_on filter].
  destruct (split_on sep l) as [|p ps] eqn:E; [discriminate IH|].
  destruct (sep c); cbn [length] in *; lia.
Qed.

(** X20: on a line without double quotes, [splitCSVLine] cuts at every
    delimiter and trims each piece, so there is one more field than there
    are delimiters. *)
Theorem splitCSVLine_unquoted (line : string) (delimiter : ascii) :
  ~ In dquote (chars line) ->
  splitCSVLine line delimiter =
    map (fun piece => trim (of_chars piece))
        (split_on (fun c => Ascii.eqb c delimiter) (chars line)) /\
  length (splitCSVLine line delimiter) = S (count_char delimiter line).
Proof.
  intros Hq. unfold splitCSVLine.
  rewrite (split_loop_unquoted delimiter (chars line) [] [] Hq). cbn [app].
  pose proof (length_split_on (fun c => Ascii.eqb c delimiter) (chars line)) as Hlen.
  destruct (split_on _ (chars line)) as [|piece pieces] eqn:E; [discriminate Hlen|].
  assert (Hf : forall p, field_of p = trim (of_chars p)).
  { intros p. unfold field_of, trim, chars, of_chars.
    now rewrite list_ascii_of_string_of_list_ascii. }
  split.
  - cbn [map]. rewrite Hf. f_equal. apply map_ext. exact Hf.
  - cbn [length] in *. rewrite length_map. unfold count_char.
    rewrite Hlen. f_equal. f_equal. apply filter_ext. intros c. apply Ascii.eqb_sym.
Qed.

Lemma splitCSVLine_unquoted_witness :
  splitCSVLine "a, b ,c" comma =
    map (fun piece => trim (of_chars piece))
        (split_on (fun c => Ascii.eqb c comma) (chars "a, b ,c")) /\
  length (splitCSVLine "a, b ,c" comma) = S (count_char comma "a, b ,c").
Proof.
  apply splitCSVLine_unquoted. vm_compute. intuition discriminate.
Defined.

Local Open Scope Z_scope.

Lemma is_unset_true i : is_unset i = true <-> i = -1.
Proof. unfold is_unset. apply Z.eqb_eq. Qed.

Lemma is_unset_false i : is_unset i = false <-> i <> -1.
Proof. unfold is_unset. apply Z.eqb_neq. Qed.

Lemma field_at_nth (pre : list string) f post :
  field_at (pre ++ f :: post) (Z.of_nat (length pre)) = Some f.
Proof.
  unfold field_at. destruct (Z.ltb_spec (Z.of_nat (length pre)) 0); [lia|].
  rewrite Nat2Z.id, nth_error_app2 by lia. now rewrite Nat.sub_diag.
Qed.

Lemma field_at_app (pre post : list string) i f :
  field_at pre i = Some f -> field_at (pre ++ post) i = Some f.
Proof.
  unfold field_at. destruct (i <? 0); [discriminate|]. intros H.
  rewrite nth_error_app1; [exact H|]. apply nth_error_Some. congruence.
Qed.

Lemma field_at_range fields i f :
  field_at fields i = Some f -> 0 <= i < Z.of_nat (length fields).
Proof.
  unfold field_at. destruct (Z.ltb_spec i 0) as [|Hi]; [discriminate|]. intros Hf.
  assert (Z.to_nat i < length fields)%nat by (apply nth_error_Some; congruence).
  lia.
Qed.

Lemma set_to_app P seen f i : set_to P seen i -> set_to P (seen ++ [f]) i.
Proof.
  intros [->|[g [Hg HP]]]; [now left|]. right. exists g.
  split; [now apply field_at_app | exact HP].
Qed.

Lemma set_to_new (P : string -> Prop) seen f :
  P f -> set_to P (seen ++ [f]) (Z.of_nat (length seen)).
Proof. intros HP. right. exists f. split; [apply field_at_nth | exact HP]. Qed.

Lemma set_to_lt P seen i : set_to P seen i -> i < Z.of_nat (length seen).
Proof.
  intros [->|[g [Hg _]]]; [lia|]. apply field_at_range in Hg. lia.
Qed.

Lemma data_step_inv seen f ix :
  data_inv seen ix ->
  data_inv (seen ++ [f]) (data_step f (Z.of_nat (length seen)) ix).
Proof.
  destruct ix as [[d s] a]. intros (Hd & Hs & Ha & Hds & Hsa).
  pose proof (set_to_lt _ _ _ Hd). pose proof (set_to_lt _ _ _ Hs).
  pose proof (set_to_lt _ _ _ Ha).
  unfold data_step.
  destruct (is_unset d && looksLikeDate f) eqn:E1.
  { apply andb_true_iff in E1. destruct E1 as [E1 E1'].
    repeat split; try (now apply set_to_app); try lia.
    now apply set_to_new. }
  destruct (is_unset a && looksLikeAmount f) eqn:E2.
  { apply andb_true_iff in E2. destruct E2 as [E2 E2'].
    repeat split; try (now apply set_to_app); try lia.
    now apply set_to_new. }
  destruct (is_unset s && (2 <? String.length f)%nat && negb (looksLikeDate f)
            && negb (looksLikeAmount f)) eqn:E3.
  { apply andb_true_iff in E3. destruct E3 as [E3 E3'].
    apply andb_true_iff in E3. destruct E3 as [E3 E3''].
    apply andb_true_iff in E3. destruct E3 as [E3 E3'''].
    apply negb_true_iff in E3', E3''. apply Nat.ltb_lt in E3'''.
    repeat split; try (now apply set_to_app); try lia.
    apply set_to_new. repeat split; assumption. }
  repeat split; try (now apply set_to_app); try lia.
Qed.

Lemma data_loop_inv fields : forall seen ix,
  data_inv seen ix ->
  data_inv (seen ++ fields) (data_loop fields (Z.of_nat (length seen)) ix).
Proof.
  induction fields as [|f fields IH]; intros seen ix Hinv; cbn [data_loop].
  - now rewrite app_nil_r.
  - replace (seen ++ f :: fields) with ((seen ++ [f]) ++ fields)
      by (now rewrite <- app_assoc).
    replace (Z.of_nat (length seen) + 1) with (Z.of_nat (length (seen ++ [f])))
      by (rewrite length_app; cbn [length]; lia).
    apply IH. now apply data_step_inv.
Qed.

Lemma detectColumnsFromData_fields (fields : list string) (mapping : ColumnMapping) :
  detectColumnsFromData fields = Some mapping ->
  (exists f, field_at fields (dateIndex mapping) = Some f /\ looksLikeDate f = true) /\
  (exists f, field_at fields (amountIndex mapping) = Some f /\
             looksLikeAmount f = true) /\
  (exists f, field_at fields (descriptionIndex mapping) = Some f /\
             (2 < String.length f)%nat /\
             looksLikeDate f = false /\ looksLikeAmount f = false) /\
  dateIndex mapping <> amountIndex mapping /\
  dateIndex mapping <> descriptionIndex mapping /\
  descriptionIndex mapping <> amountIndex mapping /\
  debitIndex mapping = None /\ creditIndex mapping = None.
Proof.
  unfold detectColumnsFromData.
  pose proof (data_loop_inv fields [] (-1, -1, -1)) as Hinv.
  cbn [app length Z.of_nat] in Hinv.
  destruct (data_loop fields 0 (-1, -1, -1)) as [[d s] a].
  destruct (is_unset d) eqn:Ed; [discriminate|].
  destruct (is_unset s) eqn:Es; [discriminate|].
  destruct (is_unset a) eqn:Ea; [discriminate|].
  cbn [orb]. intros H; inversion H; subst; clear H.
  cbn [dateIndex descriptionIndex amountIndex debitIndex creditIndex].
  apply is_unset_false in Ed, Es, Ea.
  destruct Hinv as (Hd & Hs & Ha & Hds & Hsa).
  { repeat split; try (now left); intros; congruence. }
  destruct Hd as [?|Hd]; [contradiction|].
  destruct Hs as [?|(f & Hf & H1 & H2 & H3)]; [contradiction|].
  destruct Ha as [?|Ha]; [contradiction|].
  specialize (Hds Ed). specialize (Hsa Es).
  repeat split; try tauto; eauto.
Qed.

(** X21: a mapping that [detectColumnsFromData] returns points to three
    different fields of the row: one that looks like a date, one that looks
    like an amount, and one longer than two characters that looks like
    neither; it has no debit or credit column. *)
Theorem detectColumnsFromData_sound (fields : list string) (mapping : ColumnMapping) :
  detectColumnsFromData fields = Some mapping ->
  (exists f, field_at fields (dateIndex mapping) = Some f /\ looksLikeDate f = true) /\
  (exists f, field_at fields (amountIndex mapping) = Some f /\
             looksLikeAmount f = true) /\
  (exists f, field_at fields (descriptionIndex mapping) = Some f /\
             (2 < String.length f)%nat /\
             looksLikeDate f = false /\ looksLikeAmount f = false) /\
  dateIndex mapping <> amountIndex mapping /\
  dateIndex mapping <> descriptionIndex mapping /\
  descriptionIndex mapping <> amountIndex mapping /\
  debitIndex mapping = None /\ creditIndex mapping = None.
Proof. apply detectColumnsFromData_fields. Qed.

Lemma detectColumnsFromData_sound_witness :
  let fields := ["01/15/2024"; "Netflix"; "15.99"]%string in
  let mapping := {| dateIndex := 0; descriptionIndex := 1; amountIndex := 2;
                    debitIndex := None; creditIndex := None |} in
  (exists f, field_at fields (dateIndex mapping) = Some f /\ looksLikeDate f = true) /\
  (exists f, field_at fields (amountIndex mapping) = Some f /\
             looksLikeAmount f = true) /\
  (exists f, field_at fields (descriptionIndex mapping) = Some f /\
             (2 < String.length f)%nat /\
             looksLikeDate f = false /\ looksLikeAmount f = false) /\
  dateIndex mapping <> amountIndex mapping /\
  dateIndex mapping <> descriptionIndex mapping /\
  descriptionIndex mapping <> amountIndex mapping /\
  debitIndex mapping = None /\ creditIndex mapping = None.
Proof.
  cbv zeta. apply (detectColumnsFromData_sound ["01/15/2024"; "Netflix"; "15.99"]%string).
  vm_compute. reflexivity.
Defined.

Lemma unset_or_below_mono n m i : n <= m -> unset_or_below n i -> unset_or_below m i.
Proof. unfold unset_or_below. lia. Qed.

Lemma header_step_inv h n ix :
  0 <= n -> header_inv n ix -> header_inv (n + 1) (header_step h n ix).
Proof.
  intros Hn (H1 & H2 & H3 & H4 & H5).
  assert (Hnew : unset_or_below (n + 1) n) by (right; lia).
  assert (Hmono : forall i, unset_or_below n i -> unset_or_below (n + 1) i)
    by (intros i; apply unset_or_below_mono; lia).
  unfold header_step, header_inv.
  cbn [i_date i_description i_amount i_debit i_credit].
  repeat split;
    match goal with
    | |- unset_or_below _ (if ?b then _ else _) => destruct b; auto
    end.
Qed.

Lemma header_loop_inv hs : forall n ix,
  0 <= n -> header_inv n ix ->
  header_inv (n + Z.of_nat (length hs)) (header_loop hs n ix).
Proof.
  induction hs as [|h hs IH]; intros n ix Hn Hinv; cbn [header_loop length].
  - now rewrite Z.add_0_r.
  - replace (n + Z.of_nat (S (length hs))) with ((n + 1) + Z.of_nat (length hs)) by lia.
    apply IH; [lia|]. now apply header_step_inv.
Qed.

(** X22: a mapping that [detectColumns] returns points inside the header
    row: the date and description columns exist, the debit and credit
    columns exist when present, and the amount column exists unless it is
    unset (-1) while both a debit and a credit column are present. *)
Theorem detectColumns_in_range (headers : list string) (mapping : ColumnMapping) :
  detectColumns headers = Some mapping ->
  let n := Z.of_nat (length headers) in
  0 <= dateIndex mapping < n /\
  0 <= descriptionIndex mapping < n /\
  (0 <= amountIndex mapping < n \/
   amountIndex mapping = -1 /\
   exists d c, debitIndex mapping = Some d /\ creditIndex mapping = Some c) /\
  (forall d, debitIndex mapping = Some d -> 0 <= d < n) /\
  (forall c, creditIndex mapping = Some c -> 0 <= c < n).
Proof.
  unfold detectColumns. cbv zeta.
  pose proof (header_loop_inv (map lowerHeader headers) 0
                {| i_date := -1; i_description := -1; i_amount := -1;
                   i_debit := -1; i_credit := -1 |} (Z.le_refl 0)) as Hinv.
  rewrite length_map, Z.add_0_l in Hinv.
  destruct (header_loop _ _ _) as [d s a db cr].
  cbn [i_date i_description i_amount i_debit i_credit] in *.
  destruct Hinv as (Hd & Hs & Ha & Hdb & Hcr).
  { unfold header_inv, unset_or_below; cbn. tauto. }
  unfold header_inv, unset_or_below in *.
  cbn [i_date i_description i_amount i_debit i_credit] in *.
  assert (Hdebit : forall x, (if 0 <=? db then Some db else None) = Some x ->
                             0 <= x < Z.of_nat (length headers)).
  { intros x. destruct (Z.leb_spec 0 db); intros Hx; inversion Hx; subst. lia. }
  assert (Hcredit : forall x, (if 0 <=? cr then Some cr else None) = Some x ->
                              0 <= x < Z.of_nat (length headers)).
  { intros x. destruct (Z.leb_spec 0 cr); intros Hx; inversion Hx; subst. lia. }
  destruct (is_unset d && (3 <=? length headers)%nat) eqn:Epos.
  - apply andb_true_iff in Epos. destruct Epos as [_ Hlen].
    apply Nat.leb_le in Hlen. cbn [is_unset Z.eqb orb andb].
    intros H; inversion H; subst; clear H.
    cbn [dateIndex descriptionIndex amountIndex debitIndex creditIndex].
    split; [lia|]. split; [lia|]. split; [left; lia|]. split; assumption.
  - destruct (is_unset d) eqn:Ed; [discriminate|].
    destruct (is_unset s) eqn:Es; [discriminate|]. cbn [orb].
    apply is_unset_false in Ed, Es.
    intros H; inversion H; subst; clear H.
    cbn [dateIndex descriptionIndex amountIndex debitIndex creditIndex].
    split; [lia|]. split; [lia|]. split; [|split; assumption].
    destruct (is_unset a) eqn:Ea; cbn [andb].
    + apply is_unset_true in Ea.
      destruct (is_unset db) eqn:Edb; cbn [orb]; [left; lia|].
      destruct (is_unset cr) eqn:Ecr; [left; lia|].
      apply is_unset_false in Edb, Ecr. right. split; [exact Ea|].
      exists db, cr.
      destruct (Z.leb_spec 0 db); [|lia]. destruct (Z.leb_spec 0 cr); [|lia].
      split; reflexivity.
    + apply is_unset_false in Ea. left. lia.
Qed.

Lemma detectColumns_in_range_witness :
  let mapping := {| dateIndex := 0; descriptionIndex := 1; amountIndex := 2;
                    debitIndex := None; creditIndex := None |} in
  0 <= dateIndex mapping < 3 /\
  0 <= descriptionIndex mapping < 3 /\
  (0 <= amountIndex mapping < 3 \/
   amountIndex mapping = -1 /\
   exists d c, debitIndex mapping = Some d /\ creditIndex mapping = Some c) /\
  (forall d, debitIndex mapping = Some d -> 0 <= d < 3) /\
  (forall c, creditIndex mapping = Some c -> 0 <= c < 3).
Proof.
  cbv zeta. apply (detectColumns_in_range ["Date"; "Description"; "Amount"]%string).
  vm_compute. reflexivity.
Defined.

Local Open Scope nat_scope.

Lemma dropWhile_nil p l : dropWhile p l = [] <-> forallb p l = true.
Proof.
  induction l as [|c l IH]; simpl; [tauto|].
  destruct (p c); simpl; [exact IH|]. split; discriminate.
Qed.

Lemma dropWhile_incl p l c : In c (dropWhile p l) -> In c l.
Proof.
  induction l as [|x l IH]; simpl; [tauto|].
  destruct (p x); [right; auto | simpl; tauto].
Qed.

Lemma trim_chars_nil l : trim_chars l = [] <-> forallb is_space l = true.
Proof.
  unfold trim_chars. split.
  - intros H. apply (f_equal (@rev ascii)) in H. rewrite rev_involutive in H.
    cbn [rev] in H. apply dropWhile_nil in H.
    destruct (dropWhile is_space l) eqn:E; [now apply dropWhile_nil|].
    exfalso. rewrite forallb_forall in H.
    assert (Ha : In a (rev (a :: l0))) by (apply in_rev; rewrite rev_involutive; now left).
    specialize (H a Ha).
    clear -E H. induction l as [|x l IH]; [discriminate|].
    simpl in E. destruct (is_space x) eqn:Ex; [auto|]. inversion E; subst. congruence.
  - intros H. apply dropWhile_nil in H. now rewrite H.
Qed.

Lemma is_empty_of_chars l : is_empty (of_chars l) = true <-> l = [].
Proof. destruct l; simpl; split; intros H; congruence. Qed.

Lemma blank_line s : is_empty (trim s) = true <-> forallb is_space (chars s) = true.
Proof. unfold trim. rewrite is_empty_of_chars. apply trim_chars_nil. Qed.

Lemma split_on_In sep l piece c : In piece (split_on sep l) -> In c piece -> In c l.
Proof.
  revert piece; induction l as [|x l IH]; intros piece Hp Hc.
  - simpl in Hp. destruct Hp as [<-|[]]. destruct Hc.
  - cbn [split_on] in Hp. destruct (split_on sep l) as [|p ps] eqn:E.
    + destruct Hp as [<-|[]]. destruct Hc as [<-|[]]. now left.
    + destruct (sep x).
      * destruct Hp as [<-|Hp]; [destruct Hc|]. right. now apply (IH piece).
      * destruct Hp as [<-|Hp].
        -- destruct Hc as [<-|Hc]; [now left|]. right. apply (IH p); [now left | exact Hc].
        -- right. apply (IH piece); [now right | exact Hc].
Qed.

Lemma split_on_covers sep l c :
  In c l -> sep c = false -> exists piece, In piece (split_on sep l) /\ In c piece.
Proof.
  induction l as [|x l IH]; intros Hc Hs; [destruct Hc|].
  cbn [split_on]. pose proof (split_on_nonempty sep l) as Hne.
  destruct (split_on sep l) as [|p ps] eqn:E; [contradiction|].
  destruct Hc as [->|Hc].
  - rewrite Hs. exists (c :: p). split; now left.
  - destruct (IH Hc Hs) as [piece [Hp Hin]].
    destruct (sep x).
    + exists piece. split; [now right | exact Hin].
    + destruct Hp as [<-|Hp].
      * exists (x :: p). split; [now left | now right].
      * exists piece. split; [now right | exact Hin].
Qed.

Lemma removelast_In {A} (l : list A) x : In x (removelast l) -> In x l.
Proof.
  induction l as [|y l IH]; [tauto|]. cbn [removelast].
  destruct l; [intros []|]. intros [<-|H]; [now left | right; auto].
Qed.

Lemma removelast_keeps (l : list ascii) c :
  last_is 13 l = true -> In c l -> is_space c = false -> In c (removelast l).
Proof.
  intros Hl Hc Hs. destruct (exists_last (l := l)) as [l' [y E]].
  { intros ->. destruct Hc. }
  subst l. rewrite removelast_last.
  apply in_app_or in Hc. destruct Hc as [Hc|[<-|[]]]; [exact Hc|]. exfalso.
  unfold last_is in Hl. rewrite rev_unit in Hl. cbn [first_is] in Hl.
  apply is_char_eq in Hl; [|lia]. subst y. vm_compute in Hs. discriminate.
Qed.

Lemma strip_cr_In pieces piece' c :
  In piece' (strip_cr pieces) -> In c piece' -> exists piece, In piece pieces /\ In c piece.
Proof.
  revert piece'; induction pieces as [|p [|q rest] IH]; intros piece' Hp Hc.
  - destruct Hp.
  - exists piece'. split; assumption.
  - change (strip_cr (p :: q :: rest)) with
      ((if last_is 13 p then removelast p else p) :: strip_cr (q :: rest)) in Hp.
    destruct Hp as [<-|Hp].
    + exists p. split; [now left|]. destruct (last_is 13 p); [now apply removelast_In | exact Hc].
    + destruct (IH piece' Hp Hc) as [piece [H1 H2]]. exists piece. split; [now right | exact H2].
Qed.

Lemma strip_cr_covers pieces piece c :
  In piece pieces -> In c piece -> is_space c = false ->
  exists piece', In piece' (strip_cr pieces) /\ In c piece'.
Proof.
  induction pieces as [|p [|q rest] IH]; intros Hp Hc Hs.
  - destruct Hp.
  - exists piece. split; assumption.
  - change (strip_cr (p :: q :: rest)) with
      ((if last_is 13 p then removelast p else p) :: strip_cr (q :: rest)).
    destruct Hp as [->|Hp].
    + eexists. split; [now left|].
      destruct (last_is 13 piece) eqn:E; [now apply removelast_keeps | exact Hc].
    + destruct (IH Hp Hc Hs) as [piece' [H1 H2]].
      exists piece'. split; [now right | exact H2].
Qed.

Lemma lines_blank_iff csvContent :
  filter (fun line => negb (is_empty (trim line))) (split_lines csvContent) = [] <->
  forallb is_space (chars csvContent) = true.
Proof.
  split.
  - intros Hnil. apply forallb_forall. intros c Hc.
    destruct (is_space c) eqn:Hs; [reflexivity|]. exfalso.
    assert (Hlf : is_char 10 c = false).
    { apply not_true_iff_false. intros H. apply is_char_eq in H; [|lia].
      subst c. vm_compute in Hs. discriminate. }
    destruct (split_on_covers _ _ _ Hc Hlf) as [piece [Hp Hin]].
    destruct (strip_cr_covers _ _ _ Hp Hin Hs) as [piece' [Hp' Hin']].
    assert (Hline : In (of_chars piece')
                      (filter (fun line => negb (is_empty (trim line)))
                              (split_lines csvContent))).
    { apply filter_In. split; [unfold split_lines; now apply in_map|].
      apply negb_true_iff, not_true_iff_false. intros Hb.
      apply blank_line in Hb. rewrite chars_of_chars, forallb_forall in Hb.
      specialize (Hb c Hin'). congruence. }
    rewrite Hnil in Hline. destruct Hline.
  - intros Hall. apply filter_none. intros line Hline.
    apply negb_false_iff, blank_line, forallb_forall. intros c Hc.
    unfold split_lines in Hline. apply in_map_iff in Hline.
    destruct Hline as [piece' [<- Hp']]. rewrite chars_of_chars in Hc.
    destruct (strip_cr_In _ _ _ Hp' Hc) as [piece [Hp Hin]].
    rewrite forallb_forall in Hall. apply Hall.
    now apply (split_on_In (is_char 10) _ piece).
Qed.

Section Blank.
Variable Date_iso : string -> option string.
Variable Date_time : string -> Z.

(** X19: [parseCSV] answers that the file is empty exactly when the text
    holds nothing but white space. *)
Theorem parseCSV_empty_iff (csvContent : string) :
  parseCSV Date_iso Date_time csvContent =
    {| transactions := []; errors := ["CSV file is empty"%string]; skipped := 0 |} <->
  forallb is_space (chars csvContent) = true.
Proof.
  rewrite <- lines_blank_iff. unfold parseCSV.
  set (lines := filter _ (split_lines csvContent)).
  assert (Hall : Forall (fun row => is_empty (trim row) = false) lines).
  { apply Forall_forall. intros row Hrow. apply filter_In in Hrow.
    destruct Hrow as [_ Hrow]. now apply negb_true_iff in Hrow. }
  destruct lines as [|firstLine rest] eqn:El; [tauto|].
  rewrite <- El in *. split; [|rewrite El; discriminate].
  intros H. exfalso.
  set (isData := existsb looksLikeDate _ && existsb looksLikeAmount _) in H.
  destruct (if isData then _ else _) as [mapping|]; [|discriminate H].
  destruct (row_loop_counts Date_iso mapping (detectDelimiter lines)
              (skipn (if isData then 0 else 1) lines)
              (if isData then 0 else 1)
              {| transactions := []; errors := []; skipped := 0 |}
              (Forall_skipn _ _ _ Hall)) as [_ He].
  cbn [errors skipped length] in He. specialize (He (Nat.le_refl 0)).
  pose proof (f_equal errors H) as Herr. pose proof (f_equal skipped H) as Hsk.
  cbn [errors skipped] in Herr, Hsk. rewrite Herr, Hsk in He. cbn [length] in He. lia.
Qed.

End Blank.

Lemma of_chars_chars s : of_chars (chars s) = s.
Proof. apply string_of_list_ascii_of_string. Qed.

Lemma split_on_none sep l : forallb (fun c => negb (sep c)) l = true -> split_on sep l = [l].
Proof.
  induction l as [|c l IH]; [reflexivity|]. cbn [forallb split_on].
  intros H. apply andb_true_iff in H. destruct H as [Hc Hl].
  rewrite (IH Hl). apply negb_true_iff in Hc. now rewrite Hc.
Qed.

Lemma split_on_app sep a s rest :
  forallb (fun c => negb (sep c)) a = true -> sep s = true ->
  split_on sep (a ++ s :: rest) = a :: split_on sep rest.
Proof.
  intros Ha Hs. induction a as [|c a IH].
  - cbn [app split_on]. rewrite Hs.
    destruct (split_on sep rest) eqn:E; [|reflexivity].
    exfalso. revert E. clear. induction rest as [|x r IH]; simpl; [discriminate|].
    destruct (split_on sep r); [discriminate|]. destruct (sep x); discriminate.
  - cbn [forallb] in Ha. apply andb_true_iff in Ha. destruct Ha as [Hc Ha].
    cbn [app split_on]. rewrite (IH Ha). apply negb_true_iff in Hc. now rewrite Hc.
Qed.

Lemma plain_not_space c : plain c = true -> is_space c = false.
Proof.
  unfold plain, is_digit, is_char, is_space, between, hyphen. generalize (code c).
  intros n H.
  destruct (Nat.leb_spec 48 n), (Nat.leb_spec n 57), (Nat.eqb_spec n 45),
    (Nat.leb_spec 9 n), (Nat.leb_spec n 13), (Nat.eqb_spec n 32);
    cbn in *; try reflexivity; try discriminate; lia.
Qed.

Lemma plain_not_quote c : plain c = true -> is_quote c = false.
Proof.
  unfold plain, is_quote, is_digit, is_char, between, hyphen. generalize (code c).
  intros n H.
  destruct (Nat.leb_spec 48 n), (Nat.leb_spec n 57), (Nat.eqb_spec n 45),
    (Nat.eqb_spec n 34), (Nat.eqb_spec n 39);
    cbn in *; try reflexivity; try discriminate; lia.
Qed.

Lemma digit_not_sep sep c : sep = slash \/ sep = hyphen -> is_digit c = true -> is_char sep c = false.
Proof.
  unfold is_digit, is_char, between, slash, hyphen. generalize (code c). intros n Hs H.
  apply andb_true_iff in H. destruct H as [H1 H2].
  apply Nat.leb_le in H1, H2. apply Nat.eqb_neq. destruct Hs; subst; lia.
Qed.

Lemma dropWhile_id p l :
  match l with c :: _ => p c = false | [] => True end -> dropWhile p l = l.
Proof. destruct l; simpl; [reflexivity|]. now intros ->. Qed.

Lemma trim_chars_id l :
  forallb (fun c => negb (is_space c)) l = true -> trim_chars l = l.
Proof.
  intros H. unfold trim_chars. rewrite forallb_forall in H.
  rewrite (dropWhile_id is_space l).
  - rewrite dropWhile_id; [apply rev_involutive|].
    destruct (rev l) as [|c r] eqn:E; [exact I|].
    apply negb_true_iff, H, in_rev. rewrite E. now left.
  - destruct l as [|c r]; [exact I|]. apply negb_true_iff, H. now left.
Qed.

Lemma filter_id {A} (p : A -> bool) l : forallb p l = true -> filter p l = l.
Proof.
  induction l as [|x l IH]; [reflexivity|]. cbn [forallb filter]. intros H.
  apply andb_true_iff in H. destruct H as [-> H]. now rewrite IH.
Qed.

Lemma plain_clean (l : list ascii) :
  forallb plain l = true ->
  chars (remove is_quote (trim (of_chars l))) = l.
Proof.
  intros H. unfold remove, trim. rewrite !chars_of_chars.
  rewrite trim_chars_id.
  - apply filter_id.
    rewrite forallb_forall in *. intros c Hc. apply negb_true_iff, plain_not_quote. auto.
  - rewrite forallb_forall in *. intros c Hc. apply negb_true_iff, plain_not_space. auto.
Qed.

Lemma split_on_join sep l :
  forall c, In c l -> sep c = true \/ exists piece, In piece (split_on sep l) /\ In c piece.
Proof.
  induction l as [|x l IH]; intros c Hc; [destruct Hc|].
  cbn [split_on].
  destruct (split_on sep l) as [|p ps] eqn:E.
  - exfalso. revert E. clear. induction l as [|y r IH]; simpl; [discriminate|].
    destruct (split_on sep r); [discriminate|]. destruct (sep y); discriminate.
  - destruct Hc as [->|Hc].
    + destruct (sep c) eqn:Hs; [now left|]. right. exists (c :: p). split; now left.
    + destruct (IH c Hc) as [Hs|[piece [Hp Hin]]]; [now left|]. right.
      destruct (sep x).
      * exists piece. split; [now right | exact Hin].
      * destruct Hp as [<-|Hp].
        -- exists (x :: p). split; [now left | now right].
        -- exists piece. split; [now right | exact Hin].
Qed.

Lemma digits_between_digits lo hi p : digits_between lo hi p = true -> forallb is_digit p = true.
Proof.
  unfold digits_between. intros H. apply andb_true_iff in H. destruct H as [H _].
  apply andb_true_iff in H. tauto.
Qed.

Lemma date_pieces_inv sep l1 h1 l2 h2 l3 h3 cs p1 p2 p3 :
  date_pieces sep l1 h1 l2 h2 l3 h3 cs = Some (p1, p2, p3) ->
  split_on (is_char sep) cs = [p1; p2; p3] /\
  digits_between l1 h1 p1 = true /\ digits_between l2 h2 p2 = true /\
  digits_between l3 h3 p3 = true.
Proof.
  unfold date_pieces.
  destruct (split_on (is_char sep) cs) as [|q1 [|q2 [|q3 [|q4 qs]]]]; try discriminate.
  destruct (digits_between l1 h1 q1) eqn:E1; [|discriminate].
  destruct (digits_between l2 h2 q2) eqn:E2; [|discriminate].
  destruct (digits_between l3 h3 q3) eqn:E3; [|discriminate].
  cbn [andb]. intros H; inversion H; subst. auto.
Qed.

Lemma date_shape_plain cs :
  date_shape hyphen 4 4 2 2 2 2 cs = true -> forallb plain cs = true.
Proof.
  unfold date_shape. destruct (date_pieces _ _ _ _ _ _ _ cs) as [[[p1 p2] p3]|] eqn:E;
    [|discriminate].
  intros _. apply date_pieces_inv in E. destruct E as (Hs & H1 & H2 & H3).
  apply digits_between_digits in H1, H2, H3.
  apply forallb_forall. intros c Hc. unfold plain.
  destruct (split_on_join (is_char hyphen) cs c Hc) as [->|[piece [Hp Hin]]];
    [apply orb_true_r|].
  rewrite Hs in Hp. rewrite forallb_forall in H1, H2, H3.
  destruct Hp as [<-|[<-|[<-|[]]]]; apply orb_true_iff; left; auto.
Qed.

Lemma digits_not_hyphen p :
  forallb is_digit p = true -> forallb (fun c => negb (is_char hyphen c)) p = true.
Proof.
  rewrite !forallb_forall. intros H c Hc.
  apply negb_true_iff, digit_not_sep; [now right | auto].
Qed.

Lemma padStart2_digits p :
  digits_between 1 2 p = true -> digits_between 2 2 (padStart2 p) = true.
Proof.
  unfold digits_between, padStart2. intros H.
  apply andb_true_iff in H. destruct H as [H H2].
  apply andb_true_iff in H. destruct H as [Hd H1].
  apply Nat.leb_le in H1, H2.
  rewrite forallb_app, Hd, andb_true_r, length_app, repeat_length.
  assert (Hz : forallb is_digit (repeat (ascii_of_nat 48) (2 - length p)) = true).
  { apply forallb_forall. intros c Hc. apply repeat_spec in Hc. now subst. }
  rewrite Hz. cbn [andb]. apply andb_true_iff. split; apply Nat.leb_le; lia.
Qed.

Lemma iso_date_shape year month day :
  digits_between 4 4 year = true ->
  digits_between 1 2 month = true -> digits_between 1 2 day = true ->
  date_shape hyphen 4 4 2 2 2 2 (chars (iso_date year month day)) = true.
Proof.
  intros Hy Hm Hd. apply padStart2_digits in Hm, Hd.
  unfold iso_date. rewrite chars_of_chars. unfold date_shape, date_pieces.
  assert (Hh : is_char hyphen (ascii_of_nat hyphen) = true) by reflexivity.
  cbn [app].
  rewrite split_on_app;
    [|apply digits_not_hyphen; eapply digits_between_digits; eauto | exact Hh].
  rewrite split_on_app;
    [|apply digits_not_hyphen; eapply digits_between_digits; eauto | exact Hh].
  rewrite split_on_none
    by (apply digits_not_hyphen; eapply digits_between_digits; eauto).
  now rewrite Hy, Hm, Hd.
Qed.

Lemma short_year_digits century yy :
  century = chars "19" \/ century = chars "20" ->
  digits_between 2 2 yy = true -> digits_between 4 4 (century ++ yy) = true.
Proof.
  unfold digits_between. intros Hc H.
  apply andb_true_iff in H. destruct H as [H H2].
  apply andb_true_iff in H. destruct H as [Hd H1].
  apply Nat.leb_le in H1, H2.
  rewrite forallb_app, Hd, length_app.
  destruct Hc as [-> | ->]; cbn [chars list_ascii_of_string forallb length andb];
    (replace (is_digit _) with true by reflexivity);
    (replace (is_digit _) with true by reflexivity); cbn [andb];
    apply andb_true_iff; split; apply Nat.leb_le; lia.
Qed.

Section ParseDate.
Variable Date_iso : string -> option string.

Lemma parseDate_iso d :
  date_shape hyphen 4 4 2 2 2 2 (chars d) = true -> parseDate Date_iso d = Some d.
Proof.
  intros Hs. unfold parseDate. cbv zeta.
  pose proof (plain_clean (chars d) (date_shape_plain _ Hs)) as Hc.
  rewrite of_chars_chars in Hc. rewrite Hc, Hs.
  f_equal. rewrite <- (of_chars_chars (remove _ _)), Hc. apply of_chars_chars.
Qed.

(** X23: a date that [parseDate] returns without falling back on the
    [Date] constructor has the form YYYY-MM-DD, and [parseDate] returns it
    unchanged when given it again. *)
Theorem parseDate_gives_iso (dateStr d : string) :
  parseDate Date_iso dateStr = Some d ->
  (date_shape hyphen 4 4 2 2 2 2 (chars d) = true /\ parseDate Date_iso d = Some d) \/
  Date_iso (remove is_quote (trim dateStr)) = Some d.
Proof.
  unfold parseDate. cbv zeta.
  set (cleaned := remove is_quote (trim dateStr)).
  destruct (date_shape hyphen 4 4 2 2 2 2 (chars cleaned)) eqn:E1.
  { intros H; inversion H; subst. left. split; [exact E1 | now apply parseDate_iso]. }
  destruct (date_pieces slash 1 2 1 2 4 4 (chars cleaned)) as [[[m dd] y]|] eqn:E2.
  { intros H; inversion H; subst. left.
    apply date_pieces_inv in E2. destruct E2 as (_ & Hm & Hd & Hy).
    pose proof (iso_date_shape y m dd Hy Hm Hd) as Hshape.
    split; [exact Hshape | now apply parseDate_iso]. }
  destruct (date_pieces slash 1 2 1 2 2 2 (chars cleaned)) as [[[m dd] yy]|] eqn:E3.
  { intros H; inversion H; subst. left.
    apply date_pieces_inv in E3. destruct E3 as (_ & Hm & Hd & Hy).
    assert (Hy4 : digits_between 4 4
                    ((if 50 <? digits_value yy then chars "19" else chars "20") ++ yy)
                  = true).
    { apply short_year_digits; [|exact Hy]. destruct (50 <? digits_value yy); auto. }
    pose proof (iso_date_shape _ m dd Hy4 Hm Hd) as Hshape.
    split; [exact Hshape | now apply parseDate_iso]. }
  intros H. now right.
Qed.

End ParseDate.

Lemma parseDate_gives_iso_witness :
  let Date_iso := fun _ : string => @None string in
  (date_shape hyphen 4 4 2 2 2 2 (chars "2024-01-05") = true /\
   parseDate Date_iso "2024-01-05" = Some "2024-01-05"%string) \/
  Date_iso (remove is_quote (trim "1/5/24")) = Some "2024-01-05"%string.
Proof.
  cbv zeta. apply (parseDate_gives_iso (fun _ => None) "1/5/24").
  vm_compute. reflexivity.
Defined.

Lemma filter_dropWhile (p sp : ascii -> bool) l :
  (forall c, sp c = true -> p c = false) ->
  filter p (dropWhile sp l) = filter p l.
Proof.
  intros H. induction l as [|c l IH]; [reflexivity|]. cbn [dropWhile filter].
  destruct (sp c) eqn:E; [|reflexivity]. now rewrite (H c E).
Qed.

Lemma filter_trim_chars (p : ascii -> bool) l :
  (forall c, is_space c = true -> p c = false) ->
  filter p (trim_chars l) = filter p l.
Proof.
  intros H. unfold trim_chars.
  rewrite filter_rev, filter_dropWhile, filter_rev, rev_involutive by exact H.
  now apply filter_dropWhile.
Qed.

Lemma filter_filter {A} (p q : A -> bool) l :
  filter p (filter q l) = filter (fun x => q x && p x) l.
Proof.
  induction l as [|x l IH]; [reflexivity|]. cbn [filter].
  destruct (q x); cbn [filter andb]; [destruct (p x)|]; now rewrite IH.
Qed.

Lemma parseAmount_cleaned amountStr :
  chars (remove is_space
           (remove (fun c => is_quote c || is_char 36 c) (trim amountStr))) =
  filter kept (chars amountStr).
Proof.
  unfold remove, trim. rewrite !chars_of_chars, filter_filter.
  rewrite filter_trim_chars.
  - apply filter_ext. intros c. unfold kept. apply andb_comm.
  - intros c Hc. now rewrite Hc, andb_false_r.
Qed.

Lemma amount_char_facts c :
  amount_char c = true ->
  is_char 39 c = false /\ is_char 40 c = false /\ is_space c = false /\
  is_char 44 c = false /\ is_char 36 c = false /\ is_char 34 c = false.
Proof.
  unfold amount_char, is_space, is_digit, is_char, between. generalize (code c).
  intros n H.
  destruct (Nat.leb_spec 48 n), (Nat.leb_spec n 57), (Nat.eqb_spec n 45),
    (Nat.eqb_spec n 46); cbn in H; try discriminate;
    repeat split; try (apply Nat.eqb_neq; lia);
    destruct (Nat.leb_spec 9 n), (Nat.leb_spec n 13), (Nat.eqb_spec n 32);
    cbn; try reflexivity; lia.
Qed.

Lemma takeWhile_dropWhile p l : takeWhile p l ++ dropWhile p l = l.
Proof.
  induction l as [|c l IH]; [reflexivity|]. cbn [takeWhile dropWhile].
  destruct (p c); [cbn [app]; now rewrite IH | reflexivity].
Qed.

Lemma takeWhile_all p l : forallb p (takeWhile p l) = true.
Proof.
  induction l as [|c l IH]; [reflexivity|]. cbn [takeWhile].
  destruct (p c) eqn:E; [cbn [forallb]; now rewrite E | reflexivity].
Qed.

Lemma unsigned_decimal_chars cs :
  unsigned_decimal cs = true -> forallb amount_char cs = true.
Proof.
  unfold unsigned_decimal. cbv zeta. intros H.
  apply andb_true_iff in H. destruct H as [_ H].
  rewrite <- (takeWhile_dropWhile is_digit cs), forallb_app.
  apply andb_true_iff. split.
  - pose proof (takeWhile_all is_digit cs) as Ht. rewrite forallb_forall in *.
    intros c Hc. unfold amount_char. now rewrite (Ht c Hc).
  - destruct (dropWhile is_digit cs) as [|c rest]; [reflexivity|].
    cbn [first_is] in H. cbn [forallb]. apply andb_true_iff.
    destruct (is_char 46 c) eqn:E.
    + cbn [tl] in H. split; [unfold amount_char; rewrite E; apply orb_true_r|].
      rewrite forallb_forall in *. intros x Hx. unfold amount_char. now rewrite (H x Hx).
    + cbn [forallb] in H. apply andb_true_iff in H. destruct H as [Hc H]. split.
      * unfold amount_char. now rewrite Hc.
      * rewrite forallb_forall in *. intros x Hx. unfold amount_char. now rewrite (H x Hx).
Qed.

Lemma unsigned_decimal_head cs :
  unsigned_decimal cs = true -> exists d rest, cs = d :: rest /\ is_digit d = true.
Proof.
  unfold unsigned_decimal. cbv zeta. intros H.
  apply andb_true_iff in H. destruct H as [H _].
  destruct cs as [|d rest]; [discriminate H|]. cbn [takeWhile] in H.
  destruct (is_digit d) eqn:E; [|discriminate H]. eauto.
Qed.

Lemma digit_facts d :
  is_digit d = true ->
  is_space d = false /\ is_char 45 d = false /\ is_char 43 d = false /\
  Ascii.eqb "I" d = false.
Proof.
  intros H.
  assert (Hn : 48 <= code d <= 57).
  { unfold is_digit, between in H. apply andb_true_iff in H. destruct H as [H1 H2].
    apply Nat.leb_le in H1, H2. lia. }
  repeat split.
  - unfold is_space, between.
    destruct (Nat.leb_spec 9 (code d)), (Nat.leb_spec (code d) 13),
      (Nat.eqb_spec (code d) 32); cbn; try reflexivity; lia.
  - apply Nat.eqb_neq. lia.
  - apply Nat.eqb_neq. lia.
  - apply Ascii.eqb_neq. intros <-. vm_compute in Hn. lia.
Qed.

Lemma literal_not_nan (q : Q) : JS.literal q <> NaN.
Proof.
  unfold JS.literal.
  destruct (Qleb _ _); [destruct (Qltb _ _); discriminate|].
  destruct (Qleb _ _); discriminate.
Qed.

Lemma parseFloat_unsigned cs :
  unsigned_decimal cs = true -> parseFloat cs <> NaN.
Proof.
  intros H. destruct (unsigned_decimal_head cs H) as (d & rest & -> & Hd).
  destruct (digit_facts d Hd) as (Hsp & Hm & Hp & HI).
  unfold parseFloat. cbn [dropWhile]. rewrite Hsp. cbn [take_sign]. rewrite Hm, Hp.
  cbn [chars list_ascii_of_string starts_with]. rewrite HI. cbn [andb].
  cbn [takeWhile]. rewrite Hd. cbn [is_nil andb].
  destruct (if first_is 46 _ then _ else _) as [fracPart afterFrac].
  apply literal_not_nan.
Qed.

Lemma parseFloat_signed cs :
  unsigned_decimal cs = true -> parseFloat (ascii_of_nat 45 :: cs) <> NaN.
Proof.
  intros H. destruct (unsigned_decimal_head cs H) as (d & rest & -> & Hd).
  destruct (digit_facts d Hd) as (Hsp & Hm & Hp & HI).
  unfold parseFloat. cbn [dropWhile].
  replace (is_space (ascii_of_nat 45)) with false by reflexivity.
  cbn [take_sign]. replace (is_char 45 (ascii_of_nat 45)) with true by reflexivity.
  cbn [chars list_ascii_of_string starts_with]. rewrite HI. cbn [andb].
  cbn [takeWhile]. rewrite Hd. cbn [is_nil andb].
  destruct (if first_is 46 _ then _ else _) as [fracPart afterFrac].
  apply literal_not_nan.
Qed.

(** [parseAmount] on a parse that is not NaN. *)
Ltac settle_amount H :=
  match goal with
  | |- context [parseFloat ?cs] =>
      let E := fresh "E" in
      destruct (parseFloat cs) eqn:E; [| | |exfalso; exact (H E)];
      (eexists; split; [reflexivity|]);
      try match goal with
          | |- context [if ?b then _ else _] => destruct b
          end;
      discriminate
  end.

Lemma first_is_eq n cs :
  n < 256 -> first_is n cs = true -> exists rest, cs = ascii_of_nat n :: rest.
Proof.
  intros Hn H. destruct cs as [|c rest]; [discriminate|]. cbn [first_is] in H.
  unfold is_char, code in H. apply Nat.eqb_eq in H. exists rest.
  now rewrite <- H, ascii_nat_embedding.
Qed.

Lemma looksLikeAmount_number (value : string) :
  looksLikeAmount value = true ->
  exists n, parseAmount value = Some n /\ n <> NaN.
Proof.
  unfold looksLikeAmount. cbv zeta.
  set (seen := chars (remove _ value)).
  fold (unsigned_decimal (if first_is 45 seen then tl seen else seen)).
  intros Hlooks.
  assert (Hseen : forallb amount_char seen = true).
  { pose proof (unsigned_decimal_chars _ Hlooks) as Hu.
    destruct (first_is 45 seen) eqn:E; [|exact Hu].
    destruct (first_is_eq 45 seen ltac:(lia) E) as [rest Hrest].
    rewrite Hrest in *. cbn [tl] in Hu. cbn [forallb]. now rewrite Hu. }
  assert (Hseen_eq : seen =
            filter (fun c => negb (is_char 36 c || is_char 44 c || is_char 34 c
                                   || is_space c)) (chars value)).
  { unfold seen, remove. now rewrite chars_of_chars. }
  (* no single quote and no parenthesis: they would have been seen *)
  assert (Hkept : filter (fun c => negb (is_char 44 c)) (filter kept (chars value))
                  = seen).
  { rewrite Hseen_eq, filter_filter. rewrite Hseen_eq in Hseen.
    clear -Hseen. induction (chars value) as [|c l IH]; [reflexivity|].
    cbn [filter] in *.
    destruct (negb (is_char 36 c || is_char 44 c || is_char 34 c || is_space c)) eqn:E.
    - cbn [forallb] in Hseen. apply andb_true_iff in Hseen. destruct Hseen as [Hc Hl].
      destruct (amount_char_facts c Hc) as (H39 & H40 & Hsp & H44 & H36 & H34).
      assert (Hk : kept c && negb (is_char 44 c) = true)
        by (unfold kept, is_quote; now rewrite Hsp, H34, H39, H36, H44).
      rewrite Hk. now rewrite (IH Hl).
    - rewrite (IH Hseen).
      destruct (kept c && negb (is_char 44 c)) eqn:E'; [|reflexivity]. exfalso.
      apply andb_true_iff in E'. destruct E' as [Hk H44].
      unfold kept, is_quote in Hk.
      apply negb_false_iff in E.
      destruct (is_space c), (is_char 34 c), (is_char 36 c), (is_char 44 c),
        (is_char 39 c); cbn in *; discriminate. }
  assert (Hparen : first_is 40 (filter kept (chars value)) = false).
  { destruct (first_is 40 (filter kept (chars value))) eqn:E; [|reflexivity]. exfalso.
    destruct (first_is_eq 40 _ ltac:(lia) E) as [rest Hrest].
    rewrite Hrest in Hkept. cbn in Hkept. rewrite <- Hkept in Hseen.
    cbn in Hseen. discriminate. }
  unfold parseAmount. cbv zeta. rewrite parseAmount_cleaned.
  set (K := filter kept (chars value)) in *. rewrite Hparen. cbn [andb orb].
  destruct (first_is 45 K) eqn:EK.
  - destruct (first_is_eq 45 K ltac:(lia) EK) as [rest Hrest].
    rewrite Hrest in *. cbn [tl].
    assert (Hs : seen = ascii_of_nat 45 :: filter (fun c => negb (is_char 44 c)) rest).
    { rewrite <- Hkept. reflexivity. }
    rewrite Hs in Hlooks. cbn [first_is] in Hlooks.
    replace (is_char 45 (ascii_of_nat 45)) with true in Hlooks by reflexivity.
    cbn [tl] in Hlooks.
    settle_amount (parseFloat_unsigned _ Hlooks).
  - rewrite Hkept.
    destruct (first_is 45 seen) eqn:Es.
    + destruct (first_is_eq 45 seen ltac:(lia) Es) as [rest Hrest].
      rewrite Hrest in *. cbn [tl] in Hlooks.
      settle_amount (parseFloat_signed _ Hlooks).
    + settle_amount (parseFloat_unsigned _ Hlooks).
Qed.

(** X24: a value that [looksLikeAmount] accepts is read by [parseAmount]
    as a number: the result is neither [null] nor NaN (digits beyond the
    range of a double give an infinity). *)
Theorem looksLikeAmount_parses (value : string) :
  looksLikeAmount value = true ->
  exists n, parseAmount value = Some n /\ n <> NaN.
Proof. apply looksLikeAmount_number. Qed.

Lemma looksLikeAmount_parses_witness :
  exists n, parseAmount "$1,234.50" = Some n /\ n <> NaN.
Proof. apply looksLikeAmount_parses. vm_compute. reflexivity. Defined.

(** Beyond the range of a double: [1e400] is read as [Infinity] and
    [1e-400] as 0. *)
Example parseFloat_range :
  parseFloat (chars "1e400") = PosInfinity /\
  parseFloat (chars "-1e400") = NegInfinity /\
  parseFloat (chars "1e-400") = Fin 0.
Proof. vm_compute. repeat split. Qed.

(** X25: under a mapping that [detectColumnsFromData] returns for a row,
    the amount of that row parses to a number: neither [null] nor NaN. *)
Theorem data_mapping_reads_amount (fields : list string) (mapping : ColumnMapping) :
  detectColumnsFromData fields = Some mapping ->
  exists n, row_amount mapping fields = Some n /\ n <> NaN.
Proof.
  intros Hm.
  destruct (detectColumnsFromData_fields fields mapping Hm)
    as (_ & (f & Hf & Hlooks) & _ & _ & _ & _ & Hd & _).
  destruct (looksLikeAmount_number f Hlooks) as (n & Hn & Hnan).
  exists n. split; [|exact Hnan]. apply (row_amount_single f); auto.
  destruct f; [discriminate Hlooks | reflexivity].
Qed.

Lemma data_mapping_reads_amount_witness :
  exists n,
    row_amount {| dateIndex := 0; descriptionIndex := 1; amountIndex := 2;
                  debitIndex := None; creditIndex := None |}
      ["01/15/2024"; "Netflix"; "$15.99"]%string = Some n /\ n <> NaN.
Proof.
  apply data_mapping_reads_amount. vm_compute. reflexivity.
Defined.

Lemma dropWhile_app_spaces (ws l : list ascii) :
  forallb is_space ws = true -> dropWhile is_space (ws ++ l) = dropWhile is_space l.
Proof.
  induction ws as [|c ws IH]; [reflexivity|]. cbn [forallb app dropWhile].
  intros H. apply andb_true_iff in H. destruct H as [-> H]. now apply IH.
Qed.

Lemma trim_chars_lead (ws l : list ascii) :
  forallb is_space ws = true -> trim_chars (ws ++ l) = trim_chars l.
Proof. intros H. unfold trim_chars. now rewrite dropWhile_app_spaces. Qed.

Lemma forallb_rev {A} (p : A -> bool) (l : list A) : forallb p (rev l) = forallb p l.
Proof.
  rewrite eq_iff_eq_true, !forallb_forall. split; intros H x Hx; apply H.
  - now apply in_rev in Hx.
  - now apply in_rev.
Qed.

Lemma dropWhile_keeps_tail (l ws : list ascii) :
  dropWhile is_space (l ++ ws) =
  if forallb is_space l then dropWhile is_space ws else dropWhile is_space l ++ ws.
Proof.
  induction l as [|c l IH]; [reflexivity|]. cbn [app dropWhile forallb].
  destruct (is_space c); [exact IH | reflexivity].
Qed.

Lemma trim_chars_trail (l ws : list ascii) :
  forallb is_space ws = true -> trim_chars (l ++ ws) = trim_chars l.
Proof.
  intros Hws. unfold trim_chars. rewrite dropWhile_keeps_tail.
  destruct (forallb is_space l) eqn:El.
  - assert (E1 : dropWhile is_space ws = []) by (now apply dropWhile_nil).
    assert (E2 : dropWhile is_space l = []) by (now apply dropWhile_nil).
    now rewrite E1, E2.
  - rewrite rev_app_distr, dropWhile_app_spaces; [reflexivity|].
    now rewrite forallb_rev.
Qed.

Lemma space_not_quote c : is_space c = true -> is_char 34 c = false.
Proof.
  unfold is_space, is_char, between. generalize (code c). intros n H.
  apply Nat.eqb_neq. intros ->. cbn in H. discriminate.
Qed.

Section Trim.
Variable delimiter : ascii.
Hypothesis delimiter_not_space : is_space delimiter = false.

Lemma space_not_delimiter c : is_space c = true -> Ascii.eqb c delimiter = false.
Proof.
  intros H. apply Ascii.eqb_neq. intros ->. congruence.
Qed.

(** White space in front of [current] does not change the fields. *)
Lemma split_loop_lead ws : forall n cs current inQuotes result,
  length cs <= n ->
  forallb is_space ws = true ->
  split_loop delimiter cs (ws ++ current) inQuotes result =
  split_loop delimiter cs current inQuotes result.
Proof.
  induction n as [|n IH]; intros cs current inQuotes result Hlen Hws.
  - destruct cs; [|cbn in Hlen; lia]. cbn [split_loop]. now rewrite trim_chars_lead.
  - destruct cs as [|c cs]; [cbn [split_loop]; now rewrite trim_chars_lead|].
    cbn [length] in Hlen. cbn [split_loop]. destruct (is_char 34 c).
    + destruct cs as [|next rest]; [apply IH; [cbn; lia | exact Hws]|].
      cbn [length] in Hlen.
      destruct (inQuotes && is_char 34 next).
      * rewrite <- app_assoc. apply IH; [lia | exact Hws].
      * apply IH; [cbn [length]; lia | exact Hws].
    + destruct (Ascii.eqb c delimiter && negb inQuotes).
      * rewrite trim_chars_lead by exact Hws. reflexivity.
      * rewrite <- app_assoc. apply IH; [lia | exact Hws].
Qed.

(** What is left of [current] when only white space follows. *)
Lemma split_loop_spaces ws : forall current inQuotes result,
  forallb is_space ws = true ->
  split_loop delimiter ws current inQuotes result =
  result ++ [of_chars (trim_chars current)].
Proof.
  induction ws as [|c ws IH]; intros current inQuotes result Hws; [reflexivity|].
  cbn [forallb] in Hws. apply andb_true_iff in Hws. destruct Hws as [Hc Hws].
  cbn [split_loop]. rewrite (space_not_quote c Hc), (space_not_delimiter c Hc).
  cbn [andb]. rewrite (IH _ _ _ Hws).
  now rewrite (trim_chars_trail current [c]) by (cbn [forallb]; now rewrite Hc).
Qed.

(** White space at the end of the line does not change the fields. *)
Lemma split_loop_trail ws : forall n cs current inQuotes result,
  length cs <= n ->
  forallb is_space ws = true ->
  split_loop delimiter (cs ++ ws) current inQuotes result =
  split_loop delimiter cs current inQuotes result.
Proof.
  induction n as [|n IH]; intros cs current inQuotes result Hlen Hws.
  - destruct cs; [|cbn in Hlen; lia]. cbn [app]. now apply split_loop_spaces.
  - destruct cs as [|c cs]; [cbn [app]; now apply split_loop_spaces|].
    cbn [length] in Hlen. cbn [app split_loop]. destruct (is_char 34 c).
    + destruct cs as [|next rest].
      * cbn [app]. destruct ws as [|w ws']; [reflexivity|].
        pose proof Hws as Hws0.
        cbn [forallb] in Hws. apply andb_true_iff in Hws. destruct Hws as [Hw Hws'].
        rewrite (space_not_quote w Hw), andb_false_r.
        now rewrite split_loop_spaces by exact Hws0.
      * cbn [length] in Hlen. cbn [app].
        destruct (inQuotes && is_char 34 next).
        -- apply IH; [lia | exact Hws].
        -- apply (IH (next :: rest)); [cbn [length]; lia | exact Hws].
    + destruct (Ascii.eqb c delimiter && negb inQuotes);
        apply IH; try lia; exact Hws.
Qed.

(** A line is its trimmed form between two runs of white space. *)
Lemma trim_chars_split (l : list ascii) :
  exists lead trail,
    l = lead ++ trim_chars l ++ trail /\
    forallb is_space lead = true /\ forallb is_space trail = true.
Proof.
  exists (takeWhile is_space l),
         (rev (takeWhile is_space (rev (dropWhile is_space l)))).
  split; [|split].
  - unfold trim_chars. rewrite <- rev_app_distr, takeWhile_dropWhile, rev_involutive.
    symmetry. apply takeWhile_dropWhile.
  - apply takeWhile_all.
  - rewrite forallb_rev. apply takeWhile_all.
Qed.

(** X30: for a delimiter that is not white space, such as the comma,
    [splitCSVLine] gives the same fields for a line and for the trimmed line:
    the row loop of [parseCSV], which trims, sees the fields that the column
    detection saw. *)
Theorem splitCSVLine_trim (line : string) :
  splitCSVLine (trim line) delimiter = splitCSVLine line delimiter.
Proof.
  unfold splitCSVLine, trim. rewrite chars_of_chars.
  destruct (trim_chars_split (chars line)) as (lead & trail & E & Hlead & Htrail).
  rewrite E at 2.
  assert (Hl : forall cs, split_loop delimiter (lead ++ cs) [] false [] =
                          split_loop delimiter cs [] false []).
  { intros cs. clear E. induction lead as [|c lead IH]; [reflexivity|].
    cbn [forallb] in Hlead. apply andb_true_iff in Hlead. destruct Hlead as [Hc Hlead].
    cbn [app split_loop]. rewrite (space_not_quote c Hc), (space_not_delimiter c Hc).
    cbn [andb app].
    change (split_loop delimiter (lead ++ cs) [c] false []) with
      (split_loop delimiter (lead ++ cs) ([c] ++ []) false []).
    rewrite (split_loop_lead [c] (length (lead ++ cs)) (lead ++ cs) [] false [])
      by (auto; cbn [forallb]; now rewrite Hc).
    now apply IH. }
  rewrite Hl.
  symmetry. apply (split_loop_trail trail (length (trim_chars (chars line)))); auto.
Qed.

End Trim.

Lemma splitCSVLine_trim_witness :
  splitCSVLine (trim "  a, b ,c  ") comma = splitCSVLine "  a, b ,c  " comma.
Proof. apply splitCSVLine_trim. reflexivity. Defined.

End CsvParserProperties.

(** ** The sync route: what the transactions table keeps *)

Module TransactionSyncFacts.
Import JS JSFacts Str MerchantNormalizer MerchantNormalizerFacts MerchantStore.
Import MerchantNormalizerProperties TransactionSync.

Lemma same_key_iff userId plaidId r :
  same_key userId plaidId r = true <->
  row_user_id r = userId /\ row_plaid_transaction_id r = plaidId.
Proof.
  unfold same_key. rewrite andb_true_iff, !String.eqb_eq. tauto.
Qed.

Lemma same_key_values userId accountId merchantId tx rowId :
  same_key userId (transaction_id tx)
    (row_values userId accountId merchantId tx rowId) = true.
Proof. apply same_key_iff. split; reflexivity. Qed.

(** The replacement of [upsert_row] keeps the key of every row. *)
Lemma replace_keeps_key userId accountId merchantId tx u p r :
  same_key u p
    (if same_key userId (transaction_id tx) r
     then row_values userId accountId merchantId tx (row_id r) else r) =
  same_key u p r.
Proof.
  destruct (same_key userId (transaction_id tx) r) eqn:E; [|reflexivity].
  apply same_key_iff in E. destruct E as [E1 E2].
  unfold same_key. cbn [row_values row_user_id row_plaid_transaction_id].
  now rewrite E1, E2.
Qed.

Lemma filter_map_key {A} (p : A -> bool) (f : A -> A) (l : list A) :
  (forall x, p (f x) = p x) -> length (filter p (map f l)) = length (filter p l).
Proof.
  intros H. induction l as [|x l IH]; [reflexivity|]. cbn [map filter].
  rewrite H. destruct (p x); cbn [length]; now rewrite IH.
Qed.

Lemma existsb_filter_nil {A} (p : A -> bool) (l : list A) :
  existsb p l = false -> filter p l = [].
Proof.
  induction l as [|x l IH]; [reflexivity|]. cbn [existsb filter].
  intros H. apply orb_false_iff in H. destruct H as [-> H]. now apply IH.
Qed.

Lemma upsert_row_keys rows newId userId accountId merchantId tx :
  (forall u p, (length (filter (same_key u p) rows) <= 1)%nat) ->
  forall u p,
    (length (filter (same_key u p)
               (upsert_row rows newId (row_values userId accountId merchantId tx)
                  userId (transaction_id tx))) <= 1)%nat.
Proof.
  intros Hu u p. unfold upsert_row.
  destruct (existsb _ rows) eqn:E.
  - rewrite filter_map_key; [apply Hu|]. intros r. apply replace_keeps_key.
  - rewrite filter_app, length_app. cbn [filter].
    destruct (same_key u p (row_values _ _ _ _ _)) eqn:Ek; cbn [length];
      [|specialize (Hu u p); lia].
    apply same_key_iff in Ek. cbn in Ek. destruct Ek as [<- <-].
    rewrite (existsb_filter_nil _ _ E). cbn [length]. lia.
Qed.

Lemma upsert_row_In rows newId userId accountId merchantId tx r :
  In r (upsert_row rows newId (row_values userId accountId merchantId tx)
          userId (transaction_id tx)) ->
  In r rows \/ exists rowId, r = row_values userId accountId merchantId tx rowId.
Proof.
  unfold upsert_row. destruct (existsb _ rows).
  - intros H. apply in_map_iff in H. destruct H as [r0 [<- Hr0]].
    destruct (same_key _ _ r0); [right; eauto | now left].
  - intros H. apply in_app_or in H. destruct H as [H|[<-|[]]]; [now left | right; eauto].
Qed.

Lemma filter_filter_le {A} (p q : A -> bool) (l : list A) :
  (length (filter p (filter q l)) <= length (filter p l))%nat.
Proof.
  induction l as [|x l IH]; [apply Nat.le_refl|]. cbn [filter].
  destruct (q x), (p x) eqn:E; cbn [filter length]; rewrite ?E; cbn [length]; lia.
Qed.

Section SyncFacts.
Variable normalizeMerchantName : string -> string.
Variable new_uuid : Store -> string.
Variable raw_names_update : list string -> string -> list string.
Variable new_row_id : list TransactionRow -> string.
Local Abbreviation upsert :=
  (upsertTransaction normalizeMerchantName new_uuid raw_names_update new_row_id).
Local Abbreviation sync :=
  (syncAccountTransactions normalizeMerchantName new_uuid raw_names_update new_row_id).

Lemma upsertTransaction_ok db userId accountId tx :
  db_ok db -> db_ok (upsert db userId accountId tx).
Proof.
  intros [Hstore Hamt Hkeys Hmer]. unfold upsertTransaction.
  destruct (Qleb (p_amount tx) 0) eqn:Egate; [now split|].
  assert (Hpos : (0 < p_amount tx)%Q).
  { apply Qnot_le_lt. intros Hle. apply Qleb_true in Hle. congruence. }
  destruct (resolve_keeps_store normalizeMerchantName new_uuid raw_names_update
              (db_store db) userId (merchantName tx) Hstore)
    as (merchantId & store1 & -> & Hstore1 & Hown & Hmono).
  split; cbn [db_store db_transactions].
  - exact Hstore1.
  - apply Forall_forall. intros r Hr.
    apply upsert_row_In in Hr. destruct Hr as [Hr|[rowId ->]].
    + unfold amounts_positive in Hamt. rewrite Forall_forall in Hamt. now apply Hamt.
    + exact Hpos.
  - intros u p. now apply upsert_row_keys.
  - intros r mid Hr Hmid. cbn [db_store db_transactions] in *.
    apply upsert_row_In in Hr. destruct Hr as [Hr|[rowId ->]].
    + apply Hmono. now apply (Hmer r).
    + cbn in Hmid. inversion Hmid; subst. exact Hown.
Qed.

Lemma removeTransaction_ok db userId transactionId :
  db_ok db -> db_ok (removeTransaction db userId transactionId).
Proof.
  intros Hok. unfold removeTransaction.
  destruct transactionId as [plaidId|]; [|exact Hok].
  destruct (is_empty plaidId); [exact Hok|].
  destruct Hok as [Hstore Hamt Hkeys Hmer].
  split; cbn [db_store db_transactions].
  - exact Hstore.
  - unfold amounts_positive in *. cbn [db_transactions].
    rewrite Forall_forall in *. intros r Hr. apply filter_In in Hr. now apply Hamt.
  - intros u p. cbn [db_transactions].
    specialize (Hkeys u p).
    eapply Nat.le_trans; [apply filter_filter_le | exact Hkeys].
  - intros r mid Hr Hmid. cbn [db_store db_transactions] in *.
    apply filter_In in Hr. now apply (Hmer r).
Qed.

Lemma fold_ok {A} (f : Db -> A -> Db) (l : list A) :
  (forall db x, db_ok db -> db_ok (f db x)) ->
  forall db, db_ok db -> db_ok (fold_left f l db).
Proof.
  intros Hf. induction l as [|x l IH]; intros db Hok; [exact Hok|].
  cbn [fold_left]. apply IH, Hf, Hok.
Qed.

Lemma sync_page_ok userId accountId st page :
  db_ok (fst st) -> db_ok (fst (sync_page normalizeMerchantName new_uuid
                                  raw_names_update new_row_id userId accountId st page)).
Proof.
  destruct st as [db counts]. cbn [fst sync_page]. intros Hok.
  apply fold_ok; [intros; now apply removeTransaction_ok|].
  apply fold_ok; [intros; now apply upsertTransaction_ok|].
  apply fold_ok; [intros; now apply upsertTransaction_ok|]. exact Hok.
Qed.

Lemma sync_pages_ok userId accountId pages : forall st,
  db_ok (fst st) ->
  db_ok (fst (fold_left (sync_page normalizeMerchantName new_uuid raw_names_update
                           new_row_id userId accountId) pages st)).
Proof.
  induction pages as [|page pages IH]; intros st Hok; [exact Hok|].
  cbn [fold_left]. apply IH. now apply sync_page_ok.
Qed.

Lemma sync_pages_counts userId accountId pages : forall st,
  let result := snd (fold_left (sync_page normalizeMerchantName new_uuid
                                  raw_names_update new_row_id userId accountId)
                               pages st) in
  n_added result = (n_added (snd st) + length (flat_map added pages))%nat /\
  n_modified result = (n_modified (snd st) + length (flat_map modified pages))%nat /\
  n_removed result = (n_removed (snd st) + length (flat_map removed pages))%nat.
Proof.
  induction pages as [|page pages IH]; intros st; cbv zeta.
  - cbn [fold_left flat_map length]. lia.
  - cbn [fold_left flat_map]. rewrite !length_app.
    destruct (IH (sync_page normalizeMerchantName new_uuid raw_names_update
                    new_row_id userId accountId st page)) as (H1 & H2 & H3).
    rewrite H1, H2, H3. destruct st as [db counts].
    cbn [sync_page snd n_added n_modified n_removed]. lia.
Qed.

(** X26: [syncAccountTransactions] keeps the tables consistent: stored
    amounts stay positive, there is at most one row per user and Plaid
    transaction id, rows point to merchants of their own user, and the
    merchant tables keep their invariants.  The counts it returns are the
    numbers of added, modified and removed entries of the responses, whether
    or not they changed a row. *)
Theorem syncAccountTransactions_keeps_db_ok db userId accountId cursor0 first more :
  db_ok db ->
  let result := sync db userId accountId cursor0 first more in
  db_ok (fst result) /\
  n_added (snd result) = length (flat_map added (first :: more)) /\
  n_modified (snd result) = length (flat_map modified (first :: more)) /\
  n_removed (snd result) = length (flat_map removed (first :: more)).
Proof.
  intros Hok. cbv zeta. unfold syncAccountTransactions. split.
  - now apply sync_pages_ok.
  - apply (sync_pages_counts userId accountId (first :: more)
             (db, {| n_added := 0; n_modified := 0; n_removed := 0;
                     cursor := cursor0 |})).
Qed.

Lemma upsert_row_twice rows newId newId' userId accountId merchantId tx :
  let values := row_values userId accountId merchantId tx in
  upsert_row (upsert_row rows newId values userId (transaction_id tx))
    newId' values userId (transaction_id tx) =
  upsert_row rows newId values userId (transaction_id tx).
Proof.
  cbv zeta.
  set (values := row_values userId accountId merchantId tx).
  set (f := fun r => if same_key userId (transaction_id tx) r
                     then values (row_id r) else r).
  assert (Hff : forall r, f (f r) = f r).
  { intros r. unfold f. destruct (same_key userId (transaction_id tx) r) eqn:Ek.
    - unfold values at 1. now rewrite same_key_values.
    - now rewrite Ek. }
  assert (Hrows : upsert_row rows newId values userId (transaction_id tx) =
                  if existsb (same_key userId (transaction_id tx)) rows
                  then map f rows else rows ++ [values newId]) by reflexivity.
  rewrite Hrows. clear Hrows.
  destruct (existsb (same_key userId (transaction_id tx)) rows) eqn:E;
    unfold upsert_row; fold f.
  - assert (Hex : existsb (same_key userId (transaction_id tx)) (map f rows) = true).
    { apply existsb_exists in E. destruct E as [r [Hr Hk]].
      apply existsb_exists. exists (f r). split; [now apply in_map|].
      unfold f. rewrite Hk. apply same_key_values. }
    rewrite Hex, map_map. apply map_ext. exact Hff.
  - rewrite existsb_app. cbn [existsb]. unfold values at 1.
    rewrite same_key_values, orb_true_r, map_app. cbn [map]. f_equal.
    + rewrite <- (map_id rows) at 2. apply map_ext_in. intros r Hr. unfold f.
      destruct (same_key userId (transaction_id tx) r) eqn:Ek; [|reflexivity].
      exfalso. assert (existsb (same_key userId (transaction_id tx)) rows = true)
        by (apply existsb_exists; eauto). congruence.
    + unfold f, values. now rewrite same_key_values.
Qed.

(** X27: upserting the same Plaid transaction a second time changes no
    column that the route writes, in either table: every row keeps its [id]
    and its values, and no row is added.  (The column [updated_at] of the
    transaction's row, which a trigger of the schema sets at every update,
    is outside the rows as modelled here.) *)
Theorem upsertTransaction_idempotent db userId accountId tx :
  aliases_unique (db_store db) ->
  upsert (upsert db userId accountId tx) userId accountId tx =
  upsert db userId accountId tx.
Proof.
  intros Hu. unfold upsertTransaction.
  destruct (Qleb (p_amount tx) 0) eqn:Egate; [reflexivity|].
  destruct (resolve_twice normalizeMerchantName new_uuid raw_names_update
              (db_store db) userId (merchantName tx) Hu)
    as (merchantId & store1 & -> & H2).
  cbn [db_store db_transactions]. rewrite H2. f_equal. apply upsert_row_twice.
Qed.

(** X28: [upsertTransaction] ignores a transaction whose amount is not
    positive; for a positive amount it leaves exactly one row for the user
    and the Plaid transaction id, with the values of the transaction and a
    merchant of that user. *)
Theorem upsertTransaction_stores_charge db userId accountId tx :
  db_ok db ->
  ((p_amount tx <= 0)%Q -> upsert db userId accountId tx = db) /\
  ((0 < p_amount tx)%Q ->
   exists row merchantId,
     filter (same_key userId (transaction_id tx))
            (db_transactions (upsert db userId accountId tx)) = [row] /\
     row_merchant_id row = Some merchantId /\
     owned_by (db_store (upsert db userId accountId tx)) userId merchantId /\
     row_account_id row = accountId /\
     row_amount row = p_amount tx /\ row_date row = p_date tx /\
     row_name row = p_name tx /\ row_merchant_name row = p_merchant_name tx /\
     row_pending row = p_pending tx).
Proof.
  intros Hok. split.
  - intros Hle. unfold upsertTransaction. apply Qleb_true in Hle. now rewrite Hle.
  - intros Hpos.
    pose proof (upsertTransaction_ok db userId accountId tx Hok) as Hok'.
    destruct Hok' as [_ _ Hkeys' _]. specialize (Hkeys' userId (transaction_id tx)).
    revert Hkeys'. unfold upsertTransaction.
    assert (Egate : Qleb (p_amount tx) 0 = false).
    { apply Qleb_false. exact Hpos. }
    rewrite Egate.
    destruct Hok as [Hstore _ _ _].
    destruct (resolve_keeps_store normalizeMerchantName new_uuid raw_names_update
                (db_store db) userId (merchantName tx) Hstore)
      as (merchantId & store1 & -> & _ & Hown & _).
    cbn [db_store db_transactions].
    set (values := row_values userId accountId (Some merchantId) tx).
    set (rows' := upsert_row _ _ values _ _).
    intros Hlen.
    assert (Hex : exists rowId, In (values rowId) rows').
    { unfold rows', upsert_row.
      destruct (existsb _ (db_transactions db)) eqn:E.
      - apply existsb_exists in E. destruct E as [r [Hr Hk]].
        exists (row_id r). apply in_map_iff. exists r. now rewrite Hk.
      - eexists. apply in_or_app. right. now left. }
    destruct Hex as [rowId Hin].
    assert (Hf : In (values rowId) (filter (same_key userId (transaction_id tx)) rows')).
    { apply filter_In. split; [exact Hin | apply same_key_values]. }
    destruct (filter _ rows') as [|r [|r' rest]]; [destruct Hf| |simpl in Hlen; lia].
    destruct Hf as [->|[]].
    exists (values rowId), merchantId. repeat split. exact Hown.
Qed.

End SyncFacts.

Lemma db_ok_empty :
  db_ok {| db_store := {| merchants := []; merchant_aliases := [] |};
           db_transactions := [] |}.
Proof.
  split.
  - exact store_ok_empty.
  - constructor.
  - intros u p. cbn. lia.
  - intros r m [].
Qed.

Lemma syncAccountTransactions_keeps_db_ok_witness :
  let sync :=
    syncAccountTransactions (fun raw => toLowerCase raw) (fun _ => "m1"%string)
      (fun names raw => names ++ [raw]) (fun _ => "r1"%string) in
  let db := {| db_store := {| merchants := []; merchant_aliases := [] |};
               db_transactions := [] |} in
  let charge := {| transaction_id := "p1"; p_amount := 15.99; p_date := 19737;
                   p_name := "NETFLIX.COM"; p_merchant_name := Some "Netflix"%string;
                   p_pending := false |} in
  let refund := {| transaction_id := "p2"; p_amount := -15.99; p_date := 19738;
                   p_name := "NETFLIX.COM"; p_merchant_name := None;
                   p_pending := false |} in
  let first := {| added := [charge; refund]; modified := []; removed := [];
                  next_cursor := Some "c1"%string |} in
  let result := sync db "u1"%string "a1"%string None first [] in
  db_ok (fst result) /\
  n_added (snd result) = length (flat_map added [first]) /\
  n_modified (snd result) = length (flat_map modified [first]) /\
  n_removed (snd result) = length (flat_map removed [first]).
Proof.
  cbv zeta. apply syncAccountTransactions_keeps_db_ok. exact db_ok_empty.
Defined.

Lemma upsertTransaction_idempotent_witness :
  let upsert :=
    upsertTransaction (fun raw => toLowerCase raw) (fun _ => "m1"%string)
      (fun names raw => names ++ [raw]) (fun _ => "r1"%string) in
  let db := {| db_store := {| merchants := []; merchant_aliases := [] |};
               db_transactions := [] |} in
  let charge := {| transaction_id := "p1"; p_amount := 15.99; p_date := 19737;
                   p_name := "NETFLIX.COM"; p_merchant_name := Some "Netflix"%string;
                   p_pending := false |} in
  upsert (upsert db "u1"%string "a1"%string charge) "u1"%string "a1"%string charge =
  upsert db "u1"%string "a1"%string charge.
Proof.
  cbv zeta. apply upsertTransaction_idempotent. intros u r. cbn. lia.
Defined.

Lemma upsertTransaction_stores_charge_witness :
  let upsert :=
    upsertTransaction (fun raw => toLowerCase raw) (fun _ => "m1"%string)
      (fun names raw => names ++ [raw]) (fun _ => "r1"%string) in
  let db := {| db_store := {| merchants := []; merchant_aliases := [] |};
               db_transactions := [] |} in
  let tx := {| transaction_id := "p1"; p_amount := 15.99; p_date := 19737;
               p_name := "NETFLIX.COM"; p_merchant_name := Some "Netflix"%string;
               p_pending := false |} in
  ((p_amount tx <= 0)%Q -> upsert db "u1"%string "a1"%string tx = db) /\
  ((0 < p_amount tx)%Q ->
   exists row merchantId,
     filter (same_key "u1"%string (transaction_id tx))
            (db_transactions (upsert db "u1"%string "a1"%string tx)) = [row] /\
     row_merchant_id row = Some merchantId /\
     owned_by (db_store (upsert db "u1"%string "a1"%string tx)) "u1"%string merchantId /\
     row_account_id row = "a1"%string /\
     row_amount row = p_amount tx /\ row_date row = p_date tx /\
     row_name row = p_name tx /\ row_merchant_name row = p_merchant_name tx /\
     row_pending row = p_pending tx).
Proof.
  cbv zeta. apply upsertTransaction_stores_charge. exact db_ok_empty.
Defined.

End TransactionSyncFacts.
